(** * Sandbox lifecycle engine: configuration, invocation builder, registry

    A shallow embedding of [packages/agent-core/src/sandbox] ([config.ts],
    [utils.ts], [runner.ts], [docker.ts]) together with the properties its
    specification states about it and further properties of the code.

    Conventions of the embedding.
    - A JavaScript string is the list of its UTF-16 code units ([JsString]);
      literals of the source are written [js "..."].
    - A JavaScript number is [JsNumber]: NaN, the two infinities, or a finite
      value carried as a rational.
    - A plain object used as a record of strings ([Record<string, string>])
      is the list of its property definitions in creation order; its
      enumeration order is computed by [Object_entries].
    - A function that throws returns [inl error]; one that mutates the
      module-level registry or a process object takes and returns the
      [Machine] state.
    - What the source obtains from the platform ([path.resolve],
      [path.basename], number-to-string conversion, the random bytes of a
      container name, the host identity, the decoding of a buffer, the
      events of a child process) is an explicit argument.
    - A promise is [None] while it is pending; the events of a child process
      are a list, handled in order, and the code that awaits the promise of a
      command continues after them. *)

From Stdlib Require Import ZArith QArith Lia Bool Ascii String.
From stdpp Require Import base option list gmap.

Local Open Scope list_scope.

(** ** JavaScript values used by the sandbox module *)

Module Js.

(** UTF-16 code units. *)
Definition JsString := list N.

Definition js (s : string) : JsString :=
  map N_of_ascii (list_ascii_of_string s).

Definition unit_eqb (a b : N) : bool := N.eqb a b.

Fixpoint str_eqb (a b : JsString) : bool :=
  match a, b with
  | [], [] => true
  | x :: a', y :: b' => unit_eqb x y && str_eqb a' b'
  | _, _ => false
  end.

(** [s.includes(c)] for a one-unit needle. *)
Definition includes (c : N) (s : JsString) : bool := existsb (unit_eqb c) s.

(** [s.startsWith(c)] for a one-unit needle. *)
Definition startsWith (c : N) (s : JsString) : bool :=
  match s with
  | x :: _ => unit_eqb x c
  | [] => false
  end.

(** [!s] on a string: only the empty string is falsy. *)
Definition falsy (s : JsString) : bool :=
  match s with [] => true | _ => false end.

(** [s.indexOf(c)]: [None] stands for -1. *)
Fixpoint indexOf (c : N) (s : JsString) : option nat :=
  match s with
  | [] => None
  | x :: s' => if unit_eqb x c then Some 0
               else match indexOf c s' with
                    | Some i => Some (S i)
                    | None => None
                    end
  end.

(** [s.slice(0, n)] for [0 <= n]. *)
Definition slice0 (n : nat) (s : JsString) : JsString := take n s.

Definition NUL : N := 0%N.
Definition EQUALS : N := 61%N.
Definition SLASH : N := 47%N.
Definition BACKSLASH : N := 92%N.

(** The regular-expression class [\s]. *)
Definition isWhiteSpace (c : N) : bool :=
  ((9 <=? c) && (c <=? 13) || (c =? 32) || (c =? 160) || (c =? 5760)
   || (8192 <=? c) && (c <=? 8202) || (c =? 8232) || (c =? 8233)
   || (c =? 8239) || (c =? 8287) || (c =? 12288) || (c =? 65279))%N.

(** The class [[a-zA-Z0-9]]. *)
Definition isAlnum (c : N) : bool :=
  ((97 <=? c) && (c <=? 122) || (65 <=? c) && (c <=? 90)
   || (48 <=? c) && (c <=? 57))%N.

(** The class [[a-zA-Z0-9_.-]]. *)
Definition isNameChar (c : N) : bool :=
  (isAlnum c || (c =? 95) || (c =? 46) || (c =? 45))%N.

(** Numbers. *)
Inductive JsNumber :=
| NaN
| Infinity (negative : bool)
| Finite (q : Q).

Definition ofZ (z : Z) : JsNumber := Finite (inject_Z z).

Definition Number_isFinite (n : JsNumber) : bool :=
  match n with Finite _ => true | _ => false end.

Definition Number_isInteger (n : JsNumber) : bool :=
  match n with
  | Finite q => Z.eqb (Qnum q mod Zpos (Qden q)) 0
  | _ => false
  end.

(** [n <= 0]; every comparison with NaN is false. *)
Definition leq_zero (n : JsNumber) : bool :=
  match n with
  | NaN => false
  | Infinity negative => negative
  | Finite q => Qle_bool q 0
  end.

(** [n === 0]. *)
Definition is_zero (n : JsNumber) : bool :=
  match n with
  | Finite q => Qeq_bool q 0
  | _ => false
  end.

(** [a ?? b]. *)
Definition nullish {A} (a : option A) (b : A) : A :=
  match a with Some x => x | None => b end.

(** Optional chaining [o?.f] where [f] itself may be absent. *)
Definition chain {A B} (o : option A) (f : A -> option B) : option B :=
  match o with Some x => f x | None => None end.

End Js.

Import Js.

(** ** config.ts *)

Module Config.

Record SandboxResourceLimits := {
  memory : JsString;
  cpus : JsNumber;
  pidsLimit : JsNumber
}.

(** [Partial<SandboxResourceLimits>]. *)
Record PartialResourceLimits := {
  p_memory : option JsString;
  p_cpus : option JsNumber;
  p_pidsLimit : option JsNumber
}.

Record SandboxUserMapping := {
  uid : JsNumber;
  gid : JsNumber
}.

Record SandboxMount := {
  hostPath : JsString;
  containerPath : JsString;
  readOnly : bool
}.

(** [Partial<SandboxMount>]. *)
Record PartialMount := {
  p_hostPath : option JsString;
  p_containerPath : option JsString;
  p_readOnly : option bool
}.

(** The input configuration; [network] is checked at run time, so it is
    carried as the string the caller wrote. *)
Record SandboxConfig := {
  c_enabled : bool;
  c_image : JsString;
  c_network : option JsString;
  c_resources : option PartialResourceLimits;
  c_user : option SandboxUserMapping;
  c_mount : option PartialMount;
  c_workdir : option JsString;
  c_env : option (list (JsString * JsString));
  c_preflightTimeoutMs : option JsNumber;
  c_pullTimeoutMs : option JsNumber;
  c_containerNamePrefix : option JsString
}.

Record ResolvedSandboxConfig := {
  image : JsString;
  network : JsString;
  resources : SandboxResourceLimits;
  user : SandboxUserMapping;
  mount : SandboxMount;
  workdir : JsString;
  env : list (JsString * JsString);
  preflightTimeoutMs : JsNumber;
  pullTimeoutMs : JsNumber;
  containerNamePrefix : JsString
}.

(** One constructor per [throw new Error(...)] of the file. *)
Inductive Error :=
| SandboxDisabled
| ImageNotNonEmptyString
| ImageHasWhitespaceOrNul
| IdentityUnavailable
| HostUserIsRoot
| UserNotIntegers
| UserNotPositive
| MemoryNotNonEmptyString
| CpusNotPositive
| PidsLimitNotPositiveInteger
| InvalidNetworkMode (mode : JsString)
| PrefixNotNonEmptyString
| PrefixInvalidCharacters
| ContainerPathNotAbsolute
| WorkdirNotAbsolute.

Definition Result (A : Type) := (Error + A)%type.
Definition ok {A} (a : A) : Result A := inr a.
Definition throw {A} (e : Error) : Result A := inl e.
Definition bind {A B} (r : Result A) (k : A -> Result B) : Result B :=
  match r with inl e => inl e | inr a => k a end.

Notation "'let!' x ':=' r 'in' k" := (bind r (fun x => k))
  (at level 10, x name, r at level 100, k at level 200).
Notation "'check!' r 'in' k" := (bind r (fun _ => k))
  (at level 10, r at level 100, k at level 200).

Definition DEFAULT_LIMITS : SandboxResourceLimits :=
  {| memory := js "512m"; cpus := Finite (1 # 2); pidsLimit := ofZ 50 |}.

Definition DEFAULT_CONTAINER_PATH : JsString := js "/workspace".
Definition DEFAULT_PREFLIGHT_TIMEOUT_MS : JsNumber := ofZ 10000.
Definition DEFAULT_PULL_TIMEOUT_MS : JsNumber := ofZ 300000.
Definition DEFAULT_CONTAINER_NAME_PREFIX : JsString := js "accomplish-sandbox".

(** What [process] exposes of the host identity: each of [getuid] and
    [getgid] is either absent or returns a number. *)
Record Host := {
  getuid : option JsNumber;
  getgid : option JsNumber
}.

Definition getHostUserMapping (host : Host) : Result SandboxUserMapping :=
  match getuid host, getgid host with
  | Some u, Some g =>
      if is_zero u then throw HostUserIsRoot
      else ok {| uid := u; gid := g |}
  | _, _ => throw IdentityUnavailable
  end.

Definition validateDockerImageName (image : JsString) : Result unit :=
  if falsy image then throw ImageNotNonEmptyString
  else if existsb (fun c => isWhiteSpace c || unit_eqb c NUL) image
       then throw ImageHasWhitespaceOrNul
       else ok tt.

Definition validateUserMapping (u : SandboxUserMapping) : Result unit :=
  if negb (Number_isInteger (uid u)) || negb (Number_isInteger (gid u))
  then throw UserNotIntegers
  else if leq_zero (uid u) || leq_zero (gid u)
       then throw UserNotPositive
       else ok tt.

Definition validateResourceLimits (l : SandboxResourceLimits) : Result unit :=
  if falsy (memory l) then throw MemoryNotNonEmptyString
  else if negb (Number_isFinite (cpus l)) || leq_zero (cpus l)
       then throw CpusNotPositive
       else if negb (Number_isInteger (pidsLimit l)) || leq_zero (pidsLimit l)
            then throw PidsLimitNotPositiveInteger
            else ok tt.

(** [/^[a-zA-Z0-9][a-zA-Z0-9_.-]*$/u.test(prefix)]. *)
Definition prefixMatches (prefix : JsString) : bool :=
  match prefix with
  | c :: rest => isAlnum c && forallb isNameChar rest
  | [] => false
  end.

Definition validateContainerNamePrefix (prefix : JsString) : Result unit :=
  if falsy prefix then throw PrefixNotNonEmptyString
  else if negb (prefixMatches prefix) then throw PrefixInvalidCharacters
       else ok tt.

Section Resolve.

(** [path.resolve] and [path.basename] of the platform. *)
Variable path_resolve : JsString -> JsString.
Variable path_basename : JsString -> JsString.

Definition resolveSandboxConfig (host : Host) (config : SandboxConfig)
  : Result ResolvedSandboxConfig :=
  check! (if negb (c_enabled config) then throw SandboxDisabled else ok tt) in
  check! validateDockerImageName (c_image config) in
  let! user := match c_user config with
               | Some u => ok u
               | None => getHostUserMapping host
               end in
  check! validateUserMapping user in
  let resources :=
    {| memory := nullish (chain (c_resources config) p_memory)
                         (memory DEFAULT_LIMITS);
       cpus := nullish (chain (c_resources config) p_cpus)
                       (cpus DEFAULT_LIMITS);
       pidsLimit := nullish (chain (c_resources config) p_pidsLimit)
                            (pidsLimit DEFAULT_LIMITS) |} in
  check! validateResourceLimits resources in
  let network := nullish (c_network config) (js "none") in
  check! (if negb (str_eqb network (js "none"))
             && negb (str_eqb network (js "bridge"))
          then throw (InvalidNetworkMode network) else ok tt) in
  let containerNamePrefix :=
    nullish (c_containerNamePrefix config) DEFAULT_CONTAINER_NAME_PREFIX in
  check! validateContainerNamePrefix containerNamePrefix in
  let hostPath :=
    match chain (c_mount config) p_hostPath with
    | Some p => if falsy p then [] else path_resolve p
    | None => []
    end in
  let containerPath :=
    nullish (chain (c_mount config) p_containerPath) DEFAULT_CONTAINER_PATH in
  check! (if negb (startsWith SLASH containerPath)
          then throw ContainerPathNotAbsolute else ok tt) in
  let mount :=
    {| hostPath := hostPath;
       containerPath := containerPath;
       readOnly := nullish (chain (c_mount config) p_readOnly) false |} in
  let workdir := nullish (c_workdir config) containerPath in
  check! (if negb (startsWith SLASH workdir)
          then throw WorkdirNotAbsolute else ok tt) in
  ok {| image := c_image config;
        network := network;
        resources := resources;
        user := user;
        mount := mount;
        workdir := workdir;
        env := nullish (c_env config) [];
        preflightTimeoutMs :=
          nullish (c_preflightTimeoutMs config) DEFAULT_PREFLIGHT_TIMEOUT_MS;
        pullTimeoutMs :=
          nullish (c_pullTimeoutMs config) DEFAULT_PULL_TIMEOUT_MS;
        containerNamePrefix := containerNamePrefix |}.

Definition toContainerCommand (command : JsString) : JsString :=
  if includes SLASH command || includes BACKSLASH command
  then path_basename command
  else command.

End Resolve.

(** A configuration that sets only the two mandatory fields and the user. *)
Definition minimalConfig (image : JsString) (u : SandboxUserMapping)
  : SandboxConfig :=
  {| c_enabled := true; c_image := image; c_network := None;
     c_resources := None; c_user := Some u; c_mount := None;
     c_workdir := None; c_env := None; c_preflightTimeoutMs := None;
     c_pullTimeoutMs := None; c_containerNamePrefix := None |}.

End Config.

(** ** utils.ts *)

Module Utils.

(** *** Container names *)

Definition hexDigit (n : N) : N :=
  (if n <? 10 then 48 + n else 87 + n)%N.

(** [Buffer.toString('hex')]: two lower-case digits per byte. *)
Definition toHex (bytes : list N) : JsString :=
  flat_map (fun b => [hexDigit ((b mod 256) / 16); hexDigit (b mod 16)]%N) bytes.

(** [createSandboxContainerName]; [random] is the value of
    [randomBytes(8)]. *)
Definition createSandboxContainerName (random : list N) (prefix : JsString)
  : JsString :=
  let suffix := toHex random in
  prefix ++ js "-" ++ suffix.

(** *** Redaction *)

Definition ENV_FLAG : JsString := js "--env".
Definition REDACTED : JsString := js "=<redacted>".

(** [eqIndex >= 0 ? next.slice(0, eqIndex) : next]. *)
Definition keyOf (next : JsString) : JsString :=
  match indexOf EQUALS next with
  | Some eqIndex => slice0 eqIndex next
  | None => next
  end.

(** The [for] loop of [redactDockerArgsForLogging] from [index] on, with
    the array [redacted] built so far; [fuel] bounds the iterations.  On
    [--env] the marker is pushed; when [args[index + 1]] is a string it is
    pushed redacted and skipped ([index += 1; continue]); otherwise control
    falls out of the [if] and reaches the final [redacted.push(arg)]. *)
Fixpoint redactLoop (fuel index : nat) (args redacted : list JsString)
  : list JsString :=
  match fuel with
  | 0 => redacted
  | S fuel' =>
      match args !! index with
      | None => redacted
      | Some arg =>
          if str_eqb arg ENV_FLAG then
            let redacted := redacted ++ [arg] in
            match args !! (index + 1) with
            | Some next =>
                let key := keyOf next in
                redactLoop fuel' (index + 1 + 1) args
                  (redacted ++ [key ++ REDACTED])
            | None => redactLoop fuel' (index + 1) args (redacted ++ [arg])
            end
          else redactLoop fuel' (index + 1) args (redacted ++ [arg])
      end
  end.

(** The loop runs at most [args.length] times. *)
Definition redactDockerArgsForLogging (args : list JsString) : list JsString :=
  redactLoop (length args) 0 args [].

(** *** The cleanup registry and the process handlers *)

(** Identity of a cleanup closure and of a process-like object. *)
Definition Callback := nat.
Definition Target := nat.

Inductive Signal := SIGINT | SIGTERM.

Inductive EventName :=
| exit
| signal (s : Signal).

#[global] Instance Signal_eq_dec : EqDecision Signal.
Proof. solve_decision. Defined.

#[global] Instance EventName_eq_dec : EqDecision EventName.
Proof. solve_decision. Defined.

(** The three closures [ensureSandboxProcessCleanupHandlers] creates;
    each captures the [targetProcess] it was created for. *)
Inductive Listener :=
| onExit (targetProcess : Target)
| onSigint (targetProcess : Target)
| onSigterm (targetProcess : Target).

#[global] Instance Listener_eq_dec : EqDecision Listener.
Proof. solve_decision. Defined.

(** [process.exitCode]: only a number counts as set for the handlers
    ([typeof exitCode !== 'number']). *)
Inductive ExitCode :=
| Unset
| NonNumeric (s : JsString)
| Code (n : JsNumber).

Definition isNumber (c : ExitCode) : bool :=
  match c with Code _ => true | _ => false end.

(** What calling [kill] does when the object has one. *)
Inductive KillImpl := KillReturns | KillThrows.

(** A [ProcessLike] object: the listener table of its event emitter and
    the fields the handlers read.  [exit] is not a field: its type is
    [never], and like the test double of the repository it records the
    code and unwinds with an exception. *)
Record ProcessLike := {
  exitListeners : list Listener;
  sigintListeners : list Listener;
  sigtermListeners : list Listener;
  exitCode : ExitCode;
  pid : option JsNumber;
  kill : option KillImpl
}.

(** Observable effects, oldest first. *)
Inductive Effect :=
| Ran (c : Callback)
| Killed (t : Target) (pid : JsNumber) (s : Signal)
| Exited (t : Target) (code : ExitCode).

(** The module state ([cleanupCallbacks], [registeredProcesses],
    [cleanupInProgress]) together with the process-like objects in
    existence and the effects performed so far.  [cleanupCallbacks] is a
    [Set]: it is listed in insertion order. *)
Record Machine := {
  cleanupCallbacks : list Callback;
  registeredProcesses : gset Target;
  cleanupInProgress : bool;
  heap : gmap Target ProcessLike;
  trace : list Effect
}.

Definition withCallbacks (cbs : list Callback) (st : Machine) : Machine :=
  {| cleanupCallbacks := cbs;
     registeredProcesses := registeredProcesses st;
     cleanupInProgress := cleanupInProgress st;
     heap := heap st; trace := trace st |}.

Definition withInProgress (b : bool) (st : Machine) : Machine :=
  {| cleanupCallbacks := cleanupCallbacks st;
     registeredProcesses := registeredProcesses st;
     cleanupInProgress := b;
     heap := heap st; trace := trace st |}.

Definition withRegistered (s : gset Target) (st : Machine) : Machine :=
  {| cleanupCallbacks := cleanupCallbacks st;
     registeredProcesses := s;
     cleanupInProgress := cleanupInProgress st;
     heap := heap st; trace := trace st |}.

Definition withHeap (h : gmap Target ProcessLike) (st : Machine) : Machine :=
  {| cleanupCallbacks := cleanupCallbacks st;
     registeredProcesses := registeredProcesses st;
     cleanupInProgress := cleanupInProgress st;
     heap := h; trace := trace st |}.

Definition log (e : Effect) (st : Machine) : Machine :=
  {| cleanupCallbacks := cleanupCallbacks st;
     registeredProcesses := registeredProcesses st;
     cleanupInProgress := cleanupInProgress st;
     heap := heap st; trace := trace st ++ [e] |}.

(** The callbacks invoked so far, in order. *)
Definition ran (st : Machine) : list Callback :=
  omap (fun e => match e with Ran c => Some c | _ => None end) (trace st).

(** [cleanupCallbacks.add(callback)]. *)
Definition registerSandboxCleanupCallback (callback : Callback) (st : Machine)
  : Machine :=
  if decide (callback ∈ cleanupCallbacks st) then st
  else withCallbacks (cleanupCallbacks st ++ [callback]) st.

(** [cleanupCallbacks.delete(callback)]. *)
Definition unregisterSandboxCleanupCallback (callback : Callback) (st : Machine)
  : Machine :=
  withCallbacks (filter (fun c => c ≠ callback) (cleanupCallbacks st)) st.

(** **** The event emitter of a process-like object *)

Definition listeners (e : EventName) (p : ProcessLike) : list Listener :=
  match e with
  | exit => exitListeners p
  | signal SIGINT => sigintListeners p
  | signal SIGTERM => sigtermListeners p
  end.

Definition setListeners (e : EventName) (ls : list Listener) (p : ProcessLike)
  : ProcessLike :=
  match e with
  | exit =>
      {| exitListeners := ls; sigintListeners := sigintListeners p;
         sigtermListeners := sigtermListeners p; exitCode := exitCode p;
         pid := pid p; kill := kill p |}
  | signal SIGINT =>
      {| exitListeners := exitListeners p; sigintListeners := ls;
         sigtermListeners := sigtermListeners p; exitCode := exitCode p;
         pid := pid p; kill := kill p |}
  | signal SIGTERM =>
      {| exitListeners := exitListeners p; sigintListeners := sigintListeners p;
         sigtermListeners := ls; exitCode := exitCode p;
         pid := pid p; kill := kill p |}
  end.

Definition setExitCode (c : ExitCode) (p : ProcessLike) : ProcessLike :=
  {| exitListeners := exitListeners p; sigintListeners := sigintListeners p;
     sigtermListeners := sigtermListeners p; exitCode := c;
     pid := pid p; kill := kill p |}.

(** Removes the most recently added instance of [l]. *)
Fixpoint removeLast (l : Listener) (ls : list Listener) : list Listener :=
  match ls with
  | [] => []
  | x :: ls' =>
      if decide (l ∈ ls') then x :: removeLast l ls'
      else if decide (x = l) then ls' else x :: ls'
  end.

(** [target.on(event, listener)]. *)
Definition on (t : Target) (e : EventName) (l : Listener) (st : Machine)
  : Machine :=
  withHeap (alter (fun p => setListeners e (listeners e p ++ [l]) p) t (heap st)) st.

(** [target.removeListener(event, listener)]. *)
Definition removeListener (t : Target) (e : EventName) (l : Listener)
    (st : Machine) : Machine :=
  withHeap (alter (fun p => setListeners e (removeLast l (listeners e p)) p)
                  t (heap st)) st.

Definition exitCodeOf (t : Target) (st : Machine) : ExitCode :=
  match heap st !! t with
  | Some p => exitCode p
  | None => Unset
  end.

Definition listenersOf (t : Target) (e : EventName) (st : Machine)
  : list Listener :=
  match heap st !! t with
  | Some p => listeners e p
  | None => []
  end.

(** How a call ended: it returned, or an exception is unwinding. *)
Inductive Completion := Normal | Abrupt.

(** What a cleanup closure may do besides its own work: use the registry,
    emit an event on a process-like object, throw. *)
Inductive Action :=
| Register (c : Callback)
| Unregister (c : Callback)
| Emit (t : Target) (e : EventName)
| Throw.

Section Handlers.

(** The code of every cleanup closure. *)
Variable body : Callback -> list Action.

Section Reentrant.

(** [runCleanup], as the handlers and the closures below see it. *)
Variable runCleanup : Machine -> option Machine.

(** [targetProcess.exit(targetProcess.exitCode)]. *)
Definition exitProcess (t : Target) (st : Machine) : Machine * Completion :=
  (log (Exited t (exitCodeOf t st)) st, Abrupt).

(** The part that [onSigint] and [onSigterm] share: they differ in
    the signal and in the conventional exit code. *)
Definition onSignal (self : Listener) (s : Signal) (code : Z) (t : Target)
    (st : Machine) : option (Machine * Completion) :=
  st1 ← runCleanup st;
  let st2 :=
    if isNumber (exitCodeOf t st1) then st1
    else withHeap (alter (setExitCode (Code (ofZ code))) t (heap st1)) st1 in
  let st3 := removeListener t (signal s) self st2 in
  match heap st3 !! t with
  | Some p =>
      match kill p, pid p with
      | Some KillReturns, Some n => Some (log (Killed t n s) st3, Normal)
      | _, _ => Some (exitProcess t st3)
      end
  | None => Some (exitProcess t st3)
  end.

Definition call (l : Listener) (st : Machine)
  : option (Machine * Completion) :=
  match l with
  | onExit _ => st1 ← runCleanup st; Some (st1, Normal)
  | onSigint t => onSignal (onSigint t) SIGINT 130 t st
  | onSigterm t => onSignal (onSigterm t) SIGTERM 143 t st
  end.

(** The listeners of one [emit], called in order; an exception
    leaves the remaining ones uncalled. *)
Fixpoint callAll (ls : list Listener) (st : Machine)
  : option (Machine * Completion) :=
  match ls with
  | [] => Some (st, Normal)
  | l :: ls' =>
      r ← call l st;
      match r with
      | (st1, Normal) => callAll ls' st1
      | (st1, Abrupt) => Some (st1, Abrupt)
      end
  end.

(** [target.emit(event)]: the listener array is copied first. *)
Definition emit (t : Target) (e : EventName) (st : Machine)
  : option (Machine * Completion) :=
  callAll (listenersOf t e st) st.

Fixpoint exec (acts : list Action) (st : Machine)
  : option (Machine * Completion) :=
  match acts with
  | [] => Some (st, Normal)
  | Register c :: rest => exec rest (registerSandboxCleanupCallback c st)
  | Unregister c :: rest => exec rest (unregisterSandboxCleanupCallback c st)
  | Emit t e :: rest =>
      r ← emit t e st;
      match r with
      | (st1, Normal) => exec rest st1
      | (st1, Abrupt) => Some (st1, Abrupt)
      end
  | Throw :: _ => Some (st, Abrupt)
  end.

(** [for (const callback of callbacks) { try { callback(); } catch {} }]. *)
Fixpoint forEachCallback (callbacks : list Callback) (st : Machine)
  : option Machine :=
  match callbacks with
  | [] => Some st
  | callback :: rest =>
      r ← exec (body callback) (log (Ran callback) st);
      forEachCallback rest r.1
  end.

End Reentrant.

(** [runCleanup].  A pass started inside a pass is the only recursion;
    [fuel] bounds that nesting and [None] means it was too small
    ([runCleanup_total] shows that one unit is always enough). *)
Fixpoint runCleanup (fuel : nat) (st : Machine) : option Machine :=
  if cleanupInProgress st then Some st
  else
    match fuel with
    | 0 => None
    | S fuel' =>
        let st1 := withInProgress true st in
        let callbacks := cleanupCallbacks st1 in
        st2 ← forEachCallback (runCleanup fuel') callbacks st1;
        Some (withInProgress false st2)
    end.

(** Delivery of an event to a process-like object from outside. *)
Definition deliver (fuel : nat) (t : Target) (e : EventName) (st : Machine)
  : option (Machine * Completion) :=
  emit (runCleanup fuel) t e st.

End Handlers.

Definition ensureSandboxProcessCleanupHandlers (targetProcess : Target)
    (st : Machine) : Machine :=
  if decide (targetProcess ∈ registeredProcesses st) then st
  else
    let st1 := withRegistered ({[targetProcess]} ∪ registeredProcesses st) st in
    let st2 := on targetProcess exit (onExit targetProcess) st1 in
    let st3 := on targetProcess (signal SIGINT) (onSigint targetProcess) st2 in
    on targetProcess (signal SIGTERM) (onSigterm targetProcess) st3.

(** A process-like object with no listener yet. *)
Definition newProcess (code : ExitCode) (pid : option JsNumber)
    (kill : option KillImpl) : ProcessLike :=
  {| exitListeners := []; sigintListeners := []; sigtermListeners := [];
     exitCode := code; pid := pid; kill := kill |}.

(** The [MockProcess] of the test suite: no exit code, no pid, no kill. *)
Definition MockProcess : ProcessLike := newProcess Unset None None.

(** The module as loaded, with the given objects in existence. *)
Definition loaded (objects : gmap Target ProcessLike) : Machine :=
  {| cleanupCallbacks := []; registeredProcesses := ∅;
     cleanupInProgress := false; heap := objects; trace := [] |}.

End Utils.

(** ** Plain objects as string-keyed records *)

Module Obj.

(** The properties of an object in creation order.  Every observation
    goes through [ofLiteral], so that a list with a repeated key denotes
    the object a literal with those property definitions creates. *)
Definition Obj (V : Type) := list (JsString * V).

Section Obj.
Context {V : Type}.

(** [o[k] = v]: an existing property keeps its place. *)
Fixpoint set (k : JsString) (v : V) (o : Obj V) : Obj V :=
  match o with
  | [] => [(k, v)]
  | (k', v') :: o' =>
      if str_eqb k' k then (k', v) :: o' else (k', v') :: set k v o'
  end.

Definition setAll (entries : list (JsString * V)) (o : Obj V) : Obj V :=
  fold_left (fun acc kv => set kv.1 kv.2 acc) entries o.

Definition ofLiteral (l : list (JsString * V)) : Obj V := setAll l [].

(** The value of a string of decimal digits. *)
Fixpoint digitsValue (acc : N) (s : JsString) : option N :=
  match s with
  | [] => Some acc
  | c :: s' =>
      if ((48 <=? c) && (c <=? 57))%N
      then digitsValue (acc * 10 + (c - 48))%N s'
      else None
  end.

(** A key is an array index when it is the canonical decimal form of an
    integer below 2^32 - 1. *)
Definition arrayIndex (k : JsString) : option N :=
  match k with
  | [] => None
  | c :: rest =>
      if (c =? 48)%N && negb (falsy rest) then None
      else match digitsValue 0 k with
           | Some n => if (n <=? 4294967294)%N then Some n else None
           | None => None
           end
  end.

Fixpoint insertIndexed (n : N) (kv : JsString * V)
    (l : list (N * (JsString * V))) : list (N * (JsString * V)) :=
  match l with
  | [] => [(n, kv)]
  | (m, kv') :: l' =>
      if (n <? m)%N then (n, kv) :: l
      else (m, kv') :: insertIndexed n kv l'
  end.

Fixpoint indexedEntries (o : Obj V) : list (N * (JsString * V)) :=
  match o with
  | [] => []
  | kv :: o' =>
      match arrayIndex kv.1 with
      | Some n => insertIndexed n kv (indexedEntries o')
      | None => indexedEntries o'
      end
  end.

Definition namedEntries (o : Obj V) : list (JsString * V) :=
  filter (fun kv => arrayIndex kv.1 = None) o.

(** [Object.entries(o)]: array indices in ascending order, then the
    other keys in creation order. *)
Definition Object_entries (o : Obj V) : list (JsString * V) :=
  let o := ofLiteral o in
  map snd (indexedEntries o) ++ namedEntries o.

(** [Object.fromEntries(entries)]. *)
Definition Object_fromEntries (entries : list (JsString * V)) : Obj V :=
  ofLiteral entries.

(** [{ ...a, ...b }]. *)
Definition spread (a b : Obj V) : Obj V :=
  setAll (Object_entries b) (setAll (Object_entries a) []).

End Obj.

End Obj.

(** ** runner.ts *)

Module Runner.

Import Obj.

(** [env] is a [NodeJS.ProcessEnv]: a value may be [undefined]. *)
Record SandboxRunOptions := {
  cwd : JsString;
  command : JsString;
  args : list JsString;
  env : Obj (option JsString)
}.

Record DockerRunSpec := {
  spec_command : JsString;
  spec_args : list JsString;
  containerName : JsString;
  redactedArgs : list JsString;
  cleanup : Utils.Callback
}.

Section Build.

Variable path_resolve : JsString -> JsString.
Variable path_basename : JsString -> JsString.
(** [String(n)] and [`${n}`] on a number. *)
Variable numberToString : JsNumber -> JsString.

(** The merged environment: the string-valued entries of
    [options.env], then [sandbox.env] over them. *)
Definition mergedEnv (sandbox : Config.ResolvedSandboxConfig)
    (options : SandboxRunOptions) : Obj JsString :=
  spread
    (Object_fromEntries
       (omap (fun kv => match kv.2 with
                        | Some value => Some (kv.1, value)
                        | None => None
                        end)
             (Object_entries (env options))))
    (Config.env sandbox).

(** [!key || key.includes('=') || /\0/u.test(key)]. *)
Definition skipped (key : JsString) : bool :=
  falsy key || includes EQUALS key || includes NUL key.

(** The body of the loop over the merged environment. *)
Definition pushEnv (dockerArgs : list JsString) (kv : JsString * JsString)
  : list JsString :=
  if skipped kv.1 then dockerArgs
  else dockerArgs ++ [js "--env"; kv.1 ++ js "=" ++ kv.2].

Definition volumeArg (sandbox : Config.ResolvedSandboxConfig)
    (options : SandboxRunOptions) : JsString :=
  let mountHostPath := path_resolve (cwd options) in
  let mountContainerPath := Config.containerPath (Config.mount sandbox) in
  let mountMode :=
    if Config.readOnly (Config.mount sandbox) then js ":ro" else js ":rw" in
  mountHostPath ++ js ":" ++ mountContainerPath ++ mountMode.

(** The array [dockerArgs] when [buildDockerRunSpec] returns. *)
Definition dockerArgs (containerName : JsString)
    (sandbox : Config.ResolvedSandboxConfig) (options : SandboxRunOptions)
  : list JsString :=
  let dockerArgs :=
    [ js "run";
      js "--rm";
      js "--name";
      containerName;
      js "--user";
      numberToString (Config.uid (Config.user sandbox)) ++ js ":"
        ++ numberToString (Config.gid (Config.user sandbox));
      js "--memory";
      Config.memory (Config.resources sandbox);
      js "--cpus";
      numberToString (Config.cpus (Config.resources sandbox));
      js "--pids-limit";
      numberToString (Config.pidsLimit (Config.resources sandbox));
      js "--network";
      Config.network sandbox;
      js "--volume";
      volumeArg sandbox options;
      js "--workdir";
      Config.workdir sandbox ] in
  let dockerArgs :=
    fold_left pushEnv (Object_entries (mergedEnv sandbox options)) dockerArgs in
  let containerCommand :=
    Config.toContainerCommand path_basename (command options) in
  dockerArgs ++ Config.image sandbox :: containerCommand :: args options.

(** [buildDockerRunSpec]: [random] is what [randomBytes(8)] returns in
    this call and [cleanup] the identity of the closure it creates. *)
Definition buildDockerRunSpec (random : list N) (cleanup : Utils.Callback)
    (sandbox : Config.ResolvedSandboxConfig) (options : SandboxRunOptions)
    (st : Utils.Machine) : DockerRunSpec * Utils.Machine :=
  let containerName :=
    Utils.createSandboxContainerName random
      (Config.containerNamePrefix sandbox) in
  let dockerArgs := dockerArgs containerName sandbox options in
  ({| spec_command := js "docker";
      spec_args := dockerArgs;
      containerName := containerName;
      redactedArgs := Utils.redactDockerArgsForLogging dockerArgs;
      cleanup := cleanup |},
   Utils.registerSandboxCleanupCallback cleanup st).

End Build.

End Runner.

(** ** Concrete platforms and inputs for the examples *)

Module Sample.

(** [path.resolve] restricted to absolute, normalised POSIX paths, which
    it returns unchanged; the examples pass no other path. *)
Definition path_resolve (p : JsString) : JsString := p.

(** [path.basename] restricted to POSIX paths that do not end in a
    slash: what follows the last slash. *)
Fixpoint path_basename (p : JsString) : JsString :=
  match p with
  | [] => []
  | c :: p' => if includes SLASH p' then path_basename p' else
               if unit_eqb c SLASH then p' else p
  end.

Fixpoint digits (fuel : nat) (n : N) (acc : JsString) : JsString :=
  match fuel with
  | 0 => acc
  | S fuel' =>
      let acc := (48 + n mod 10)%N :: acc in
      if (n <? 10)%N then acc else digits fuel' (n / 10)%N acc
  end.

(** [String(n)] restricted to the non-negative integers below 10^21,
    where it is the decimal notation, and to one half; the examples
    convert no other number (elsewhere this function returns the empty
    string). *)
Definition numberToString (n : JsNumber) : JsString :=
  match n with
  | Finite q =>
      if Number_isInteger n && negb (Qle_bool q 0) || is_zero n
      then digits 22 (Z.to_N (Qnum q / Zpos (Qden q))) []
      else if Qeq_bool q (1 # 2) then js "0.5" else []
  | _ => []
  end.

Definition noHost : Config.Host :=
  {| Config.getuid := None; Config.getgid := None |}.

(** [{enabled: true, image: "alpine:3.19", user: {uid, gid}}]. *)
Definition alpine (uid gid : JsNumber) : Config.SandboxConfig :=
  Config.minimalConfig (js "alpine:3.19") {| Config.uid := uid; Config.gid := gid |}.

(** The resolved form of [alpine 1000 1000], with the given environment
    and mount host path. *)
Definition sandbox (env : list (JsString * JsString)) (hostPath : JsString)
  : Config.ResolvedSandboxConfig :=
  {| Config.image := js "alpine:3.19";
     Config.network := js "none";
     Config.resources := Config.DEFAULT_LIMITS;
     Config.user := {| Config.uid := ofZ 1000; Config.gid := ofZ 1000 |};
     Config.mount := {| Config.hostPath := hostPath;
                        Config.containerPath := js "/workspace";
                        Config.readOnly := false |};
     Config.workdir := js "/workspace";
     Config.env := env;
     Config.preflightTimeoutMs := Config.DEFAULT_PREFLIGHT_TIMEOUT_MS;
     Config.pullTimeoutMs := Config.DEFAULT_PULL_TIMEOUT_MS;
     Config.containerNamePrefix := js "accomplish-sandbox" |}.

(** Run options in [/work] with the given command line and environment. *)
Definition options (command : JsString) (args : list JsString)
    (env : list (JsString * option JsString)) : Runner.SandboxRunOptions :=
  {| Runner.cwd := js "/work"; Runner.command := command;
     Runner.args := args; Runner.env := env |}.

(** Eight bytes as [randomBytes(8)] may return them. *)
Definition random1 : list N := [1; 2; 255; 16; 0; 0; 0; 171]%N.

(** The argument vector [buildDockerRunSpec] returns on this platform. *)
Definition build (random : list N) (sandbox : Config.ResolvedSandboxConfig)
    (options : Runner.SandboxRunOptions) : list JsString :=
  Runner.spec_args
    (Runner.buildDockerRunSpec path_resolve path_basename numberToString
       random 0 sandbox options (Utils.loaded ∅)).1.

End Sample.

(** ** Disposal of a built invocation ([runner.ts]) *)

Module Dispose.

Import Js Utils Runner.

Section Dispose.

(** The code of every cleanup closure. *)
Variable body : Callback -> list Action.

(** A direct call [callback()]: unlike in a cleanup pass, an exception
    reaches the caller. *)
Definition invoke (fuel : nat) (callback : Callback) (st : Machine)
  : option (Machine * Completion) :=
  exec (runCleanup body fuel) (body callback) (log (Ran callback) st).

(** [disposeDockerRunSpec]. *)
Definition disposeDockerRunSpec (fuel : nat) (spec : DockerRunSpec)
    (st : Machine) : option (Machine * Completion) :=
  let st1 := unregisterSandboxCleanupCallback (cleanup spec) st in
  invoke fuel (cleanup spec) st1.

End Dispose.

End Dispose.

(** ** Docker commands ([docker.ts]) *)

Module Docker.

Import Js.

(** [s.trim()] removes white space and line terminators, the code units of
    the class [\s], at both ends. *)
Fixpoint trimStart (s : JsString) : JsString :=
  match s with
  | c :: s' => if isWhiteSpace c then trimStart s' else s
  | [] => []
  end.

Definition trimEnd (s : JsString) : JsString := rev (trimStart (rev s)).

Definition trim (s : JsString) : JsString := trimEnd (trimStart s).

Record DockerCommandResult := {
  exitCode : JsNumber;
  stdout : JsString;
  stderr : JsString
}.

(** What the child process of one command and the timer do, in the order
    in which the event loop delivers it: a chunk of bytes on a pipe, the
    ['close'] event (its code is [null] when a signal ended the child), the
    ['error'] event, the expiry of the timer. *)
Inductive ChildEvent :=
| stdoutData (chunk : list N)
| stderrData (chunk : list N)
| close (code : option JsNumber)
| error
| timeout.

(** What the module does to the outside, oldest first. *)
Inductive IO :=
| Spawned (args : list JsString)
| TimerStarted (timeoutMs : JsNumber)
| KillRequested
| Logged (message : JsString).

(** The registry of [utils.ts] and the record of the outside. *)
Record World := {
  machine : Utils.Machine;
  io : list IO
}.

Definition record (e : IO) (w : World) : World :=
  {| machine := machine w; io := io w ++ [e] |}.

Record RunDockerCommandOptions := {
  timeoutMs : JsNumber;
  onProgress : option (JsString -> World -> World)
}.

(** One call of [runDockerCommand]: the two arrays of chunks, whether the
    timer is still set, and the promise ([None] while it is pending). *)
Record Invocation := {
  stdoutChunks : list (list N);
  stderrChunks : list (list N);
  timer : bool;
  promise : option DockerCommandResult;
  world : World
}.

Definition pushStdout (chunk : list N) (i : Invocation) : Invocation :=
  {| stdoutChunks := stdoutChunks i ++ [chunk];
     stderrChunks := stderrChunks i;
     timer := timer i; promise := promise i; world := world i |}.

Definition pushStderr (chunk : list N) (i : Invocation) : Invocation :=
  {| stdoutChunks := stdoutChunks i;
     stderrChunks := stderrChunks i ++ [chunk];
     timer := timer i; promise := promise i; world := world i |}.

Definition withWorld (w : World) (i : Invocation) : Invocation :=
  {| stdoutChunks := stdoutChunks i; stderrChunks := stderrChunks i;
     timer := timer i; promise := promise i; world := w |}.

Definition clearTimeout (i : Invocation) : Invocation :=
  {| stdoutChunks := stdoutChunks i; stderrChunks := stderrChunks i;
     timer := false; promise := promise i; world := world i |}.

(** [resolve(result)]: a promise is settled once. *)
Definition resolve (result : DockerCommandResult) (i : Invocation)
  : Invocation :=
  match promise i with
  | Some _ => i
  | None =>
      {| stdoutChunks := stdoutChunks i; stderrChunks := stderrChunks i;
         timer := timer i; promise := Some result; world := world i |}
  end.

Section Run.

(** [buffer.toString('utf-8')]. *)
Variable decode : list N -> JsString.

(** The Docker client and daemon: what the child spawned with the given
    arguments emits. *)
Variable spawn : list JsString -> list ChildEvent.

(** [options.onProgress?.(chunk.toString('utf-8'))]. *)
Definition progress (options : RunDockerCommandOptions) (chunk : list N)
    (i : Invocation) : Invocation :=
  match onProgress options with
  | Some callback => withWorld (callback (decode chunk) (world i)) i
  | None => i
  end.

(** The listeners and the timer callback of [runDockerCommand]. *)
Definition handle (options : RunDockerCommandOptions) (i : Invocation)
    (ev : ChildEvent) : Invocation :=
  match ev with
  | stdoutData chunk => progress options chunk (pushStdout chunk i)
  | stderrData chunk => progress options chunk (pushStderr chunk i)
  | close code =>
      let i1 := clearTimeout i in
      resolve
        {| exitCode := match code with Some n => n | None => ofZ 1 end;
           stdout := decode (concat (stdoutChunks i1));
           stderr := decode (concat (stderrChunks i1)) |}
        i1
  | error =>
      let i1 := clearTimeout i in
      resolve
        {| exitCode := ofZ 1;
           stdout := [];
           stderr := js "Failed to start docker command" |}
        i1
  | timeout =>
      if timer i
      then withWorld (record KillRequested (world i)) (clearTimeout i)
      else i
  end.

(** [runDockerCommand]: the state of the call once the child is done. *)
Definition runDockerCommand (args : list JsString)
    (options : RunDockerCommandOptions) (w : World) : Invocation :=
  let w1 := record (Spawned args) w in
  let w2 := record (TimerStarted (timeoutMs options)) w1 in
  fold_left (handle options) (spawn args)
    {| stdoutChunks := []; stderrChunks := []; timer := true;
       promise := None; world := w2 |}.

(** [dockerImageExists]: [None] when the promise stays pending. *)
Definition dockerImageExists (image : JsString) (timeoutMs : JsNumber)
    (w : World) : option bool * World :=
  let i :=
    runDockerCommand [js "images"; js "-q"; image]
      {| timeoutMs := timeoutMs; onProgress := None |} w in
  (result ← promise i;
   Some (is_zero (exitCode result)
         && Nat.ltb 0 (length (trim (stdout result)))),
   world i).

Inductive Error :=
| PullFailed (message : JsString).

(** [dockerPullImage]: pending, rejected or fulfilled. *)
Definition dockerPullImage (image : JsString) (timeoutMs : JsNumber)
    (onProgress : option (JsString -> World -> World)) (w : World)
  : option (Error + unit) * World :=
  let i :=
    runDockerCommand [js "pull"; image]
      {| timeoutMs := timeoutMs; onProgress := onProgress |} w in
  (result ← promise i;
   Some (if negb (is_zero (exitCode result))
         then inl (PullFailed
                     (js "docker pull failed for " ++ image ++ js ": "
                      ++ (if falsy (stderr result) then stdout result
                          else stderr result)))
         else inr tt),
   world i).

End Run.

End Docker.

(** ** Preparation of the sandbox ([runner.ts]) *)

Module Prepare.

Import Js Docker.

Inductive Rejection :=
| InvalidConfig (e : Config.Error)
| DockerFailed (e : Docker.Error).

Section Prepare.

Variable path_resolve : JsString -> JsString.
Variable decode : list N -> JsString.
Variable spawn : list JsString -> list ChildEvent.
(** The identity of the host user and the global [process] object. *)
Variable host : Config.Host.
Variable process : Utils.Target.

(** [log?.(message)]: [log] tells whether a logger was passed; its calls
    are recorded. *)
Definition logMessage (log : bool) (message : JsString) (w : World) : World :=
  if log then record (Logged message) w else w.

(** The progress callback passed to [dockerPullImage]. *)
Definition onPullProgress (log : bool) (chunk : JsString) (w : World)
  : World :=
  let cleaned := trim chunk in
  if falsy cleaned then w
  else logMessage log (js "[Sandbox] " ++ cleaned) w.

(** [prepareDockerSandbox]: the promise it returns ([None] while pending)
    and the world once it has settled or come to a halt. *)
Definition prepareDockerSandbox (config : Config.SandboxConfig) (log : bool)
    (w : World) : option (Rejection + Config.ResolvedSandboxConfig) * World :=
  match Config.resolveSandboxConfig path_resolve host config with
  | inl e => (Some (inl (InvalidConfig e)), w)
  | inr resolved =>
      let w1 :=
        {| machine :=
             Utils.ensureSandboxProcessCleanupHandlers process (machine w);
           io := io w |} in
      let w2 :=
        logMessage log
          (js "[Sandbox] Checking Docker image: " ++ Config.image resolved)
          w1 in
      let '(exists_, w3) :=
        dockerImageExists decode spawn (Config.image resolved)
          (Config.preflightTimeoutMs resolved) w2 in
      match exists_ with
      | None => (None, w3)
      | Some true => (Some (inr resolved), w3)
      | Some false =>
          let w4 :=
            logMessage log
              (js "[Sandbox] Image missing; pulling: "
               ++ Config.image resolved)
              w3 in
          let '(pulled, w5) :=
            dockerPullImage decode spawn (Config.image resolved)
              (Config.pullTimeoutMs resolved)
              (Some (onPullProgress log)) w4 in
          match pulled with
          | None => (None, w5)
          | Some (inl e) => (Some (inl (DockerFailed e)), w5)
          | Some (inr _) => (Some (inr resolved), w5)
          end
      end
  end.

End Prepare.

End Prepare.

(** * Properties *)

(** ** Configuration resolution *)

Module ConfigProps.

Import Config.

Lemma bind_ok {A B} (a : A) (k : A -> Result B) : bind (ok a) k = k a.
Proof. reflexivity. Qed.

(** With an explicit mapping the host is not a free variable of the
    result. *)
Lemma resolve_explicit_user_any_host path_resolve config u host1 host2 :
  c_user config = Some u ->
  resolveSandboxConfig path_resolve host1 config
  = resolveSandboxConfig path_resolve host2 config.
Proof.
  intros Hu. unfold resolveSandboxConfig. rewrite Hu. reflexivity.
Qed.

(** The errors the user check can produce. *)
Lemma validateUserMapping_zero_uid u :
  is_zero (uid u) = true ->
  validateUserMapping u
  = if Number_isInteger (gid u) then throw UserNotPositive
    else throw UserNotIntegers.
Proof.
  unfold validateUserMapping. destruct u as [[| |q] g]; simpl; try discriminate.
  intros Hz.
  assert (Hint : (Qnum q mod Z.pos (Qden q) =? 0)%Z = true).
  { apply Qeq_bool_iff in Hz. unfold Qeq in Hz. simpl in Hz.
    assert (Qnum q = 0%Z) as -> by lia. reflexivity. }
  assert (Hle : Qle_bool q 0 = true).
  { apply Qle_bool_iff. apply Qeq_bool_iff in Hz. rewrite Hz. apply Qle_refl. }
  rewrite Hint, Hle. simpl. destruct (Number_isInteger g); reflexivity.
Qed.

(** C9. Resolving [{enabled: true, image: "alpine:3.19", user: {uid: 1000,
    gid: 1000}}] succeeds on every host; the result has network mode
    [none] (the isolated mode of the specification), the default memory
    limit [512m], the default CPU share [0.5], the default process-count
    limit [50] and the user mapping [{1000, 1000}]. *)
Theorem resolve_alpine_defaults path_resolve host :
  exists r,
    resolveSandboxConfig path_resolve host (Sample.alpine (ofZ 1000) (ofZ 1000))
    = inr r
    /\ network r = js "none"
    /\ resources r = DEFAULT_LIMITS
    /\ memory (resources r) = js "512m"
    /\ cpus (resources r) = Finite (1 # 2)
    /\ pidsLimit (resources r) = ofZ 50
    /\ user r = {| uid := ofZ 1000; gid := ofZ 1000 |}.
Proof.
  eexists. split; [reflexivity |]. repeat split.
Qed.

(** C5 (as amended). With an explicit user mapping, resolution gives the
    same result on every host and never reports an identity-lookup
    failure; if the mapping has uid 0 it always fails, and the failure is
    the root rejection whenever the configuration is enabled, its image
    reference is valid and gid is an integer. *)
Theorem explicit_user_gate path_resolve config u :
  c_user config = Some u ->
  (forall host1 host2,
      resolveSandboxConfig path_resolve host1 config
      = resolveSandboxConfig path_resolve host2 config)
  /\ (forall host,
         resolveSandboxConfig path_resolve host config <> inl IdentityUnavailable
         /\ resolveSandboxConfig path_resolve host config <> inl HostUserIsRoot)
  /\ (is_zero (uid u) = true ->
      forall host, exists e,
        resolveSandboxConfig path_resolve host config = inl e
        /\ (c_enabled config = true ->
            validateDockerImageName (c_image config) = ok tt ->
            Number_isInteger (gid u) = true ->
            e = UserNotPositive)).
Proof.
  intros Hu. split; [| split].
  - intros. by apply resolve_explicit_user_any_host with u.
  - intros host. unfold resolveSandboxConfig. rewrite Hu.
    unfold validateDockerImageName, validateUserMapping,
      validateResourceLimits, validateContainerNamePrefix.
    repeat match goal with
           | |- context [bind (if ?b then _ else _) _] => destruct b; simpl
           | |- context [bind (ok _) _] => rewrite bind_ok
           end;
      split; discriminate.
  - intros Hz host. unfold resolveSandboxConfig. rewrite Hu.
    destruct (c_enabled config); simpl; [| eexists; split; [reflexivity | discriminate]].
    destruct (validateDockerImageName (c_image config)) as [e | []]; simpl;
      [eexists; split; [reflexivity | discriminate] |].
    rewrite (validateUserMapping_zero_uid _ Hz).
    destruct (Number_isInteger (gid u)); simpl;
      (eexists; split; [reflexivity |]); [reflexivity | discriminate].
Qed.

(** The scenario of the specification: [{uid: 0, gid: 1000}] on the
    alpine configuration is rejected as root, whatever the host. *)
Lemma explicit_user_gate_witness :
  (resolveSandboxConfig Sample.path_resolve Sample.noHost
     (Sample.alpine (ofZ 0) (ofZ 1000))
   = resolveSandboxConfig Sample.path_resolve
       {| getuid := Some (ofZ 0); getgid := Some (ofZ 0) |}
       (Sample.alpine (ofZ 0) (ofZ 1000)))
  /\ exists e,
      resolveSandboxConfig Sample.path_resolve Sample.noHost
        (Sample.alpine (ofZ 0) (ofZ 1000)) = inl e
      /\ e = UserNotPositive.
Proof.
  destruct (explicit_user_gate Sample.path_resolve
              (Sample.alpine (ofZ 0) (ofZ 1000))
              {| uid := ofZ 0; gid := ofZ 1000 |} eq_refl)
    as (Hsame & _ & Hzero).
  split; [apply Hsame |].
  destruct (Hzero eq_refl Sample.noHost) as (e & He & Hroot).
  exists e. split; [exact He |]. apply Hroot; reflexivity.
Defined.

(** C5 (as stated) fails: with uid 0, a fractional gid is reported as a
    non-integer mapping, and a disabled configuration as disabled; neither
    error is the root rejection. *)
Lemma uid_zero_other_errors :
  resolveSandboxConfig Sample.path_resolve Sample.noHost
    (Sample.alpine (ofZ 0) (Finite (1 # 2))) = inl UserNotIntegers
  /\ resolveSandboxConfig Sample.path_resolve Sample.noHost
       {| c_enabled := false; c_image := js "alpine:3.19"; c_network := None;
          c_resources := None;
          c_user := Some {| uid := ofZ 0; gid := ofZ 1000 |};
          c_mount := None; c_workdir := None; c_env := None;
          c_preflightTimeoutMs := None; c_pullTimeoutMs := None;
          c_containerNamePrefix := None |} = inl SandboxDisabled.
Proof. split; reflexivity. Qed.

End ConfigProps.


(** ** Redaction of argument vectors *)

Module RedactionProps.

Import Utils.

(** The loop of [redactDockerArgsForLogging] read as a scan of the unread
    part of the vector. *)
Fixpoint redactScan (args : list JsString) : list JsString :=
  match args with
  | [] => []
  | arg :: rest =>
      if str_eqb arg ENV_FLAG then
        match rest with
        | next :: rest' => arg :: (keyOf next ++ REDACTED) :: redactScan rest'
        | [] => [arg; arg]
        end
      else arg :: redactScan rest
  end.

(** The positions of [args] that the scan of [redactDockerArgsForLogging]
    reads as the value of a marker: a position is one when the position
    before it holds [--env] and is not itself such a value. *)
Fixpoint valueMask (args : list JsString) : list bool :=
  match args with
  | [] => []
  | arg :: rest =>
      if str_eqb arg ENV_FLAG then
        match rest with
        | _ :: rest' => false :: true :: valueMask rest'
        | [] => [false]
        end
      else false :: valueMask rest
  end.

(** The scan ends on a marker that has no value after it. *)
Fixpoint dangling (args : list JsString) : bool :=
  match args with
  | [] => false
  | arg :: rest =>
      if str_eqb arg ENV_FLAG then
        match rest with
        | _ :: rest' => dangling rest'
        | [] => true
        end
      else dangling rest
  end.

(** What the redacted vector holds at a position of [args]. *)
Definition redactedToken (isValue : bool) (tok : JsString) : JsString :=
  if isValue then keyOf tok ++ REDACTED else tok.

Lemma str_eqb_eq a b : str_eqb a b = true <-> a = b.
Proof.
  revert b. induction a as [|x a IH]; intros [|y b]; simpl; try easy.
  unfold unit_eqb. rewrite andb_true_iff, N.eqb_eq, IH.
  split; [intros [-> ->]; reflexivity | intros [= -> ->]; auto].
Qed.

Lemma str_eqb_refl a : str_eqb a a = true.
Proof. by apply str_eqb_eq. Qed.

Lemma str_eqb_neq a b : str_eqb a b = false <-> a <> b.
Proof.
  rewrite <- str_eqb_eq. destruct (str_eqb a b); split; congruence.
Qed.

(** Induction along the scan: an ordinary token, a marker at the end, a
    marker with its value. *)
Lemma scan_ind (P : list JsString -> Prop) :
  P [] ->
  (forall arg rest, str_eqb arg ENV_FLAG = false -> P rest -> P (arg :: rest)) ->
  P [ENV_FLAG] ->
  (forall next rest, P rest -> P (ENV_FLAG :: next :: rest)) ->
  forall args, P args.
Proof.
  intros Hnil Hother Hlast Hpair args.
  assert (H : P args /\ forall a, P (a :: args)); [| tauto].
  induction args as [|b args [IH1 IH2]].
  - split; [assumption |]. intros a.
    destruct (str_eqb a ENV_FLAG) eqn:E.
    + apply str_eqb_eq in E as ->. assumption.
    + by apply Hother.
  - split; [apply IH2 |]. intros a.
    destruct (str_eqb a ENV_FLAG) eqn:E.
    + apply str_eqb_eq in E as ->. by apply Hpair.
    + apply Hother; [assumption | apply IH2].
Qed.

Lemma unit_eqb_sym a b : unit_eqb a b = unit_eqb b a.
Proof. apply N.eqb_sym. Qed.

Lemma unit_eqb_refl a : unit_eqb a a = true.
Proof. apply N.eqb_refl. Qed.

Lemma indexOf_None c s : indexOf c s = None <-> includes c s = false.
Proof.
  unfold includes. induction s as [|x s IH]; simpl; [easy |].
  rewrite (unit_eqb_sym c x).
  destruct (unit_eqb x c); simpl; [easy |].
  destruct (indexOf c s); simpl in *; [| exact IH].
  split; [discriminate |]. intros H. apply IH in H. discriminate.
Qed.

Lemma indexOf_app_hit c k rest :
  includes c k = false -> indexOf c (k ++ c :: rest) = Some (length k).
Proof.
  unfold includes. induction k as [|x k IH]; simpl.
  - by rewrite unit_eqb_refl.
  - rewrite (unit_eqb_sym c x).
    destruct (unit_eqb x c); simpl; [easy |].
    intros H. by rewrite (IH H).
Qed.

(** The key of [key=value] is [key] when [key] has no [=]. *)
Lemma keyOf_pair k v :
  includes EQUALS k = false -> keyOf (k ++ js "=" ++ v) = k.
Proof.
  intros H. unfold keyOf. change (js "=" ++ v) with (EQUALS :: v).
  rewrite (indexOf_app_hit _ _ _ H). unfold slice0.
  by rewrite take_app_length.
Qed.

Lemma indexOf_take c s i :
  indexOf c s = Some i -> includes c (take i s) = false.
Proof.
  unfold includes. revert i. induction s as [|x s IH]; intros i; simpl; [easy |].
  destruct (unit_eqb x c) eqn:E.
  - by intros [= <-].
  - destruct (indexOf c s) as [j|]; [| easy]. intros [= <-]. simpl.
    rewrite unit_eqb_sym, E. simpl. by apply IH.
Qed.

Lemma keyOf_no_equals tok : includes EQUALS (keyOf tok) = false.
Proof.
  unfold keyOf. destruct (indexOf EQUALS tok) as [i|] eqn:E.
  - by apply indexOf_take.
  - by apply indexOf_None.
Qed.

Lemma keyOf_redacted tok : keyOf (keyOf tok ++ REDACTED) = keyOf tok.
Proof.
  change REDACTED with (js "=" ++ js "<redacted>").
  apply keyOf_pair, keyOf_no_equals.
Qed.

Lemma redactLoop_scan fuel index args redacted :
  length args <= index + fuel ->
  redactLoop fuel index args redacted
  = redacted ++ redactScan (drop index args).
Proof.
  revert index redacted. induction fuel as [|fuel IH]; intros index redacted Hlen.
  - simpl. rewrite drop_ge by lia. by rewrite app_nil_r.
  - simpl. destruct (args !! index) as [arg|] eqn:Harg.
    + rewrite (drop_S _ _ _ Harg). simpl.
      destruct (str_eqb arg ENV_FLAG).
      * replace (index + 1) with (S index) by lia.
        destruct (args !! S index) as [next|] eqn:Hnext.
        -- rewrite (drop_S _ _ _ Hnext), IH by lia.
           replace (S index + 1) with (S (S index)) by lia.
           by rewrite <- !app_assoc.
        -- rewrite IH by lia. apply lookup_ge_None in Hnext.
           rewrite drop_ge by lia. by rewrite <- !app_assoc.
      * rewrite IH by lia. replace (index + 1) with (S index) by lia.
        by rewrite <- app_assoc.
    + apply lookup_ge_None in Harg. rewrite drop_ge by lia.
      by rewrite app_nil_r.
Qed.

(** The loop computes the scan. *)
Lemma redact_scan args : redactDockerArgsForLogging args = redactScan args.
Proof.
  unfold redactDockerArgsForLogging. by rewrite redactLoop_scan.
Qed.


Lemma redact_lookup args i tok :
  dangling args = false ->
  args !! i = Some tok ->
  redactScan args !! i
  = Some (redactedToken (default false (valueMask args !! i)) tok).
Proof.
  revert i. induction args using scan_ind; intros i; simpl; intros Hd Hi.
  - discriminate.
  - rewrite H in *. destruct i as [|i]; simpl in *.
    + by injection Hi as ->.
    + by apply IHargs.
  - discriminate.
  - destruct i as [|[|i]]; simpl in *.
    + by injection Hi as <-.
    + by injection Hi as <-.
    + by apply IHargs.
Qed.

Lemma redact_idempotent args :
  dangling args = false ->
  redactScan (redactScan args)
  = redactScan args.
Proof.
  induction args using scan_ind; simpl; intros Hd.
  - reflexivity.
  - rewrite H in *. simpl. rewrite H. f_equal. auto.
  - discriminate.
  - simpl. rewrite keyOf_redacted. do 2 f_equal. auto.
Qed.



Lemma valueMask_length args : length (valueMask args) = length args.
Proof.
  induction args using scan_ind; simpl; try done.
  - rewrite H. simpl. by f_equal.
  - by do 2 f_equal.
Qed.






End RedactionProps.


(** ** The invocation builder *)

Module RunnerProps.

Import Obj Runner.

(** The flag pair of one environment entry. *)
Definition envFlag (kv : JsString * JsString) : list JsString :=
  [js "--env"; kv.1 ++ js "=" ++ kv.2].

(** The entries the loop does not skip. *)
Definition kept (entries : list (JsString * JsString))
  : list (JsString * JsString) :=
  filter (fun kv => skipped kv.1 = false) entries.

(** The tokens before the environment flags. *)
Definition fixedArgs (numberToString : JsNumber -> JsString)
    (containerName volume : JsString) (sandbox : Config.ResolvedSandboxConfig)
  : list JsString :=
  [ js "run"; js "--rm";
    js "--name"; containerName;
    js "--user";
    numberToString (Config.uid (Config.user sandbox)) ++ js ":"
      ++ numberToString (Config.gid (Config.user sandbox));
    js "--memory"; Config.memory (Config.resources sandbox);
    js "--cpus"; numberToString (Config.cpus (Config.resources sandbox));
    js "--pids-limit"; numberToString (Config.pidsLimit (Config.resources sandbox));
    js "--network"; Config.network sandbox;
    js "--volume"; volume;
    js "--workdir"; Config.workdir sandbox ].

(** The same configuration with another [mount.hostPath]. *)
Definition withMountHostPath (hostPath : JsString)
    (sandbox : Config.ResolvedSandboxConfig) : Config.ResolvedSandboxConfig :=
  {| Config.image := Config.image sandbox;
     Config.network := Config.network sandbox;
     Config.resources := Config.resources sandbox;
     Config.user := Config.user sandbox;
     Config.mount :=
       {| Config.hostPath := hostPath;
          Config.containerPath := Config.containerPath (Config.mount sandbox);
          Config.readOnly := Config.readOnly (Config.mount sandbox) |};
     Config.workdir := Config.workdir sandbox;
     Config.env := Config.env sandbox;
     Config.preflightTimeoutMs := Config.preflightTimeoutMs sandbox;
     Config.pullTimeoutMs := Config.pullTimeoutMs sandbox;
     Config.containerNamePrefix := Config.containerNamePrefix sandbox |}.

Lemma pushEnv_fold entries acc :
  fold_left pushEnv entries acc = acc ++ flat_map envFlag (kept entries).
Proof.
  revert acc. induction entries as [|kv entries IH]; intros acc; simpl.
  - by rewrite app_nil_r.
  - rewrite IH. unfold pushEnv, kept. rewrite filter_cons.
    destruct (skipped kv.1) eqn:E.
    + rewrite decide_False by discriminate. reflexivity.
    + rewrite decide_True by reflexivity. simpl.
      rewrite <- app_assoc. reflexivity.
Qed.

Lemma kept_spec entries k v :
  (k, v) ∈ kept entries
  <-> (k, v) ∈ entries /\ k <> [] /\ includes EQUALS k = false
      /\ includes NUL k = false.
Proof.
  unfold kept. rewrite list_elem_of_filter. unfold skipped. simpl.
  destruct k as [|c k]; simpl.
  - split; [intros [[=] _] | intros (_ & Hk & _); contradiction].
  - rewrite orb_false_iff. split.
    + intros [[He Hn] Hin]. repeat split; auto.
    + intros (Hin & _ & He & Hn). auto.
Qed.

Section Platform.

Variable path_resolve : JsString -> JsString.
Variable path_basename : JsString -> JsString.
Variable numberToString : JsNumber -> JsString.

(** The shape of every built vector. *)
Lemma dockerArgs_shape name sandbox options :
  dockerArgs path_resolve path_basename numberToString name sandbox options
  = fixedArgs numberToString name (volumeArg path_resolve sandbox options) sandbox
    ++ flat_map envFlag (kept (Object_entries (mergedEnv sandbox options)))
    ++ Config.image sandbox
       :: Config.toContainerCommand path_basename (command options)
       :: args options.
Proof.
  unfold dockerArgs. rewrite pushEnv_fold. rewrite <- app_assoc. reflexivity.
Qed.

(** C4 (as amended). The built vector is, in this order: the [run]
    subcommand, the remove-on-exit flag, the generated name, the user mapping
    as [uid:gid], the memory limit, the CPU share, the process-count limit,
    the network mode, one volume mount (the host working directory resolved
    to an absolute path, the configured container path, [:ro] or [:rw]), the
    working directory, then one [--env key=value] pair for each entry of the
    merged environment that the loop does not skip, in the order of the
    entries, then the image, the container-side command (the base name of
    the host command when it contains a slash or a backslash) and the
    arguments as given. *)
Theorem buildDockerRunSpec_args random cleanup sandbox options st :
  let spec :=
    (buildDockerRunSpec path_resolve path_basename numberToString
       random cleanup sandbox options st).1 in
  containerName spec
  = Config.containerNamePrefix sandbox ++ js "-" ++ Utils.toHex random
  /\ spec_args spec
     = [ js "run"; js "--rm";
         js "--name"; containerName spec;
         js "--user";
         numberToString (Config.uid (Config.user sandbox)) ++ js ":"
           ++ numberToString (Config.gid (Config.user sandbox));
         js "--memory"; Config.memory (Config.resources sandbox);
         js "--cpus"; numberToString (Config.cpus (Config.resources sandbox));
         js "--pids-limit";
         numberToString (Config.pidsLimit (Config.resources sandbox));
         js "--network"; Config.network sandbox;
         js "--volume";
         path_resolve (cwd options) ++ js ":"
           ++ Config.containerPath (Config.mount sandbox)
           ++ (if Config.readOnly (Config.mount sandbox)
               then js ":ro" else js ":rw");
         js "--workdir"; Config.workdir sandbox ]
       ++ flat_map (fun kv => [js "--env"; kv.1 ++ js "=" ++ kv.2])
            (filter (fun kv => skipped kv.1 = false)
               (Object_entries (mergedEnv sandbox options)))
       ++ [ Config.image sandbox;
            if includes SLASH (command options)
               || includes BACKSLASH (command options)
            then path_basename (command options) else command options ]
       ++ args options.
Proof.
  intros spec. split; [reflexivity |].
  unfold spec. simpl. apply dockerArgs_shape.
Qed.

(** C6. The environment flags of a built vector are exactly the pairs of
    the merged entries whose key is non-empty and contains neither [=] nor
    NUL: the vector is eighteen fixed tokens, the flag pairs of those
    entries, the image, the command and the arguments; an entry whose key is
    empty, contains [=] or contains NUL is not among the flagged ones; and
    the text before the first [=] of every flag token is the key of the
    entry it was made from. *)
Theorem env_flags_only_for_valid_keys random cleanup sandbox options st :
  let v :=
    spec_args (buildDockerRunSpec path_resolve path_basename numberToString
                 random cleanup sandbox options st).1 in
  let merged := Object_entries (mergedEnv sandbox options) in
  exists fixed flagged,
    length fixed = 18
    /\ v = fixed
           ++ flat_map (fun kv => [js "--env"; kv.1 ++ js "=" ++ kv.2]) flagged
           ++ Config.image sandbox
              :: Config.toContainerCommand path_basename (command options)
              :: args options
    /\ flagged `sublist_of` merged
    /\ (forall key value,
           (key, value) ∈ flagged
           <-> (key, value) ∈ merged /\ key <> [] /\ includes EQUALS key = false
               /\ includes NUL key = false)
    /\ (forall key value,
           (key, value) ∈ merged ->
           key = [] \/ includes EQUALS key = true \/ includes NUL key = true ->
           (key, value) ∉ flagged)
    /\ (forall key value,
           (key, value) ∈ flagged ->
           Utils.keyOf (key ++ js "=" ++ value) = key).
Proof.
  intros v merged.
  exists (fixedArgs numberToString
            (Utils.createSandboxContainerName random
               (Config.containerNamePrefix sandbox))
            (volumeArg path_resolve sandbox options) sandbox),
         (kept merged).
  split; [reflexivity |]. split; [apply dockerArgs_shape |].
  split; [apply sublist_filter |]. split; [intros; apply kept_spec |]. split.
  - intros key value _ Hbad Hin. apply kept_spec in Hin as (_ & Hne & He & Hn).
    destruct Hbad as [-> | [Hb | Hb]]; congruence.
  - intros key value Hin. apply kept_spec in Hin as (_ & _ & He & _).
    by apply RedactionProps.keyOf_pair.
Qed.

(** C10. The built specification does not depend on [mount.hostPath] of
    the resolved configuration: replacing that field by any other string
    leaves the specification unchanged, and the volume token is made of the
    resolved working directory of the run options, the container path and
    the mode. *)
Theorem mount_hostPath_is_ignored random cleanup sandbox options st hostPath :
  let spec :=
    (buildDockerRunSpec path_resolve path_basename numberToString
       random cleanup sandbox options st).1 in
  (buildDockerRunSpec path_resolve path_basename numberToString
     random cleanup (withMountHostPath hostPath sandbox) options st).1 = spec
  /\ spec_args spec !! 14 = Some (js "--volume")
  /\ spec_args spec !! 15
     = Some (path_resolve (cwd options) ++ js ":"
             ++ Config.containerPath (Config.mount sandbox)
             ++ (if Config.readOnly (Config.mount sandbox)
                 then js ":ro" else js ":rw")).
Proof.
  intros spec. split; [reflexivity |].
  unfold spec. simpl. rewrite dockerArgs_shape. split; reflexivity.
Qed.

End Platform.

(** C8 (as amended). [path.resolve] reads the current directory of the
    process when the path is relative, so each build has its own: [resolve1]
    and [resolve2].  Two builds from the same resolved configuration and run
    options give vectors that agree everywhere except at the generated name
    (the prefix, a hyphen and the hexadecimal form of the random bytes of
    each build) and at the volume token; the volume tokens agree exactly when
    [path.resolve] gives the same path for [options.cwd] in both builds, and
    then the vectors agree everywhere except at the name. *)
Theorem build_twice_differs_only_in_name
    resolve1 resolve2 path_basename numberToString
    random1 random2 cleanup1 cleanup2 sandbox options st1 st2 :
  let spec1 :=
    (buildDockerRunSpec resolve1 path_basename numberToString
       random1 cleanup1 sandbox options st1).1 in
  let spec2 :=
    (buildDockerRunSpec resolve2 path_basename numberToString
       random2 cleanup2 sandbox options st2).1 in
  exists before volume1 volume2 after,
    spec_args spec1
    = [js "run"; js "--rm"; js "--name"; containerName spec1]
      ++ before ++ [js "--volume"; volume1] ++ after
    /\ spec_args spec2
       = [js "run"; js "--rm"; js "--name"; containerName spec2]
         ++ before ++ [js "--volume"; volume2] ++ after
    /\ length before = 10
    /\ containerName spec1
       = Config.containerNamePrefix sandbox ++ js "-" ++ Utils.toHex random1
    /\ containerName spec2
       = Config.containerNamePrefix sandbox ++ js "-" ++ Utils.toHex random2
    /\ volume1 = volumeArg resolve1 sandbox options
    /\ volume2 = volumeArg resolve2 sandbox options
    /\ (volume1 = volume2 <-> resolve1 (cwd options) = resolve2 (cwd options))
    /\ (resolve1 (cwd options) = resolve2 (cwd options) ->
        exists rest,
          spec_args spec1
          = [js "run"; js "--rm"; js "--name"; containerName spec1] ++ rest
          /\ spec_args spec2
             = [js "run"; js "--rm"; js "--name"; containerName spec2] ++ rest).
Proof.
  intros spec1 spec2. unfold spec1, spec2. cbn [fst spec_args containerName
    buildDockerRunSpec].
  rewrite !dockerArgs_shape. unfold fixedArgs.
  assert (Hvol : volumeArg resolve1 sandbox options
                 = volumeArg resolve2 sandbox options
                 <-> resolve1 (cwd options) = resolve2 (cwd options)).
  { unfold volumeArg. split.
    - intros H. by apply app_inv_tail in H.
    - by intros ->. }
  exists
    [ js "--user";
      numberToString (Config.uid (Config.user sandbox)) ++ js ":"
        ++ numberToString (Config.gid (Config.user sandbox));
      js "--memory"; Config.memory (Config.resources sandbox);
      js "--cpus"; numberToString (Config.cpus (Config.resources sandbox));
      js "--pids-limit";
      numberToString (Config.pidsLimit (Config.resources sandbox));
      js "--network"; Config.network sandbox ],
    (volumeArg resolve1 sandbox options),
    (volumeArg resolve2 sandbox options),
    ([js "--workdir"; Config.workdir sandbox]
     ++ flat_map envFlag (kept (Object_entries (mergedEnv sandbox options)))
     ++ Config.image sandbox
        :: Config.toContainerCommand path_basename (command options)
        :: args options).
  split; [reflexivity |]. split; [reflexivity |].
  split; [reflexivity |]. split; [reflexivity |]. split; [reflexivity |].
  split; [reflexivity |]. split; [reflexivity |]. split; [exact Hvol |].
  intros Heq. apply Hvol in Heq. rewrite Heq.
  eexists. split; reflexivity.
Qed.

(** C4 (as stated) fails: a merged environment with one entry, whose key
    is empty, yields a vector with no environment flag. *)
Lemma skipped_entry_has_no_flag :
  let sandbox := Sample.sandbox [(js "", js "x")] [] in
  let options := Sample.options (js "/usr/bin/sh") [js "-c"] [] in
  Object_entries (mergedEnv sandbox options) = [(js "", js "x")]
  /\ Sample.build Sample.random1 sandbox options
     = [ js "run"; js "--rm"; js "--name";
         js "accomplish-sandbox-0102ff10000000ab";
         js "--user"; js "1000:1000"; js "--memory"; js "512m";
         js "--cpus"; js "0.5"; js "--pids-limit"; js "50";
         js "--network"; js "none"; js "--volume"; js "/work:/workspace:rw";
         js "--workdir"; js "/workspace";
         js "alpine:3.19"; js "sh"; js "-c" ].
Proof. split; reflexivity. Qed.

(** [path.resolve] on POSIX in a process whose current directory is
    [current], restricted to normalised paths without a [.] or [..] segment
    and to a current directory other than the root: an absolute path is
    returned unchanged, a relative one is put behind the current
    directory. *)
Definition resolveIn (current p : JsString) : JsString :=
  if startsWith SLASH p then p else current ++ js "/" ++ p.

(** Two builds with the absolute working directory [/work], in processes
    whose current directories differ. *)
Lemma build_twice_differs_only_in_name_witness :
  let sandbox := Sample.sandbox [] [] in
  let options := Sample.options (js "ls") [] [] in
  let spec current random :=
    (buildDockerRunSpec (resolveIn current) Sample.path_basename
       Sample.numberToString random 0 sandbox options (Utils.loaded ∅)).1 in
  let spec1 := spec (js "/a") Sample.random1 in
  let spec2 := spec (js "/b") [0; 0; 0; 0; 0; 0; 0; 1]%N in
  resolveIn (js "/a") (cwd options) = resolveIn (js "/b") (cwd options)
  /\ exists rest,
      spec_args spec1
      = [js "run"; js "--rm"; js "--name"; containerName spec1] ++ rest
      /\ spec_args spec2
         = [js "run"; js "--rm"; js "--name"; containerName spec2] ++ rest.
Proof.
  split; [reflexivity |].
  destruct (build_twice_differs_only_in_name
              (resolveIn (js "/a")) (resolveIn (js "/b"))
              Sample.path_basename Sample.numberToString
              Sample.random1 [0; 0; 0; 0; 0; 0; 0; 1]%N 0 0
              (Sample.sandbox [] []) (Sample.options (js "ls") [] [])
              (Utils.loaded ∅) (Utils.loaded ∅))
    as (before & volume1 & volume2 & after & _ & _ & _ & _ & _ & _ & _ & _
        & Hsame).
  exact (Hsame eq_refl).
Defined.

(** C8 (as stated) fails: with the relative working directory [work], two
    builds from the same configuration and options, and even the same random
    bytes, differ at the volume token when the current directory of the
    process has changed from [/a] to [/b] between them. *)
Lemma relative_cwd_changes_the_volume :
  let sandbox := Sample.sandbox [] [] in
  let options :=
    {| cwd := js "work"; command := js "ls"; args := []; env := [] |} in
  let build current :=
    spec_args
      (buildDockerRunSpec (resolveIn current) Sample.path_basename
         Sample.numberToString Sample.random1 0 sandbox options
         (Utils.loaded ∅)).1 in
  build (js "/a")
  = [ js "run"; js "--rm"; js "--name";
      js "accomplish-sandbox-0102ff10000000ab";
      js "--user"; js "1000:1000"; js "--memory"; js "512m";
      js "--cpus"; js "0.5"; js "--pids-limit"; js "50";
      js "--network"; js "none"; js "--volume"; js "/a/work:/workspace:rw";
      js "--workdir"; js "/workspace";
      js "alpine:3.19"; js "ls" ]
  /\ build (js "/b")
     = [ js "run"; js "--rm"; js "--name";
         js "accomplish-sandbox-0102ff10000000ab";
         js "--user"; js "1000:1000"; js "--memory"; js "512m";
         js "--cpus"; js "0.5"; js "--pids-limit"; js "50";
         js "--network"; js "none"; js "--volume"; js "/b/work:/workspace:rw";
         js "--workdir"; js "/workspace";
         js "alpine:3.19"; js "ls" ]
  /\ build (js "/a") !! 15 = Some (js "/a/work:/workspace:rw")
  /\ build (js "/b") !! 15 = Some (js "/b/work:/workspace:rw").
Proof. repeat split; reflexivity. Qed.

End RunnerProps.

(** ** The cleanup registry and the process handlers *)

Module LifecycleProps.

Import Utils.

(** How often a callback has been invoked so far. *)
Definition timesRun (c : Callback) (st : Machine) : nat :=
  length (filter (fun x => x = c) (ran st)).

(** What the handlers may do to a process-like object: they never touch
    [pid] or [kill], never change an exit code that is a number, and only
    ever remove listeners. *)
Definition evolves (p p' : ProcessLike) : Prop :=
  pid p' = pid p
  /\ kill p' = kill p
  /\ (forall n, exitCode p = Code n -> exitCode p' = Code n)
  /\ forall e, listeners e p' `sublist_of` listeners e p.

Definition heapEvolves (h h' : gmap Target ProcessLike) : Prop :=
  forall t,
    match h !! t, h' !! t with
    | Some p, Some p' => evolves p p'
    | None, None => True
    | _, _ => False
    end.

(** The changes a handler makes besides running a cleanup pass: no
    callback is invoked, the guard flag keeps its value. *)
Definition inner (st st' : Machine) : Prop :=
  cleanupInProgress st' = cleanupInProgress st
  /\ ran st' = ran st
  /\ heapEvolves (heap st) (heap st').

(** The part of a signal handler that follows [runCleanup()]. *)
Definition signalTail (self : Listener) (s : Signal) (code : Z) (t : Target)
    (st1 : Machine) : Machine * Completion :=
  let st2 :=
    if isNumber (exitCodeOf t st1) then st1
    else withHeap (alter (setExitCode (Code (ofZ code))) t (heap st1)) st1 in
  let st3 := removeListener t (signal s) self st2 in
  match heap st3 !! t with
  | Some p =>
      match kill p, pid p with
      | Some KillReturns, Some n => (log (Killed t n s) st3, Normal)
      | _, _ => exitProcess t st3
      end
  | None => exitProcess t st3
  end.

(** A callback body that emits no event. *)
Definition emitFree (acts : list Action) : Prop :=
  forall t e, Emit t e ∉ acts.

(** A re-entrant [runCleanup] that respects the guard. *)
Definition guarded (rc : Machine -> option Machine) : Prop :=
  forall st, cleanupInProgress st = true -> rc st = Some st.

Lemma evolves_refl p : evolves p p.
Proof. repeat split; auto. Qed.

Lemma evolves_trans p1 p2 p3 : evolves p1 p2 -> evolves p2 p3 -> evolves p1 p3.
Proof.
  intros (Hp & Hk & Hc & Hl) (Hp' & Hk' & Hc' & Hl').
  repeat split; try congruence; auto.
  intros e. etrans; [apply Hl' | apply Hl].
Qed.

Lemma heapEvolves_refl h : heapEvolves h h.
Proof. intros t. destruct (h !! t); auto using evolves_refl. Qed.

Lemma heapEvolves_trans h1 h2 h3 :
  heapEvolves h1 h2 -> heapEvolves h2 h3 -> heapEvolves h1 h3.
Proof.
  intros H12 H23 t. specialize (H12 t). specialize (H23 t).
  destruct (h1 !! t), (h2 !! t), (h3 !! t); try easy.
  by eapply evolves_trans.
Qed.

Lemma heapEvolves_alter (f : ProcessLike -> ProcessLike) t h :
  (forall p, h !! t = Some p -> evolves p (f p)) ->
  heapEvolves h (alter f t h).
Proof.
  intros Hf t'. rewrite lookup_alter. case_decide as E.
  - subst t'. destruct (h !! t) eqn:Ht; simpl; auto.
  - destruct (h !! t'); auto using evolves_refl.
Qed.

Lemma inner_refl st : inner st st.
Proof. repeat split; auto using heapEvolves_refl. Qed.

Lemma inner_trans st1 st2 st3 : inner st1 st2 -> inner st2 st3 -> inner st1 st3.
Proof.
  intros (Hf & Hr & Hh) (Hf' & Hr' & Hh').
  repeat split; try congruence. by eapply heapEvolves_trans.
Qed.

Lemma ran_log e st :
  ran (log e st) = ran st ++ match e with Ran c => [c] | _ => [] end.
Proof.
  unfold ran, log. simpl. rewrite omap_app. by destruct e.
Qed.

Lemma listeners_setListeners e e' ls p :
  listeners e' (setListeners e ls p)
  = if decide (e = e') then ls else listeners e' p.
Proof.
  destruct e as [|[]], e' as [|[]]; simpl; try case_decide; congruence.
Qed.

Lemma removeLast_sublist l ls : removeLast l ls `sublist_of` ls.
Proof.
  induction ls as [|x ls IH]; simpl; [done |].
  repeat case_decide.
  - by apply sublist_skip.
  - by apply sublist_cons.
  - done.
Qed.

Lemma removeLast_singleton l ls :
  ls `sublist_of` [l] -> removeLast l ls = [].
Proof.
  intros H. apply sublist_cons_r in H as [H | (ls' & -> & H)].
  - apply sublist_nil_r in H as ->. done.
  - apply sublist_nil_r in H as ->. simpl.
    by rewrite decide_True.
Qed.

Lemma setListeners_evolves e ls p :
  ls `sublist_of` listeners e p -> evolves p (setListeners e ls p).
Proof.
  intros Hs. repeat split; try by destruct e as [|[]].
  intros e'. rewrite listeners_setListeners. by case_decide; subst.
Qed.

Lemma setExitCode_evolves c p :
  isNumber (exitCode p) = false -> evolves p (setExitCode c p).
Proof.
  intros Hn. repeat split; simpl; auto.
  intros n Hc. rewrite Hc in Hn. discriminate.
Qed.

Lemma removeListener_inner t e l st : inner st (removeListener t e l st).
Proof.
  repeat split. simpl. apply heapEvolves_alter. intros p _.
  apply setListeners_evolves, removeLast_sublist.
Qed.

Lemma log_inner e st :
  (forall c, e <> Ran c) -> inner st (log e st).
Proof.
  intros He. repeat split.
  - rewrite ran_log. destruct e; [by destruct (He c) | |]; by rewrite app_nil_r.
  - apply heapEvolves_refl.
Qed.

(** A step that leaves the registry as it is. *)
Definition quietStep (st st' : Machine) : Prop :=
  inner st st' /\ cleanupCallbacks st' = cleanupCallbacks st.

Lemma quietStep_refl st : quietStep st st.
Proof. split; auto using inner_refl. Qed.

Lemma quietStep_trans st1 st2 st3 :
  quietStep st1 st2 -> quietStep st2 st3 -> quietStep st1 st3.
Proof.
  intros [Hi Hc] [Hi' Hc']. split; [by eapply inner_trans | congruence].
Qed.

Lemma signalTail_quiet self s code t st1 :
  quietStep st1 (signalTail self s code t st1).1.
Proof.
  unfold signalTail.
  set (st2 := if isNumber (exitCodeOf t st1) then st1 else _).
  assert (H2 : quietStep st1 st2).
  { unfold st2. destruct (isNumber (exitCodeOf t st1)) eqn:E.
    - apply quietStep_refl.
    - split; [| reflexivity]. repeat split. simpl.
      apply heapEvolves_alter. intros p Hp. apply setExitCode_evolves.
      unfold exitCodeOf in E. by rewrite Hp in E. }
  set (st3 := removeListener t (signal s) self st2).
  assert (H3 : quietStep st1 st3).
  { eapply quietStep_trans; [exact H2 |].
    split; [apply removeListener_inner | reflexivity]. }
  assert (Hlog : forall e, (forall c, e <> Ran c) -> quietStep st1 (log e st3)).
  { intros e He. eapply quietStep_trans; [exact H3 |].
    split; [by apply log_inner | reflexivity]. }
  unfold exitProcess.
  destruct (heap st3 !! t) as [p|]; [destruct (kill p) as [[]|], (pid p) |];
    simpl; by apply Hlog.
Qed.

Lemma count_NoDup (c : Callback) (l : list Callback) :
  NoDup l ->
  length (filter (fun x => x = c) l) = if decide (c ∈ l) then 1 else 0.
Proof.
  induction 1 as [|x l Hx Hnd IH]; [done |].
  rewrite filter_cons.
  destruct (decide (x = c)) as [-> | Hne]; simpl; rewrite IH;
    destruct (decide (c ∈ l)) as [Hin | Hin],
             (decide (c ∈ _ :: l)) as [Hin' | Hin'];
    try reflexivity; exfalso;
    first [ apply Hin'; constructor; by auto
          | apply elem_of_cons in Hin' as [? | ?]; by auto ].
Qed.

Lemma withCallbacks_inner cbs st : inner st (withCallbacks cbs st).
Proof. repeat split. apply heapEvolves_refl. Qed.

Lemma register_inner c st : inner st (registerSandboxCleanupCallback c st).
Proof.
  unfold registerSandboxCleanupCallback.
  case_decide; auto using inner_refl, withCallbacks_inner.
Qed.

Lemma register_NoDup c st :
  NoDup (cleanupCallbacks st) ->
  NoDup (cleanupCallbacks (registerSandboxCleanupCallback c st)).
Proof.
  intros Hnd. unfold registerSandboxCleanupCallback. case_decide; [done |].
  simpl. apply NoDup_app. split; [done |]. split.
  - intros x Hx ->%list_elem_of_singleton. contradiction.
  - apply NoDup_singleton.
Qed.

Lemma register_keeps c c0 st :
  c0 ∈ cleanupCallbacks st ->
  c0 ∈ cleanupCallbacks (registerSandboxCleanupCallback c st).
Proof.
  intros Hin. unfold registerSandboxCleanupCallback. case_decide; [done |].
  simpl. apply elem_of_app. auto.
Qed.


Section Pass.

Variable body : Callback -> list Action.

Lemma runCleanup_guarded fuel : guarded (runCleanup body fuel).
Proof. intros st H. destruct fuel; simpl; by rewrite H. Qed.

Lemma onSignal_eq rc self s code t st :
  onSignal rc self s code t st
  = (st1 ← rc st; Some (signalTail self s code t st1)).
Proof.
  unfold onSignal, signalTail. destruct (rc st) as [st1|]; simpl; [| done].
  repeat case_match; reflexivity.
Qed.

Section Nested.

Variable rc : Machine -> option Machine.
Hypothesis rc_guarded : guarded rc.

Lemma call_nested l st :
  cleanupInProgress st = true ->
  exists st' c, call rc l st = Some (st', c) /\ quietStep st st'.
Proof.
  intros Hf. destruct l as [t | t | t]; simpl.
  - rewrite (rc_guarded _ Hf). simpl. eauto using quietStep_refl.
  - rewrite onSignal_eq, (rc_guarded _ Hf). simpl.
    destruct (signalTail (onSigint t) SIGINT 130 t st) as [st' c] eqn:E.
    exists st', c. split; [done |].
    pose proof (signalTail_quiet (onSigint t) SIGINT 130 t st) as H.
    by rewrite E in H.
  - rewrite onSignal_eq, (rc_guarded _ Hf). simpl.
    destruct (signalTail (onSigterm t) SIGTERM 143 t st) as [st' c] eqn:E.
    exists st', c. split; [done |].
    pose proof (signalTail_quiet (onSigterm t) SIGTERM 143 t st) as H.
    by rewrite E in H.
Qed.

Lemma callAll_nested ls st :
  cleanupInProgress st = true ->
  exists st' c, callAll rc ls st = Some (st', c) /\ quietStep st st'.
Proof.
  revert st. induction ls as [|l ls IH]; intros st Hf; simpl.
  - eauto using quietStep_refl.
  - destruct (call_nested l st Hf) as (st1 & c1 & -> & Hq). simpl.
    destruct c1; [| eauto].
    destruct (IH st1) as (st' & c & -> & Hq').
    { destruct Hq as [(Hf1 & _) _]. congruence. }
    eauto using quietStep_trans.
Qed.

Lemma emit_nested t e st :
  cleanupInProgress st = true ->
  exists st' c, emit rc t e st = Some (st', c) /\ quietStep st st'.
Proof. apply callAll_nested. Qed.

(** What the body of a callback can change while a pass is running. *)
Lemma exec_nested acts st :
  cleanupInProgress st = true ->
  exists st' c,
    exec rc acts st = Some (st', c)
    /\ inner st st'
    /\ (NoDup (cleanupCallbacks st) -> NoDup (cleanupCallbacks st'))
    /\ (forall c0, c0 ∈ cleanupCallbacks st -> Unregister c0 ∉ acts ->
                   c0 ∈ cleanupCallbacks st').
Proof.
  revert st. induction acts as [|a acts IH]; intros st Hf; simpl.
  - exists st, Normal. auto using inner_refl.
  - destruct a as [c | c | t e |].
    + destruct (IH (registerSandboxCleanupCallback c st)) as (st' & r & -> & Hi & Hnd & Hk).
      { unfold registerSandboxCleanupCallback. by case_decide. }
      exists st', r. split; [done |]. split; [| split].
      * eapply inner_trans; [| exact Hi]. apply register_inner.
      * intros H. by apply Hnd, register_NoDup.
      * intros c0 Hin Hno. apply Hk; [by apply register_keeps |].
        intros Hbad. apply Hno. by right.
    + destruct (IH (unregisterSandboxCleanupCallback c st)) as (st' & r & -> & Hi & Hnd & Hk).
      { done. }
      exists st', r. split; [done |]. split; [| split].
      * eapply inner_trans; [| exact Hi]. apply withCallbacks_inner.
      * intros H. apply Hnd. simpl. by apply NoDup_filter.
      * intros c0 Hin Hno. apply Hk.
        -- simpl. apply list_elem_of_filter. split; [| done].
           intros ->. apply Hno. by left.
        -- intros Hbad. apply Hno. by right.
    + destruct (emit_nested t e st Hf) as (st1 & c1 & -> & [Hi1 Hc1]). simpl.
      destruct c1.
      * destruct (IH st1) as (st' & r & -> & Hi & Hnd & Hk).
        { destruct Hi1 as (Hf1 & _). congruence. }
        exists st', r. split; [done |]. split; [| split].
        -- by eapply inner_trans.
        -- rewrite <- Hc1. exact Hnd.
        -- intros c0 Hin Hno. apply Hk; [by rewrite Hc1 |].
           intros Hbad. apply Hno. by right.
      * exists st1, Abrupt. split; [done |]. split; [done |].
        rewrite Hc1. auto.
    + exists st, Abrupt. auto using inner_refl.
Qed.

(** The loop of a pass: every callback of the snapshot is invoked once, in
    order, whatever the callbacks do. *)
Lemma forEachCallback_spec callbacks st :
  cleanupInProgress st = true ->
  exists st',
    forEachCallback body rc callbacks st = Some st'
    /\ cleanupInProgress st' = true
    /\ ran st' = ran st ++ callbacks
    /\ heapEvolves (heap st) (heap st')
    /\ (NoDup (cleanupCallbacks st) -> NoDup (cleanupCallbacks st'))
    /\ (forall c0, c0 ∈ cleanupCallbacks st ->
                   (forall c, c ∈ callbacks -> Unregister c0 ∉ body c) ->
                   c0 ∈ cleanupCallbacks st').
Proof.
  revert st. induction callbacks as [|c callbacks IH]; intros st Hf; simpl.
  - exists st. rewrite app_nil_r. repeat split; auto using heapEvolves_refl.
  - destruct (exec_nested (body c) (log (Ran c) st))
      as (st1 & r & -> & (Hf1 & Hr1 & Hh1) & Hnd1 & Hk1); [done |]. simpl.
    destruct (IH st1) as (st' & -> & Hf' & Hr' & Hh' & Hnd' & Hk').
    { simpl in Hf1. congruence. }
    exists st'. split; [done |]. split; [done |]. split; [| split; [| split]].
    + rewrite Hr', Hr1, ran_log, <- app_assoc. reflexivity.
    + eapply heapEvolves_trans; [| exact Hh']. exact Hh1.
    + intros H. apply Hnd', Hnd1, H.
    + intros c0 Hin Hno. apply Hk'.
      * apply Hk1; [done |]. apply Hno. by left.
      * intros c' Hc'. apply Hno. by right.
Qed.

End Nested.

Lemma runCleanup_unfold fuel st :
  runCleanup body (S fuel) st
  = if cleanupInProgress st then Some st
    else st2 ← forEachCallback body (runCleanup body fuel)
                 (cleanupCallbacks st) (withInProgress true st);
         Some (withInProgress false st2).
Proof. reflexivity. Qed.

(** One cleanup pass started while none is running. *)
Lemma pass_spec fuel st :
  cleanupInProgress st = false ->
  exists st',
    runCleanup body (S fuel) st = Some st'
    /\ cleanupInProgress st' = false
    /\ ran st' = ran st ++ cleanupCallbacks st
    /\ heapEvolves (heap st) (heap st')
    /\ (NoDup (cleanupCallbacks st) -> NoDup (cleanupCallbacks st'))
    /\ (forall c0, c0 ∈ cleanupCallbacks st ->
                   (forall c, c ∈ cleanupCallbacks st -> Unregister c0 ∉ body c) ->
                   c0 ∈ cleanupCallbacks st').
Proof.
  intros Hf. rewrite runCleanup_unfold, Hf.
  destruct (forEachCallback_spec (runCleanup body fuel) (runCleanup_guarded fuel)
              (cleanupCallbacks st) (withInProgress true st))
    as (st2 & -> & Hf2 & Hr & Hh & Hnd & Hk); [done |].
  simpl. eexists. split; [reflexivity |]. simpl. auto.
Qed.

(** One unit of fuel is enough for every state: the only nesting of
    passes is a pass started inside a pass, which the guard turns away. *)
Lemma runCleanup_total fuel st :
  exists st', runCleanup body (S fuel) st = Some st'.
Proof.
  destruct (cleanupInProgress st) eqn:Hf.
  - exists st. by apply runCleanup_guarded.
  - destruct (pass_spec fuel st Hf) as (st' & H & _). eauto.
Qed.

Lemma callAll_cons rc l ls st :
  callAll rc (l :: ls) st
  = (r ← call rc l st;
     match r with
     | (st1, Normal) => callAll rc ls st1
     | (st1, Abrupt) => Some (st1, Abrupt)
     end).
Proof. reflexivity. Qed.

Lemma deliver_total fuel t e st :
  exists st' c, deliver body (S fuel) t e st = Some (st', c).
Proof.
  unfold deliver, emit. generalize (listenersOf t e st) as ls. intros ls.
  revert st. induction ls as [|l ls IH]; intros st; [simpl; eauto |].
  rewrite callAll_cons.
  assert (Hcall : exists st1 c1, call (runCleanup body (S fuel)) l st = Some (st1, c1)).
  { destruct (runCleanup_total fuel st) as [st1 H1].
    destruct l as [t' | t' | t']; unfold call; rewrite ?onSignal_eq, H1; simpl.
    - eauto.
    - destruct (signalTail (onSigint t') SIGINT 130 t' st1); eauto.
    - destruct (signalTail (onSigterm t') SIGTERM 143 t' st1); eauto. }
  destruct Hcall as (st1 & [] & ->); simpl; eauto.
Qed.

Lemma callAll_single rc l st : callAll rc [l] st = call rc l st.
Proof. simpl. destruct (call rc l st) as [[st1 []]|]; reflexivity. Qed.

Lemma signalTail_heap self s code t st1 :
  heap (signalTail self s code t st1).1
  = alter (fun p => setListeners (signal s)
                      (removeLast self (listeners (signal s) p)) p) t
      (if isNumber (exitCodeOf t st1) then heap st1
       else alter (setExitCode (Code (ofZ code))) t (heap st1)).
Proof.
  unfold signalTail, exitProcess.
  destruct (isNumber (exitCodeOf t st1)); repeat case_match; reflexivity.
Qed.

Lemma signalTail_exitCode self s code t st1 p :
  heap st1 !! t = Some p ->
  exitCodeOf t (signalTail self s code t st1).1
  = if isNumber (exitCodeOf t st1) then exitCodeOf t st1 else Code (ofZ code).
Proof.
  intros Hp. unfold exitCodeOf at 1. rewrite signalTail_heap, lookup_alter_eq.
  unfold exitCodeOf. rewrite Hp.
  destruct (isNumber (exitCode p)).
  - rewrite Hp. by destruct s.
  - rewrite lookup_alter_eq, Hp. by destruct s.
Qed.

Lemma signalTail_listeners self s code t st1 :
  listenersOf t (signal s) (signalTail self s code t st1).1
  = removeLast self (listenersOf t (signal s) st1).
Proof.
  unfold listenersOf at 1. rewrite signalTail_heap, lookup_alter_eq.
  unfold listenersOf.
  destruct (isNumber (exitCodeOf t st1)).
  - destruct (heap st1 !! t) as [p|]; simpl; [| done]. by destruct s.
  - rewrite lookup_alter_eq.
    destruct (heap st1 !! t) as [p|]; simpl; [| done]. by destruct s.
Qed.

Lemma timesRun_app c st st' l :
  ran st' = ran st ++ l ->
  NoDup l ->
  timesRun c st' = timesRun c st + (if decide (c ∈ l) then 1 else 0).
Proof.
  intros Hr Hnd. unfold timesRun.
  rewrite Hr, filter_app, length_app. f_equal. by apply count_NoDup.
Qed.

Lemma heapEvolves_exitCode st st' t n :
  heapEvolves (heap st) (heap st') ->
  exitCodeOf t st = Code n -> exitCodeOf t st' = Code n.
Proof.
  intros Hh. specialize (Hh t). unfold exitCodeOf.
  destruct (heap st !! t) as [p|], (heap st' !! t) as [p'|]; try easy.
  destruct Hh as (_ & _ & Hc & _). apply Hc.
Qed.

Lemma heapEvolves_listeners st st' t e :
  heapEvolves (heap st) (heap st') ->
  listenersOf t e st' `sublist_of` listenersOf t e st.
Proof.
  intros Hh. specialize (Hh t). unfold listenersOf.
  destruct (heap st !! t) as [p|], (heap st' !! t) as [p'|]; try easy.
  destruct Hh as (_ & _ & _ & Hl). apply Hl.
Qed.

Lemma heapEvolves_present st st' t p :
  heapEvolves (heap st) (heap st') ->
  heap st !! t = Some p -> exists p', heap st' !! t = Some p'.
Proof.
  intros Hh Hp. specialize (Hh t). rewrite Hp in Hh.
  destruct (heap st' !! t); [eauto | contradiction].
Qed.

(** A callback that emits no event leaves the process-like objects as
    they are. *)
Lemma exec_emitFree_heap rc acts st st' c :
  emitFree acts ->
  exec rc acts st = Some (st', c) -> heap st' = heap st.
Proof.
  revert st. induction acts as [|a acts IH]; intros st Hfree; simpl.
  - by intros [= <- _].
  - assert (Hrest : emitFree acts) by (intros t e Hin; eapply Hfree; by right).
    destruct a as [c0 | c0 | t e |].
    + intros H. rewrite (IH _ Hrest H).
      unfold registerSandboxCleanupCallback. by case_decide.
    + intros H. by rewrite (IH _ Hrest H).
    + destruct (Hfree t e). by left.
    + by intros [= <- _].
Qed.

Lemma forEachCallback_emitFree_heap rc callbacks st st' :
  (forall c, c ∈ callbacks -> emitFree (body c)) ->
  forEachCallback body rc callbacks st = Some st' -> heap st' = heap st.
Proof.
  revert st. induction callbacks as [|c callbacks IH]; intros st Hfree; simpl.
  - by intros [= <-].
  - destruct (exec rc (body c) (log (Ran c) st)) as [[st1 r]|] eqn:E;
      simpl; [| done].
    intros H. rewrite (IH st1); [| intros c' Hc'; apply Hfree; by right | done].
    apply exec_emitFree_heap in E; [done |]. apply Hfree. by left.
Qed.

Lemma pass_emitFree_heap fuel st st' :
  cleanupInProgress st = false ->
  (forall c, c ∈ cleanupCallbacks st -> emitFree (body c)) ->
  runCleanup body (S fuel) st = Some st' -> heap st' = heap st.
Proof.
  intros Hf Hfree. rewrite runCleanup_unfold, Hf.
  destruct (forEachCallback body _ _ _) as [st2|] eqn:E; simpl; [| done].
  intros [= <-]. simpl. by apply forEachCallback_emitFree_heap in E.
Qed.

(** An interrupt delivered while no pass is running, to an object that
    carries the handler. *)
Lemma sigint_idle fuel t st :
  cleanupInProgress st = false ->
  listenersOf t (signal SIGINT) st = [onSigint t] ->
  exists st1 st' c,
    runCleanup body (S fuel) st = Some st1
    /\ deliver body (S fuel) t (signal SIGINT) st = Some (st', c)
    /\ ran st' = ran st ++ cleanupCallbacks st
    /\ cleanupInProgress st' = false
    /\ exitCodeOf t st'
       = (if isNumber (exitCodeOf t st1) then exitCodeOf t st1
          else Code (ofZ 130))
    /\ (forall n, exitCodeOf t st = Code n -> exitCodeOf t st' = Code n)
    /\ listenersOf t (signal SIGINT) st' = [].
Proof.
  intros Hf Hl.
  destruct (pass_spec fuel st Hf) as (st1 & Hrun & Hf1 & Hr1 & Hh1 & _).
  destruct (signalTail (onSigint t) SIGINT 130 t st1) as [st' c] eqn:E.
  pose proof (signalTail_quiet (onSigint t) SIGINT 130 t st1) as [(Hf' & Hr' & Hh') _].
  pose proof (signalTail_listeners (onSigint t) SIGINT 130 t st1) as Hl'.
  rewrite E in Hf', Hr', Hh', Hl'. simpl in Hf', Hr', Hh', Hl'.
  assert (Hp : exists p, heap st !! t = Some p).
  { unfold listenersOf in Hl. destruct (heap st !! t); [eauto | discriminate]. }
  destruct Hp as [p Hp].
  destruct (heapEvolves_present st st1 t p Hh1 Hp) as [p1 Hp1].
  pose proof (signalTail_exitCode (onSigint t) SIGINT 130 t st1 p1 Hp1) as Hc.
  rewrite E in Hc. simpl in Hc.
  exists st1, st', c. split; [done |]. split.
  { unfold deliver, emit. rewrite Hl, callAll_single. unfold call.
    rewrite onSignal_eq, Hrun. simpl. by rewrite E. }
  split; [congruence |]. split; [congruence |]. split; [done |]. split.
  - intros n Hn. eapply heapEvolves_exitCode; [exact Hh' |].
    by eapply heapEvolves_exitCode.
  - rewrite Hl'. apply removeLast_singleton. rewrite <- Hl.
    by apply heapEvolves_listeners.
Qed.

End Pass.

(** Two callbacks: the first unregisters the second and then re-enters
    the interrupt trigger; the second throws. *)
Definition reentrantBody (c : Callback) : list Action :=
  match c with
  | 7 => [Unregister 8; Emit 0 (signal SIGINT)]
  | _ => [Throw]
  end.

(** The module after [registerSandboxCleanupCallback] of the callbacks
    [7] and [8] and [ensureSandboxProcessCleanupHandlers] on a fresh
    [MockProcess], the object [0]. *)
Definition twoCallbacks : Machine :=
  ensureSandboxProcessCleanupHandlers 0
    (registerSandboxCleanupCallback 8
       (registerSandboxCleanupCallback 7 (loaded {[ 0 := MockProcess ]}))).

Lemma twoCallbacks_NoDup : NoDup (cleanupCallbacks twoCallbacks).
Proof.
  change (NoDup [7; 8]). apply NoDup_cons. split; [| apply NoDup_singleton].
  intros H%list_elem_of_singleton. discriminate.
Qed.

(** C1 (as amended). A cleanup pass started while none is running
    terminates, invokes every callback registered at its start exactly once
    and no other, and leaves the guard flag cleared.  It does not clear the
    registry: a callback that no invoked callback unregisters is still
    registered afterwards, and the next pass invokes it once more. *)
Theorem pass_runs_each_callback_once body fuel st :
  cleanupInProgress st = false ->
  NoDup (cleanupCallbacks st) ->
  exists st',
    runCleanup body (S fuel) st = Some st'
    /\ cleanupInProgress st' = false
    /\ NoDup (cleanupCallbacks st')
    /\ (forall c,
           timesRun c st'
           = timesRun c st + (if decide (c ∈ cleanupCallbacks st) then 1 else 0))
    /\ (forall c,
           c ∈ cleanupCallbacks st ->
           (forall c', c' ∈ cleanupCallbacks st -> Unregister c ∉ body c') ->
           c ∈ cleanupCallbacks st')
    /\ (forall c,
           c ∈ cleanupCallbacks st' ->
           exists st'',
             runCleanup body (S fuel) st' = Some st''
             /\ timesRun c st'' = timesRun c st' + 1).
Proof.
  intros Hf Hnd.
  destruct (pass_spec body fuel st Hf) as (st' & Hrun & Hf' & Hr & _ & Hnd' & Hk).
  exists st'. split; [done |]. split; [done |]. split; [auto |].
  split; [| split; [exact Hk |]].
  - intros c. by apply timesRun_app.
  - intros c Hc.
    destruct (pass_spec body fuel st' Hf') as (st'' & Hrun' & _ & Hr' & _).
    exists st''. split; [done |].
    rewrite (timesRun_app c st' st'' _ Hr') by auto.
    by rewrite decide_True.
Qed.

Lemma pass_runs_each_callback_once_witness :
  exists st',
    runCleanup reentrantBody 1 twoCallbacks = Some st'
    /\ cleanupInProgress st' = false
    /\ NoDup (cleanupCallbacks st')
    /\ (forall c,
           timesRun c st'
           = timesRun c twoCallbacks
             + (if decide (c ∈ cleanupCallbacks twoCallbacks) then 1 else 0))
    /\ (forall c,
           c ∈ cleanupCallbacks twoCallbacks ->
           (forall c', c' ∈ cleanupCallbacks twoCallbacks ->
                       Unregister c ∉ reentrantBody c') ->
           c ∈ cleanupCallbacks st')
    /\ (forall c,
           c ∈ cleanupCallbacks st' ->
           exists st'',
             runCleanup reentrantBody 1 st' = Some st''
             /\ timesRun c st'' = timesRun c st' + 1).
Proof.
  exact (pass_runs_each_callback_once reentrantBody 0 twoCallbacks
           eq_refl twoCallbacks_NoDup).
Defined.

(** C1 (as stated) fails.  One callback, which does nothing the registry
    sees, is registered and the handlers are installed.  On a [MockProcess]
    the interrupt runs the callback and leaves it registered, and the
    termination signal then runs it a second time.  On an object with a pid
    and a working [kill] the interrupt runs the callback and re-raises the
    signal, and the exit event then runs it a second time. *)
Lemma callback_runs_twice :
  let mock :=
    ensureSandboxProcessCleanupHandlers 0
      (registerSandboxCleanupCallback 7 (loaded {[ 0 := MockProcess ]})) in
  let real :=
    ensureSandboxProcessCleanupHandlers 0
      (registerSandboxCleanupCallback 7
         (loaded {[ 0 := newProcess Unset (Some (ofZ 4242)) (Some KillReturns) ]})) in
  (exists st1 st2,
      deliver (fun _ => []) 1 0 (signal SIGINT) mock = Some (st1, Abrupt)
      /\ trace st1 = [Ran 7; Exited 0 (Code (ofZ 130))]
      /\ cleanupCallbacks st1 = [7]
      /\ deliver (fun _ => []) 1 0 (signal SIGTERM) st1 = Some (st2, Abrupt)
      /\ trace st2
         = [Ran 7; Exited 0 (Code (ofZ 130)); Ran 7; Exited 0 (Code (ofZ 130))]
      /\ timesRun 7 st2 = 2)
  /\ (exists st1 st2,
         deliver (fun _ => []) 1 0 (signal SIGINT) real = Some (st1, Normal)
         /\ trace st1 = [Ran 7; Killed 0 (ofZ 4242) SIGINT]
         /\ cleanupCallbacks st1 = [7]
         /\ deliver (fun _ => []) 1 0 exit st1 = Some (st2, Normal)
         /\ trace st2 = [Ran 7; Killed 0 (ofZ 4242) SIGINT; Ran 7]
         /\ timesRun 7 st2 = 2).
Proof.
  intros mock real. split; do 2 eexists.
  - split; [vm_compute; reflexivity |].
    split; [reflexivity |]. split; [reflexivity |].
    split; [vm_compute; reflexivity |]. split; reflexivity.
  - split; [vm_compute; reflexivity |].
    split; [reflexivity |]. split; [reflexivity |].
    split; [vm_compute; reflexivity |]. split; reflexivity.
Qed.

(** C2. An interrupt delivered, while no pass is running, to a
    process-like object that carries the interrupt handler terminates; it
    invokes every registered callback exactly once, in registration order,
    and no other.  Afterwards a numeric exit code set before the interrupt is
    unchanged; otherwise the exit code is 130, unless a callback emitted an
    event whose handler set a number first: in general it is the number the
    object had when the handler examined it, and 130 if it had none then. *)
Theorem sigint_runs_cleanup_and_sets_exit_code body fuel t st :
  cleanupInProgress st = false ->
  NoDup (cleanupCallbacks st) ->
  listenersOf t (signal SIGINT) st = [onSigint t] ->
  exists afterCleanup st' completion,
    runCleanup body (S fuel) st = Some afterCleanup
    /\ deliver body (S fuel) t (signal SIGINT) st = Some (st', completion)
    /\ ran st' = ran st ++ cleanupCallbacks st
    /\ (forall c,
           timesRun c st'
           = timesRun c st + (if decide (c ∈ cleanupCallbacks st) then 1 else 0))
    /\ (forall n, exitCodeOf t st = Code n -> exitCodeOf t st' = Code n)
    /\ ((forall c t' e, c ∈ cleanupCallbacks st -> Emit t' e ∉ body c) ->
        isNumber (exitCodeOf t st) = false ->
        exitCodeOf t st' = Code (ofZ 130))
    /\ exitCodeOf t st'
       = (if isNumber (exitCodeOf t afterCleanup)
          then exitCodeOf t afterCleanup else Code (ofZ 130)).
Proof.
  intros Hf Hnd Hl.
  destruct (sigint_idle body fuel t st Hf Hl)
    as (st1 & st' & c & Hrun & Hdel & Hr & _ & Hc & Hkeep & _).
  exists st1, st', c. repeat (split; [done |]).
  split; [| split; [done |]]; [| split; [| done]].
  - intros cb. by apply timesRun_app.
  - intros Hfree Hunset. rewrite Hc.
    assert (Hheap : heap st1 = heap st).
    { eapply pass_emitFree_heap; [done | | done].
      intros cb Hcb t' e. by apply Hfree. }
    unfold exitCodeOf in *. rewrite Hheap. by rewrite Hunset.
Qed.

Lemma sigint_runs_cleanup_and_sets_exit_code_witness :
  exists afterCleanup st' completion,
    runCleanup reentrantBody 1 twoCallbacks = Some afterCleanup
    /\ deliver reentrantBody 1 0 (signal SIGINT) twoCallbacks
       = Some (st', completion)
    /\ ran st' = ran twoCallbacks ++ cleanupCallbacks twoCallbacks
    /\ (forall c,
           timesRun c st'
           = timesRun c twoCallbacks
             + (if decide (c ∈ cleanupCallbacks twoCallbacks) then 1 else 0))
    /\ (forall n, exitCodeOf 0 twoCallbacks = Code n -> exitCodeOf 0 st' = Code n)
    /\ ((forall c t' e,
            c ∈ cleanupCallbacks twoCallbacks -> Emit t' e ∉ reentrantBody c) ->
        isNumber (exitCodeOf 0 twoCallbacks) = false ->
        exitCodeOf 0 st' = Code (ofZ 130))
    /\ exitCodeOf 0 st'
       = (if isNumber (exitCodeOf 0 afterCleanup)
          then exitCodeOf 0 afterCleanup else Code (ofZ 130)).
Proof.
  exact (sigint_runs_cleanup_and_sets_exit_code reentrantBody 0 0 twoCallbacks
           eq_refl twoCallbacks_NoDup eq_refl).
Defined.

(** C3. Two interrupts delivered in succession to the same object, the
    first while no pass is running, invoke every registered callback once in
    total: the second finds the handler removed.  And any event delivered
    while a pass is in progress terminates without invoking a callback and
    without changing the registry or the guard flag: the re-entrant trigger
    is dropped, nothing records it for later. *)
Theorem repeated_interrupt_runs_cleanup_once body fuel t st :
  cleanupInProgress st = false ->
  NoDup (cleanupCallbacks st) ->
  listenersOf t (signal SIGINT) st = [onSigint t] ->
  (exists st1 completion1 st2 completion2,
      deliver body (S fuel) t (signal SIGINT) st = Some (st1, completion1)
      /\ deliver body (S fuel) t (signal SIGINT) st1 = Some (st2, completion2)
      /\ ran st2 = ran st ++ cleanupCallbacks st
      /\ (forall c,
             timesRun c st2
             = timesRun c st
               + (if decide (c ∈ cleanupCallbacks st) then 1 else 0)))
  /\ (forall fuel' t' e busy,
         cleanupInProgress busy = true ->
         exists st' completion,
           deliver body fuel' t' e busy = Some (st', completion)
           /\ ran st' = ran busy
           /\ cleanupCallbacks st' = cleanupCallbacks busy
           /\ cleanupInProgress st' = true).
Proof.
  intros Hf Hnd Hl. split.
  - destruct (sigint_idle body fuel t st Hf Hl)
      as (_ & st1 & c1 & _ & Hdel & Hr & _ & _ & _ & Hgone).
    exists st1, c1, st1, Normal. split; [done |]. split; [| split; [done |]].
    + unfold deliver, emit. by rewrite Hgone.
    + intros cb. by apply timesRun_app.
  - intros fuel' t' e busy Hb.
    destruct (emit_nested (runCleanup body fuel') (runCleanup_guarded body fuel')
                t' e busy Hb) as (st' & c & Hdel & (Hf' & Hr' & _) & Hc').
    exists st', c. split; [done |]. split; [done |]. split; [done |]. congruence.
Qed.

Lemma repeated_interrupt_runs_cleanup_once_witness :
  (exists st1 completion1 st2 completion2,
      deliver reentrantBody 1 0 (signal SIGINT) twoCallbacks
      = Some (st1, completion1)
      /\ deliver reentrantBody 1 0 (signal SIGINT) st1 = Some (st2, completion2)
      /\ ran st2 = ran twoCallbacks ++ cleanupCallbacks twoCallbacks
      /\ (forall c,
             timesRun c st2
             = timesRun c twoCallbacks
               + (if decide (c ∈ cleanupCallbacks twoCallbacks) then 1 else 0)))
  /\ (forall fuel' t' e busy,
         cleanupInProgress busy = true ->
         exists st' completion,
           deliver reentrantBody fuel' t' e busy = Some (st', completion)
           /\ ran st' = ran busy
           /\ cleanupCallbacks st' = cleanupCallbacks busy
           /\ cleanupInProgress st' = true).
Proof.
  exact (repeated_interrupt_runs_cleanup_once reentrantBody 0 0 twoCallbacks
           eq_refl twoCallbacks_NoDup eq_refl).
Defined.

(** The run of the test suite, with the re-entrant callbacks: both
    callbacks of the snapshot are invoked once, the second although the
    first has unregistered it, and the mock exits with 130. *)
Example sigint_on_mock :
  exists st',
    deliver reentrantBody 1 0 (signal SIGINT) twoCallbacks = Some (st', Abrupt)
    /\ trace st'
       = [ Ran 7; Exited 0 (Code (ofZ 130)); Ran 8; Exited 0 (Code (ofZ 130)) ]
    /\ cleanupCallbacks st' = [7]
    /\ exitCodeOf 0 st' = Code (ofZ 130).
Proof.
  eexists. split; [vm_compute; reflexivity |]. repeat split; reflexivity.
Qed.

End LifecycleProps.


(** * Further properties of the code *)

(** ** What a resolved configuration guarantees *)

Module ResolveProps.

Import Config.

(** A number that is an integer greater than zero. *)
Definition positiveInteger (n : JsNumber) : Prop :=
  exists (z : Z) (q : Q), (0 < z)%Z /\ n = Finite q /\ Qeq q (inject_Z z).

(** A finite number greater than zero. *)
Definition positiveFinite (n : JsNumber) : Prop :=
  exists q : Q, n = Finite q /\ Qlt 0 q.

(** The user mapping resolution works with. *)
Definition chosenUser (host : Host) (config : SandboxConfig)
  : Result SandboxUserMapping :=
  match c_user config with
  | Some u => ok u
  | None => getHostUserMapping host
  end.

(** The configuration with the defaults filled in, for a given user. *)
Definition defaulted (path_resolve : JsString -> JsString)
    (config : SandboxConfig) (u : SandboxUserMapping) : ResolvedSandboxConfig :=
  let containerPath :=
    nullish (chain (c_mount config) p_containerPath) DEFAULT_CONTAINER_PATH in
  {| image := c_image config;
     network := nullish (c_network config) (js "none");
     resources :=
       {| memory := nullish (chain (c_resources config) p_memory) (js "512m");
          cpus := nullish (chain (c_resources config) p_cpus) (Finite (1 # 2));
          pidsLimit := nullish (chain (c_resources config) p_pidsLimit) (ofZ 50) |};
     user := u;
     mount :=
       {| hostPath :=
            match chain (c_mount config) p_hostPath with
            | Some p => if falsy p then [] else path_resolve p
            | None => []
            end;
          containerPath := containerPath;
          readOnly := nullish (chain (c_mount config) p_readOnly) false |};
     workdir := nullish (c_workdir config) containerPath;
     env := nullish (c_env config) [];
     preflightTimeoutMs := nullish (c_preflightTimeoutMs config) (ofZ 10000);
     pullTimeoutMs := nullish (c_pullTimeoutMs config) (ofZ 300000);
     containerNamePrefix :=
       nullish (c_containerNamePrefix config) (js "accomplish-sandbox") |}.

(** Every check of [resolveSandboxConfig], on the defaulted value. *)
Definition accepted (r : ResolvedSandboxConfig) : bool :=
  negb (falsy (image r))
  && negb (existsb (fun c => isWhiteSpace c || unit_eqb c NUL) (image r))
  && Number_isInteger (uid (user r)) && Number_isInteger (gid (user r))
  && negb (leq_zero (uid (user r))) && negb (leq_zero (gid (user r)))
  && negb (falsy (memory (resources r)))
  && Number_isFinite (cpus (resources r)) && negb (leq_zero (cpus (resources r)))
  && Number_isInteger (pidsLimit (resources r))
  && negb (leq_zero (pidsLimit (resources r)))
  && (str_eqb (network r) (js "none") || str_eqb (network r) (js "bridge"))
  && negb (falsy (containerNamePrefix r)) && prefixMatches (containerNamePrefix r)
  && startsWith SLASH (containerPath (mount r))
  && startsWith SLASH (workdir r).

(** The configuration a resolved configuration stands for, every field
    given. *)
Definition asConfig (r : ResolvedSandboxConfig) : SandboxConfig :=
  {| c_enabled := true;
     c_image := image r;
     c_network := Some (network r);
     c_resources :=
       Some {| p_memory := Some (memory (resources r));
               p_cpus := Some (cpus (resources r));
               p_pidsLimit := Some (pidsLimit (resources r)) |};
     c_user := Some (user r);
     c_mount :=
       Some {| p_hostPath := Some (hostPath (mount r));
               p_containerPath := Some (containerPath (mount r));
               p_readOnly := Some (readOnly (mount r)) |};
     c_workdir := Some (workdir r);
     c_env := Some (env r);
     c_preflightTimeoutMs := Some (preflightTimeoutMs r);
     c_pullTimeoutMs := Some (pullTimeoutMs r);
     c_containerNamePrefix := Some (containerNamePrefix r) |}.

(** Resolution succeeds exactly when the configuration is enabled, a user
    is found and the defaulted configuration passes every check; the result
    is then the defaulted configuration. *)
Lemma resolve_inr_iff path_resolve host config r :
  resolveSandboxConfig path_resolve host config = inr r
  <-> c_enabled config = true
      /\ exists u, chosenUser host config = inr u
                   /\ accepted (defaulted path_resolve config u) = true
                   /\ r = defaulted path_resolve config u.
Proof.
  unfold resolveSandboxConfig, chosenUser.
  destruct (c_enabled config); simpl; [| split; [discriminate | intros [[=] _]]].
  destruct (match c_user config with
            | Some u => ok u
            | None => getHostUserMapping host
            end) as [e | u] eqn:Hu.
  { split.
    - unfold validateDockerImageName.
      destruct (falsy (c_image config)); simpl; [discriminate |].
      destruct (existsb _ (c_image config)); simpl; discriminate.
    - intros (_ & u & [=] & _). }
  assert (Hiff : forall r0 : Result ResolvedSandboxConfig,
             (r0 = inr r
              <-> accepted (defaulted path_resolve config u) = true
                  /\ r = defaulted path_resolve config u) ->
             (r0 = inr r
              <-> true = true
                  /\ exists u', @inr Error _ u = inr u'
                                /\ accepted (defaulted path_resolve config u') = true
                                /\ r = defaulted path_resolve config u')).
  { intros r0 [H1 H2]. split.
    - intros H. split; [done |]. exists u. split; [done |]. by apply H1.
    - intros (_ & u' & [= <-] & H). by apply H2. }
  apply Hiff. clear Hiff Hu.
  unfold accepted, defaulted, validateDockerImageName, validateUserMapping,
    validateResourceLimits, validateContainerNamePrefix. simpl.
  set (cp := nullish (chain (c_mount config) p_containerPath) DEFAULT_CONTAINER_PATH).
  set (wd := nullish (c_workdir config) cp).
  set (nw := nullish (c_network config) (js "none")).
  set (pf := nullish (c_containerNamePrefix config) DEFAULT_CONTAINER_NAME_PREFIX).
  set (mem := nullish (chain (c_resources config) p_memory) (memory DEFAULT_LIMITS)).
  set (cpu := nullish (chain (c_resources config) p_cpus) (cpus DEFAULT_LIMITS)).
  set (pl := nullish (chain (c_resources config) p_pidsLimit) (pidsLimit DEFAULT_LIMITS)).
  change (js "512m") with (memory DEFAULT_LIMITS).
  change (Finite (1 # 2)) with (cpus DEFAULT_LIMITS).
  change (ofZ 50) with (pidsLimit DEFAULT_LIMITS).
  change (js "accomplish-sandbox") with DEFAULT_CONTAINER_NAME_PREFIX.
  fold mem cpu pl pf.
  destruct (falsy (c_image config)); simpl; [split; [discriminate | intros [[=] _]] |].
  destruct (existsb _ (c_image config)); simpl; [split; [discriminate | intros [[=] _]] |].
  destruct (Number_isInteger (uid u)); simpl; [| split; [discriminate | intros [[=] _]]].
  destruct (Number_isInteger (gid u)); simpl; [| split; [discriminate | intros [[=] _]]].
  destruct (leq_zero (uid u)); simpl; [split; [discriminate | intros [[=] _]] |].
  destruct (leq_zero (gid u)); simpl; [split; [discriminate | intros [[=] _]] |].
  destruct (falsy mem); simpl; [split; [discriminate | intros [[=] _]] |].
  destruct (Number_isFinite cpu); simpl; [| split; [discriminate | intros [[=] _]]].
  destruct (leq_zero cpu); simpl; [split; [discriminate | intros [[=] _]] |].
  destruct (Number_isInteger pl); simpl; [| split; [discriminate | intros [[=] _]]].
  destruct (leq_zero pl); simpl; [split; [discriminate | intros [[=] _]] |].
  destruct (str_eqb nw (js "none")); simpl.
  - destruct (falsy pf); simpl; [split; [discriminate | intros [[=] _]] |].
    destruct (prefixMatches pf); simpl; [| split; [discriminate | intros [[=] _]]].
    destruct (startsWith SLASH cp); simpl; [| split; [discriminate | intros [[=] _]]].
    destruct (startsWith SLASH wd); simpl; [| split; [discriminate | intros [[=] _]]].
    split; [intros [= <-]; by split | intros [_ ->]; reflexivity].
  - destruct (str_eqb nw (js "bridge")); simpl; [| split; [discriminate | intros [[=] _]]].
    destruct (falsy pf); simpl; [split; [discriminate | intros [[=] _]] |].
    destruct (prefixMatches pf); simpl; [| split; [discriminate | intros [[=] _]]].
    destruct (startsWith SLASH cp); simpl; [| split; [discriminate | intros [[=] _]]].
    destruct (startsWith SLASH wd); simpl; [| split; [discriminate | intros [[=] _]]].
    split; [intros [= <-]; by split | intros [_ ->]; reflexivity].
Qed.

Lemma positiveInteger_iff n :
  Number_isInteger n = true /\ leq_zero n = false <-> positiveInteger n.
Proof.
  unfold positiveInteger. destruct n as [| neg | q]; simpl.
  - split; [intros [[=] _] | intros (z & q & _ & [=] & _)].
  - split; [intros [[=] _] | intros (z & q & _ & [=] & _)].
  - destruct q as [a b]. simpl. split.
    + intros [Hint Hpos]. apply Z.eqb_eq in Hint.
      assert (Hab : a = (Z.pos b * (a / Z.pos b))%Z)
        by (apply Z_div_exact_full_2; [lia | done]).
      assert (Ha : (0 < a)%Z).
      { destruct (Z_lt_le_dec 0 a) as [? | Hle]; [done |].
        assert (Qle_bool (a # b) 0 = true); [| congruence].
        apply Qle_bool_iff. unfold Qle. simpl. lia. }
      exists (a / Z.pos b)%Z, (a # b). split; [| split; [done |]].
      * apply Z.div_str_pos. split; [lia |].
        destruct (Z_lt_le_dec a (Z.pos b)) as [Hlt | ?]; [| done].
        rewrite Z.div_small in Hab by lia. lia.
      * unfold Qeq. simpl. lia.
    + intros (z & q & Hz & [= <-] & Heq). unfold Qeq in Heq. simpl in Heq.
      split.
      * apply Z.eqb_eq. rewrite Z.mul_1_r in Heq. subst a. apply Z.mod_mul. lia.
      * destruct (Qle_bool (a # b) 0) eqn:E; [| done].
        apply Qle_bool_iff in E. unfold Qle in E. simpl in E. nia.
Qed.

Lemma positiveFinite_iff n :
  Number_isFinite n = true /\ leq_zero n = false <-> positiveFinite n.
Proof.
  unfold positiveFinite. destruct n as [| neg | q]; simpl.
  - split; [intros [[=] _] | intros (q & [=] & _)].
  - split; [intros [[=] _] | intros (q & [=] & _)].
  - split.
    + intros [_ Hpos]. exists q. split; [done |].
      apply Qnot_le_lt. intros Hle. apply Qle_bool_iff in Hle. congruence.
    + intros (q' & [= <-] & Hlt). split; [done |].
      destruct (Qle_bool q 0) eqn:E; [| done].
      apply Qle_bool_iff in E. exfalso. by apply (Qlt_not_le 0 q).
Qed.

Lemma startsWith_slash s :
  startsWith SLASH s = true <-> exists rest, s = SLASH :: rest.
Proof.
  destruct s as [|c s]; simpl.
  - split; [discriminate | intros [? [=]]].
  - unfold unit_eqb. rewrite N.eqb_eq. split.
    + intros ->. eauto.
    + by intros [? [= -> _]].
Qed.

Lemma falsy_false s : falsy s = false <-> s <> [].
Proof. destruct s; simpl; split; congruence. Qed.

(** X1. A configuration that resolves satisfies, after defaults: the image
    is non-empty and has no whitespace and no NUL; the network is [none] or
    [bridge]; uid and gid are integers greater than zero; the memory limit is
    non-empty, the CPU limit a finite number greater than zero, the
    process-count limit an integer greater than zero; the mount container
    path and the working directory start with a slash; the name prefix is an
    alphanumeric followed by alphanumerics, [_], [.] or [-]. *)
Theorem resolved_config_invariants path_resolve host config r :
  resolveSandboxConfig path_resolve host config = inr r ->
  image r <> []
  /\ (forall c, c ∈ image r -> isWhiteSpace c = false /\ c <> NUL)
  /\ (network r = js "none" \/ network r = js "bridge")
  /\ positiveInteger (uid (user r)) /\ positiveInteger (gid (user r))
  /\ memory (resources r) <> []
  /\ positiveFinite (cpus (resources r))
  /\ positiveInteger (pidsLimit (resources r))
  /\ (exists rest, containerPath (mount r) = SLASH :: rest)
  /\ (exists rest, workdir r = SLASH :: rest)
  /\ (exists c rest,
         containerNamePrefix r = c :: rest
         /\ isAlnum c = true /\ forall x, x ∈ rest -> isNameChar x = true).
Proof.
  intros H. apply resolve_inr_iff in H as (_ & u & _ & Hacc & ->).
  unfold accepted in Hacc.
  repeat (apply andb_true_iff in Hacc as [Hacc ?]).
  repeat match goal with
         | H : negb _ = true |- _ => apply negb_true_iff in H
         end.
  split; [by apply falsy_false |]. split.
  { intros c Hc.
    assert (Hall : forallb (fun c => negb (isWhiteSpace c || unit_eqb c NUL))
                     (image (defaulted path_resolve config u)) = true).
    { apply forallb_forall. intros x Hx. apply negb_true_iff.
      destruct (isWhiteSpace x || unit_eqb x NUL) eqn:E; [| done].
      assert (existsb (fun c => isWhiteSpace c || unit_eqb c NUL)
                (image (defaulted path_resolve config u)) = true); [| congruence].
      apply existsb_exists. eauto. }
    rewrite forallb_forall in Hall.
    specialize (Hall c (proj1 (list_elem_of_In _ _) Hc)).
    apply negb_true_iff, orb_false_iff in Hall as [Hw Hn].
    split; [done |]. intros ->. by rewrite N.eqb_refl in Hn. }
  split.
  { match goal with
    | Hn : _ || _ = true |- _ =>
        apply orb_true_iff in Hn as [Hn | Hn];
        apply RedactionProps.str_eqb_eq in Hn; auto
    end. }
  split; [by apply positiveInteger_iff |].
  split; [by apply positiveInteger_iff |].
  split; [by apply falsy_false |].
  split; [by apply positiveFinite_iff |].
  split; [by apply positiveInteger_iff |].
  split; [by apply startsWith_slash |].
  split; [by apply startsWith_slash |].
  match goal with H : prefixMatches _ = true |- _ => rename H into Hp end.
  unfold prefixMatches in Hp.
  destruct (containerNamePrefix (defaulted path_resolve config u)) as [|c rest];
    [discriminate |].
  apply andb_true_iff in Hp as [Hc Hrest]. exists c, rest.
  split; [done |]. split; [done |]. intros x Hx.
  rewrite forallb_forall in Hrest. apply Hrest. by apply list_elem_of_In.
Qed.

Lemma resolved_config_invariants_witness :
  let r := ResolveProps.defaulted Sample.path_resolve
             (Sample.alpine (ofZ 1000) (ofZ 1000))
             {| uid := ofZ 1000; gid := ofZ 1000 |} in
  image r <> []
  /\ (forall c, c ∈ image r -> isWhiteSpace c = false /\ c <> NUL)
  /\ (network r = js "none" \/ network r = js "bridge")
  /\ positiveInteger (uid (user r)) /\ positiveInteger (gid (user r))
  /\ memory (resources r) <> []
  /\ positiveFinite (cpus (resources r))
  /\ positiveInteger (pidsLimit (resources r))
  /\ (exists rest, containerPath (mount r) = SLASH :: rest)
  /\ (exists rest, workdir r = SLASH :: rest)
  /\ (exists c rest,
         containerNamePrefix r = c :: rest
         /\ isAlnum c = true /\ forall x, x ∈ rest -> isNameChar x = true).
Proof.
  exact (resolved_config_invariants Sample.path_resolve Sample.noHost
           (Sample.alpine (ofZ 1000) (ofZ 1000)) _ eq_refl).
Defined.

(** The same configuration with other values in the fields resolution
    does not check. *)
Definition withUnchecked (newEnv : option (list (JsString * JsString)))
    (newPreflight newPull : option JsNumber) (newHostPath : option JsString)
    (newReadOnly : option bool) (config : SandboxConfig) : SandboxConfig :=
  {| c_enabled := c_enabled config;
     c_image := c_image config;
     c_network := c_network config;
     c_resources := c_resources config;
     c_user := c_user config;
     c_mount :=
       Some {| p_hostPath := newHostPath;
               p_containerPath := chain (c_mount config) p_containerPath;
               p_readOnly := newReadOnly |};
     c_workdir := c_workdir config;
     c_env := newEnv;
     c_preflightTimeoutMs := newPreflight;
     c_pullTimeoutMs := newPull;
     c_containerNamePrefix := c_containerNamePrefix config |}.

(** X2. Resolution never rejects a configuration for its environment, its
    two timeouts, its mount host path or its read-only flag: whatever is put
    in these fields of a configuration that resolves, the new configuration
    resolves too, to the same image, network, limits, user, container path,
    working directory and prefix, and the new values are taken over as they
    are (a timeout may be negative or NaN). *)
Theorem unchecked_fields_are_accepted
    path_resolve host config r
    newEnv newPreflight newPull newHostPath newReadOnly :
  resolveSandboxConfig path_resolve host config = inr r ->
  exists r',
    resolveSandboxConfig path_resolve host
      (withUnchecked newEnv newPreflight newPull newHostPath newReadOnly config)
    = inr r'
    /\ image r' = image r /\ network r' = network r
    /\ resources r' = resources r /\ user r' = user r
    /\ containerPath (mount r') = containerPath (mount r)
    /\ workdir r' = workdir r
    /\ containerNamePrefix r' = containerNamePrefix r
    /\ env r' = nullish newEnv []
    /\ preflightTimeoutMs r' = nullish newPreflight DEFAULT_PREFLIGHT_TIMEOUT_MS
    /\ pullTimeoutMs r' = nullish newPull DEFAULT_PULL_TIMEOUT_MS
    /\ readOnly (mount r') = nullish newReadOnly false.
Proof.
  intros H. apply resolve_inr_iff in H as (Hen & u & Hu & Hacc & ->).
  eexists. split.
  - apply resolve_inr_iff. split; [exact Hen |]. exists u.
    split; [exact Hu |]. split; [| reflexivity].
    destruct (c_mount config); exact Hacc.
  - simpl. destruct (c_mount config); repeat split; reflexivity.
Qed.

Lemma unchecked_fields_are_accepted_witness :
  exists r',
    resolveSandboxConfig Sample.path_resolve Sample.noHost
      (withUnchecked None (Some NaN) (Some (ofZ (-1))) (Some (js "")) (Some true)
         (Sample.alpine (ofZ 1000) (ofZ 1000))) = inr r'
    /\ image r' = js "alpine:3.19" /\ network r' = js "none"
    /\ resources r' = DEFAULT_LIMITS
    /\ user r' = {| uid := ofZ 1000; gid := ofZ 1000 |}
    /\ containerPath (mount r') = js "/workspace"
    /\ workdir r' = js "/workspace"
    /\ containerNamePrefix r' = js "accomplish-sandbox"
    /\ env r' = []
    /\ preflightTimeoutMs r' = NaN
    /\ pullTimeoutMs r' = ofZ (-1)
    /\ readOnly (mount r') = true.
Proof.
  exact (unchecked_fields_are_accepted Sample.path_resolve Sample.noHost
           (Sample.alpine (ofZ 1000) (ofZ 1000)) _
           None (Some NaN) (Some (ofZ (-1))) (Some (js "")) (Some true) eq_refl).
Defined.

(** The same configuration with a user mapping, or none. *)
Definition withUser (u : option SandboxUserMapping) (config : SandboxConfig)
  : SandboxConfig :=
  {| c_enabled := c_enabled config;
     c_image := c_image config;
     c_network := c_network config;
     c_resources := c_resources config;
     c_user := u;
     c_mount := c_mount config;
     c_workdir := c_workdir config;
     c_env := c_env config;
     c_preflightTimeoutMs := c_preflightTimeoutMs config;
     c_pullTimeoutMs := c_pullTimeoutMs config;
     c_containerNamePrefix := c_containerNamePrefix config |}.

(** X3. When the configuration gives no user mapping, is enabled and has a
    valid image: on a host without [getuid] or without [getgid] resolution
    fails with the identity-unavailable error; on a host whose uid is 0 it
    fails with the host-is-root error; on any other host it behaves as if
    the host's uid and gid had been given explicitly (so a host gid of 0 is
    rejected like an explicit one). *)
Theorem host_identity_gate path_resolve host config :
  c_user config = None ->
  c_enabled config = true ->
  validateDockerImageName (c_image config) = ok tt ->
  match getuid host, getgid host with
  | Some u, Some g =>
      if is_zero u
      then resolveSandboxConfig path_resolve host config = inl HostUserIsRoot
      else resolveSandboxConfig path_resolve host config
           = resolveSandboxConfig path_resolve host
               (withUser (Some {| uid := u; gid := g |}) config)
  | _, _ =>
      resolveSandboxConfig path_resolve host config = inl IdentityUnavailable
  end.
Proof.
  intros Hu Hen Him. unfold resolveSandboxConfig, getHostUserMapping. simpl.
  rewrite Hu, Hen, Him. simpl.
  destruct (getuid host) as [u|], (getgid host) as [g|]; try reflexivity.
  destruct (is_zero u); reflexivity.
Qed.

Lemma host_identity_gate_witness :
  resolveSandboxConfig Sample.path_resolve
    {| getuid := Some (ofZ 0); getgid := Some (ofZ 20) |}
    (withUser None (Sample.alpine (ofZ 1) (ofZ 1))) = inl HostUserIsRoot.
Proof.
  exact (host_identity_gate Sample.path_resolve
           {| getuid := Some (ofZ 0); getgid := Some (ofZ 20) |}
           (withUser None (Sample.alpine (ofZ 1) (ofZ 1)))
           eq_refl eq_refl eq_refl).
Defined.

Lemma defaulted_asConfig path_resolve config u :
  (forall p, path_resolve (path_resolve p) = path_resolve p) ->
  defaulted path_resolve (asConfig (defaulted path_resolve config u))
    (user (defaulted path_resolve config u))
  = defaulted path_resolve config u.
Proof.
  intros Hidem. unfold defaulted, asConfig. simpl. f_equal. f_equal.
  destruct (chain (c_mount config) p_hostPath) as [p|]; [| reflexivity].
  destruct (falsy p) eqn:E; [reflexivity |].
  destruct (falsy (path_resolve p)) eqn:E'.
  - by destruct (path_resolve p).
  - apply Hidem.
Qed.

(** X4. A resolved configuration can be resolved again: if [path.resolve]
    is idempotent, resolving the configuration that spells out every field
    of a resolved configuration succeeds, on any host, and returns that
    resolved configuration unchanged. *)
Theorem resolve_again path_resolve host host' config r :
  (forall p, path_resolve (path_resolve p) = path_resolve p) ->
  resolveSandboxConfig path_resolve host config = inr r ->
  resolveSandboxConfig path_resolve host' (asConfig r) = inr r.
Proof.
  intros Hidem H. apply resolve_inr_iff in H as (_ & u & _ & Hacc & ->).
  apply resolve_inr_iff. split; [reflexivity |].
  exists (user (defaulted path_resolve config u)). split; [reflexivity |].
  rewrite defaulted_asConfig by done. by split.
Qed.

Lemma resolve_again_witness :
  let r := defaulted Sample.path_resolve (Sample.alpine (ofZ 1000) (ofZ 1000))
             {| uid := ofZ 1000; gid := ofZ 1000 |} in
  resolveSandboxConfig Sample.path_resolve
    {| getuid := Some (ofZ 0); getgid := None |} (asConfig r) = inr r.
Proof.
  exact (resolve_again Sample.path_resolve Sample.noHost
           {| getuid := Some (ofZ 0); getgid := None |}
           (Sample.alpine (ofZ 1000) (ofZ 1000)) _
           (fun p => eq_refl) eq_refl).
Defined.

End ResolveProps.

(** ** Generated container names *)

Module NameProps.

Import Config Utils.

Lemma hexDigit_alnum n : (n < 16)%N -> isAlnum (hexDigit n) = true.
Proof.
  intros Hn. unfold hexDigit, isAlnum.
  destruct (n <? 10)%N eqn:E.
  - apply N.ltb_lt in E.
    assert ((48 <=? 48 + n)%N = true) as -> by (apply N.leb_le; lia).
    assert ((48 + n <=? 57)%N = true) as -> by (apply N.leb_le; lia).
    by rewrite orb_true_r.
  - apply N.ltb_ge in E.
    assert ((97 <=? 87 + n)%N = true) as -> by (apply N.leb_le; lia).
    assert ((87 + n <=? 122)%N = true) as -> by (apply N.leb_le; lia).
    reflexivity.
Qed.

Lemma hexDigit_inj n m :
  (n < 16)%N -> (m < 16)%N -> hexDigit n = hexDigit m -> n = m.
Proof.
  unfold hexDigit. intros Hn Hm.
  destruct (n <? 10)%N eqn:En, (m <? 10)%N eqn:Em;
    rewrite ?N.ltb_lt, ?N.ltb_ge in *; lia.
Qed.

Lemma toHex_nameChars random : forallb isNameChar (toHex random) = true.
Proof.
  induction random as [|b random IH]; [reflexivity |].
  unfold toHex in *. simpl. rewrite IH. unfold isNameChar.
  rewrite !hexDigit_alnum; [reflexivity | |].
  - apply N.mod_lt. lia.
  - apply N.Div0.div_lt_upper_bound. change (16 * 16)%N with 256%N.
    apply N.mod_lt. lia.
Qed.

Lemma toHex_length random : length (toHex random) = 2 * length random.
Proof.
  induction random as [|b random IH]; [reflexivity |].
  unfold toHex in *. simpl. rewrite IH. lia.
Qed.

Lemma toHex_inj r1 r2 :
  Forall (fun b => (b < 256)%N) r1 ->
  Forall (fun b => (b < 256)%N) r2 ->
  toHex r1 = toHex r2 -> r1 = r2.
Proof.
  intros H1. revert r2. induction H1 as [|b r1 Hb H1 IH]; intros r2 H2.
  - destruct H2; [done | discriminate].
  - destruct H2 as [|b' r2 Hb' H2]; [discriminate |].
    unfold toHex. simpl. intros [= Hhi Hlo Hrest].
    rewrite !N.mod_small in Hhi by done.
    apply hexDigit_inj in Hhi; [| by apply N.Div0.div_lt_upper_bound ..].
    apply hexDigit_inj in Hlo; [| apply N.mod_lt; lia ..].
    f_equal; [| by apply IH].
    rewrite (N.div_mod b 16), (N.div_mod b' 16) by lia. by rewrite Hhi, Hlo.
Qed.

(** The digit [hexDigit] gives is the one at that place of the lower-case
    hexadecimal alphabet. *)
Lemma hexDigit_char n :
  (n < 16)%N -> js "0123456789abcdef" !! N.to_nat n = Some (hexDigit n).
Proof.
  intros Hn. rewrite <- (N2Nat.id n) at 2.
  assert (Hm : N.to_nat n < 16) by lia.
  generalize dependent (N.to_nat n). clear Hn. intros m Hm.
  do 16 (destruct m as [|m]; [reflexivity |]). lia.
Qed.

Lemma toHex_lookup random i b :
  random !! i = Some b ->
  toHex random !! (2 * i) = Some (hexDigit ((b mod 256) / 16))
  /\ toHex random !! (2 * i + 1) = Some (hexDigit (b mod 16)).
Proof.
  revert i. induction random as [|x random IH]; intros i Hi; [done |].
  destruct i as [|i].
  - injection Hi as ->. done.
  - simpl in Hi. destruct (IH i Hi) as [H0 H1].
    replace (2 * S i) with (S (S (2 * i))) by lia.
    replace (S (S (2 * i)) + 1) with (S (S (2 * i + 1))) by lia.
    done.
Qed.

(** X5. The name generated from a prefix that passes
    [validateContainerNamePrefix] passes it too: it starts with an
    alphanumeric and continues with alphanumerics, [_], [.] or [-] only.  It
    is the prefix, a hyphen and a suffix of two characters per random byte:
    for a byte [b], the digits of [b / 16] and of [b mod 16] in the
    lower-case hexadecimal alphabet. *)
Theorem generated_name_is_valid random prefix :
  validateContainerNamePrefix prefix = ok tt ->
  validateContainerNamePrefix (createSandboxContainerName random prefix) = ok tt
  /\ length (createSandboxContainerName random prefix)
     = length prefix + 1 + 2 * length random
  /\ prefix `prefix_of` createSandboxContainerName random prefix
  /\ exists suffix,
      createSandboxContainerName random prefix = prefix ++ js "-" ++ suffix
      /\ length suffix = 2 * length random
      /\ forall i b,
          random !! i = Some b ->
          (b < 256)%N ->
          suffix !! (2 * i) = js "0123456789abcdef" !! N.to_nat (b / 16)
          /\ suffix !! (2 * i + 1)
             = js "0123456789abcdef" !! N.to_nat (b mod 16).
Proof.
  intros Hvalid.
  assert (Hsuffix : exists suffix,
    createSandboxContainerName random prefix = prefix ++ js "-" ++ suffix
    /\ length suffix = 2 * length random
    /\ forall i b,
        random !! i = Some b ->
        (b < 256)%N ->
        suffix !! (2 * i) = js "0123456789abcdef" !! N.to_nat (b / 16)
        /\ suffix !! (2 * i + 1)
           = js "0123456789abcdef" !! N.to_nat (b mod 16)).
  { exists (toHex random). split; [reflexivity |].
    split; [apply toHex_length |].
    intros i b Hi Hb. destruct (toHex_lookup random i b Hi) as [H0 H1].
    rewrite N.mod_small in H0 by done.
    rewrite !hexDigit_char; [by split | |].
    - apply N.mod_lt. lia.
    - by apply N.Div0.div_lt_upper_bound. }
  revert Hvalid.
  unfold validateContainerNamePrefix, createSandboxContainerName.
  destruct prefix as [|c rest]; [discriminate |]. simpl.
  destruct (isAlnum c) eqn:Hc; [| discriminate]. simpl.
  destruct (forallb isNameChar rest) eqn:Hrest; [| discriminate]. simpl.
  intros _. split; [| split; [| split]].
  - rewrite forallb_app, Hrest. simpl. by rewrite toHex_nameChars.
  - rewrite length_app. simpl. rewrite toHex_length. lia.
  - by exists (45%N :: toHex random).
  - exact Hsuffix.
Qed.

Lemma generated_name_is_valid_witness :
  validateContainerNamePrefix
    (createSandboxContainerName Sample.random1 (js "accomplish-sandbox")) = ok tt
  /\ length (createSandboxContainerName Sample.random1 (js "accomplish-sandbox"))
     = length (js "accomplish-sandbox") + 1 + 2 * length Sample.random1
  /\ js "accomplish-sandbox"
     `prefix_of` createSandboxContainerName Sample.random1 (js "accomplish-sandbox")
  /\ exists suffix,
      createSandboxContainerName Sample.random1 (js "accomplish-sandbox")
      = js "accomplish-sandbox" ++ js "-" ++ suffix
      /\ length suffix = 2 * length Sample.random1
      /\ forall i b,
          Sample.random1 !! i = Some b ->
          (b < 256)%N ->
          suffix !! (2 * i) = js "0123456789abcdef" !! N.to_nat (b / 16)
          /\ suffix !! (2 * i + 1)
             = js "0123456789abcdef" !! N.to_nat (b mod 16).
Proof.
  exact (generated_name_is_valid Sample.random1 (js "accomplish-sandbox") eq_refl).
Defined.

(** X6. Different random bytes give different names: for byte lists (every
    element below 256), two names generated from the same prefix are equal
    only if the bytes are. *)
Theorem generated_name_determines_bytes random1 random2 prefix :
  Forall (fun b => (b < 256)%N) random1 ->
  Forall (fun b => (b < 256)%N) random2 ->
  createSandboxContainerName random1 prefix
  = createSandboxContainerName random2 prefix ->
  random1 = random2.
Proof.
  intros H1 H2 Heq. unfold createSandboxContainerName in Heq.
  apply app_inv_head in Heq. apply app_inv_head in Heq. by apply toHex_inj.
Qed.

Lemma sample_bytes : Forall (fun b => (b < 256)%N) Sample.random1.
Proof. repeat constructor. Qed.

Lemma generated_name_determines_bytes_witness :
  Forall (fun b => (b < 256)%N) Sample.random1
  /\ createSandboxContainerName Sample.random1 (js "accomplish-sandbox")
     = js "accomplish-sandbox-0102ff10000000ab"
  /\ Sample.random1 = [1; 2; 255; 16; 0; 0; 0; 171]%N.
Proof.
  split; [exact sample_bytes |]. split; [reflexivity |].
  exact (generated_name_determines_bytes Sample.random1
           [1; 2; 255; 16; 0; 0; 0; 171]%N (js "accomplish-sandbox")
           sample_bytes sample_bytes eq_refl).
Defined.

End NameProps.

(** ** The registry as a set, handler installation, the other triggers *)

Module HandlerProps.

Import Utils LifecycleProps.

(** A use of the registry: [registerSandboxCleanupCallback] or
    [unregisterSandboxCleanupCallback]. *)
Inductive RegistryOp :=
| Add (c : Callback)
| Delete (c : Callback).

Definition applyOp (st : Machine) (op : RegistryOp) : Machine :=
  match op with
  | Add c => registerSandboxCleanupCallback c st
  | Delete c => unregisterSandboxCleanupCallback c st
  end.

(** The time since which a callback is registered, after one more use of
    the registry at time [now]: registering a callback that is registered
    keeps its time, unregistering forgets it. *)
Definition stampAfter (op : RegistryOp) (now : nat) (c : Callback)
    (stamp : option nat) : option nat :=
  match op with
  | Add c' => if decide (c' = c) then Some (default now stamp) else stamp
  | Delete c' => if decide (c' = c) then None else stamp
  end.

(** The time since which [c] is registered after the uses [ops], the first
    of which happens at time [now]; [None] when it is not registered. *)
Fixpoint registeredSince (c : Callback) (now : nat) (ops : list RegistryOp)
    (stamp : option nat) : option nat :=
  match ops with
  | [] => stamp
  | op :: rest => registeredSince c (S now) rest (stampAfter op now c stamp)
  end.

(** [a] is registered since an earlier time than [b]. *)
Definition earlier (stamp : Callback -> option nat) (a b : Callback) : Prop :=
  exists ta tb, stamp a = Some ta /\ stamp b = Some tb /\ ta < tb.

Fixpoint increasing (stamp : Callback -> option nat) (l : list Callback)
  : Prop :=
  match l with
  | [] => True
  | a :: rest => (forall b, b ∈ rest -> earlier stamp a b) /\ increasing stamp rest
  end.

(** The registry lists the registered callbacks by the time of their
    registration. *)
Definition ordered (now : nat) (l : list Callback)
    (stamp : Callback -> option nat) : Prop :=
  (forall c, c ∈ l <-> is_Some (stamp c))
  /\ (forall c t, stamp c = Some t -> t < now)
  /\ increasing stamp l.

Lemma increasing_ext stamp stamp' l :
  (forall c, c ∈ l -> stamp' c = stamp c) ->
  increasing stamp l -> increasing stamp' l.
Proof.
  induction l as [|a l IH]; intros Hext; [done |]. simpl.
  intros [Ha Hl]. split.
  - intros b Hb. destruct (Ha b Hb) as (ta & tb & H1 & H2 & Hlt).
    exists ta, tb. rewrite !Hext; [done | by right | left].
  - apply IH; [| done]. intros c Hc. apply Hext. by right.
Qed.

Lemma increasing_filter stamp (P : Callback -> Prop)
    `{!forall c, Decision (P c)} l :
  increasing stamp l -> increasing stamp (filter P l).
Proof.
  induction l as [|a l IH]; [done |]. simpl. intros [Ha Hl].
  rewrite filter_cons. destruct (decide (P a)); [| by apply IH].
  simpl. split; [| by apply IH].
  intros b Hb. apply list_elem_of_filter in Hb as [_ Hb]. by apply Ha.
Qed.

Lemma increasing_snoc stamp l c :
  increasing stamp l ->
  (forall a, a ∈ l -> earlier stamp a c) ->
  increasing stamp (l ++ [c]).
Proof.
  induction l as [|a l IH]; simpl; intros Hl Hc.
  - split; [| done]. intros b Hb. by apply elem_of_nil in Hb.
  - destruct Hl as [Ha Hl]. split.
    + intros b [Hb | Hb]%elem_of_app; [by apply Ha |].
      apply list_elem_of_singleton in Hb as ->. apply Hc. left.
    + apply IH; [done |]. intros x Hx. apply Hc. by right.
Qed.

Lemma increasing_lookup stamp l i j a b :
  increasing stamp l ->
  l !! i = Some a -> l !! j = Some b -> i < j -> earlier stamp a b.
Proof.
  revert i j. induction l as [|x l IH]; intros i j Hl Hi Hj Hlt; [done |].
  destruct Hl as [Hx Hl]. destruct j as [|j]; [lia |].
  destruct i as [|i]; simpl in *.
  - injection Hi as ->. apply Hx. by eapply list_elem_of_lookup_2.
  - apply (IH i j); [done .. | lia].
Qed.

Lemma ordered_step now st stamp op :
  ordered now (cleanupCallbacks st) stamp ->
  ordered (S now) (cleanupCallbacks (applyOp st op))
    (fun c => stampAfter op now c (stamp c)).
Proof.
  intros (Hin & Hbound & Hinc). destruct op as [c'|c']; simpl.
  - unfold registerSandboxCleanupCallback. case_decide as Hc'.
    + assert (Hsame : forall c,
        (if decide (c' = c) then Some (default now (stamp c)) else stamp c)
        = stamp c).
      { intros c. case_decide as E; [| done]. subst c.
        apply Hin in Hc' as [t Ht]. by rewrite Ht. }
      split; [| split].
      * intros c. by rewrite Hsame.
      * intros c t. rewrite Hsame. intros Ht. apply Hbound in Ht. lia.
      * eapply increasing_ext; [| exact Hinc]. intros c _. apply Hsame.
    + assert (Hnone : stamp c' = None).
      { destruct (stamp c') as [t|] eqn:E; [| done].
        destruct Hc'. apply Hin. by rewrite E. }
      simpl. split; [| split].
      * intros c. rewrite elem_of_app, list_elem_of_singleton, Hin.
        case_decide as E.
        -- subst c. split; [by eauto | auto].
        -- split; [intros [? | ?]; [done | congruence] | auto].
      * intros c t. case_decide as E.
        -- subst c. rewrite Hnone. simpl. intros [= <-]. lia.
        -- intros Ht. apply Hbound in Ht. lia.
      * apply increasing_snoc.
        -- eapply increasing_ext; [| exact Hinc]. intros c Hc.
           case_decide as E; [| done]. by subst c.
        -- intros a Ha. assert (a <> c') by (by intros ->).
           apply Hin in Ha as Hs. destruct Hs as [ta Hta].
           exists ta, now. rewrite decide_False by done.
           rewrite decide_True by done. rewrite Hnone. simpl.
           split; [done |]. split; [done |]. by eapply Hbound.
  - split; [| split].
    + intros c. rewrite list_elem_of_filter, Hin. case_decide as E.
      * subst c. split; [by intros [? _] | by intros [? ?]].
      * split; [by intros [_ ?] | intros ?; split; [congruence | done]].
    + intros c t. case_decide as E; [done |].
      intros Ht. apply Hbound in Ht. lia.
    + eapply increasing_ext; [| by apply increasing_filter].
      intros c [Hc _]%list_elem_of_filter. by rewrite decide_False by done.
Qed.

Lemma ordered_ops ops now st stamp :
  ordered now (cleanupCallbacks st) stamp ->
  ordered (now + length ops) (cleanupCallbacks (fold_left applyOp ops st))
    (fun c => registeredSince c now ops (stamp c)).
Proof.
  revert now st stamp. induction ops as [|op ops IH]; intros now st stamp H.
  - simpl. by rewrite Nat.add_0_r.
  - simpl. replace (now + S (length ops)) with (S now + length ops) by lia.
    apply (IH (S now) (applyOp st op)
              (fun c => stampAfter op now c (stamp c))).
    by apply ordered_step.
Qed.

Lemma applyOps_frame ops st :
  cleanupInProgress (fold_left applyOp ops st) = cleanupInProgress st
  /\ trace (fold_left applyOp ops st) = trace st
  /\ heap (fold_left applyOp ops st) = heap st.
Proof.
  revert st. induction ops as [|op ops IH]; intros st; [done |].
  simpl. destruct (IH (applyOp st op)) as (-> & -> & ->).
  destruct op as [c|c]; simpl; [| done].
  unfold registerSandboxCleanupCallback. by case_decide.
Qed.

(** X7. The registry is a set kept in insertion order.  After any
    sequence of registrations and unregistrations on an empty registry, the
    registry holds, without duplicates, exactly the callbacks that are
    registered; a callback stands before another exactly when it is
    registered since an earlier time (registering a registered callback
    again does not move it, unregistering and registering it again puts it
    at the end); and a cleanup pass started then invokes the callbacks in
    that order. *)
Theorem callbacks_run_in_registration_order body fuel ops st :
  cleanupCallbacks st = [] ->
  cleanupInProgress st = false ->
  let st1 := fold_left applyOp ops st in
  let registry := cleanupCallbacks st1 in
  let since c := registeredSince c 0 ops None in
  NoDup registry
  /\ (forall c, c ∈ registry <-> is_Some (since c))
  /\ (forall i j a b,
         registry !! i = Some a -> registry !! j = Some b ->
         (i < j <-> exists ta tb,
                      since a = Some ta /\ since b = Some tb /\ ta < tb))
  /\ exists st2,
      runCleanup body (S fuel) st1 = Some st2
      /\ ran st2 = ran st ++ registry.
Proof.
  intros Hempty Hidle st1 registry since.
  assert (Hord : ordered (0 + length ops) registry since).
  { apply (ordered_ops ops 0 st (fun _ => None)). rewrite Hempty.
    split; [| split]; [| done | done].
    intros c. split; [by intros ?%elem_of_nil | by intros [? ?]]. }
  destruct Hord as (Hin & _ & Hinc).
  assert (Hlt : forall i j a b,
    registry !! i = Some a -> registry !! j = Some b -> i < j ->
    earlier since a b)
    by (intros i j a b; by apply increasing_lookup).
  assert (Hirr : forall a, ~ earlier since a a).
  { intros a (ta & tb & Ha & Hb & Hab). rewrite Ha in Hb.
    injection Hb as ->. lia. }
  split; [| split; [done | split]].
  - apply NoDup_alt. intros i j x Hi Hj.
    destruct (Nat.lt_trichotomy i j) as [H | [H | H]]; [| done |].
    + destruct (Hirr x). by apply (Hlt i j).
    + destruct (Hirr x). by apply (Hlt j i).
  - intros i j a b Hi Hj. split; [by apply Hlt |].
    intros (ta & tb & Ha & Hb & Hab).
    destruct (Nat.lt_trichotomy i j) as [H | [H | H]]; [done | |].
    + subst j. rewrite Hi in Hj. injection Hj as <-.
      rewrite Ha in Hb. injection Hb as ->. lia.
    + destruct (Hlt j i b a Hj Hi H) as (tb' & ta' & Hb' & Ha' & Hba).
      rewrite Ha in Ha'. rewrite Hb in Hb'.
      injection Ha' as <-. injection Hb' as <-. lia.
  - destruct (applyOps_frame ops st) as (Hflag & Htrace & _).
    fold st1 in Hflag, Htrace.
    destruct (pass_spec body fuel st1) as (st2 & Hrun & _ & Hran & _);
      [by rewrite Hflag |].
    exists st2. split; [done |]. rewrite Hran. unfold ran, registry.
    by rewrite Htrace.
Qed.

(** Two callbacks, the first of which is unregistered and registered
    again. *)
Lemma callbacks_run_in_registration_order_witness :
  let ops := [Add 7; Add 8; Add 7; Delete 7; Add 7] in
  let st1 := fold_left applyOp ops (loaded ∅) in
  let registry := cleanupCallbacks st1 in
  let since c := registeredSince c 0 ops None in
  registry = [8; 7]
  /\ since 8 = Some 1
  /\ since 7 = Some 4
  /\ NoDup registry
  /\ (forall c, c ∈ registry <-> is_Some (since c))
  /\ (forall i j a b,
         registry !! i = Some a -> registry !! j = Some b ->
         (i < j <-> exists ta tb,
                      since a = Some ta /\ since b = Some tb /\ ta < tb))
  /\ exists st2,
      runCleanup reentrantBody 1 st1 = Some st2
      /\ ran st2 = ran (loaded ∅) ++ registry.
Proof.
  split; [reflexivity |]. split; [reflexivity |]. split; [reflexivity |].
  exact (callbacks_run_in_registration_order reentrantBody 0
           [Add 7; Add 8; Add 7; Delete 7; Add 7] (loaded ∅)
           eq_refl eq_refl).
Defined.



(** The handler of a signal on an object and its conventional exit code. *)
Definition handlerOf (s : Signal) (t : Target) : Listener :=
  match s with SIGINT => onSigint t | SIGTERM => onSigterm t end.

Definition conventionalCode (s : Signal) : Z :=
  match s with SIGINT => 130 | SIGTERM => 143 end.

(** What no code of the module changes once handlers are installed: the set
    of objects that have them, and the exit listeners. *)
Definition frame (st st' : Machine) : Prop :=
  registeredProcesses st' = registeredProcesses st
  /\ forall t, listenersOf t exit st' = listenersOf t exit st.

Definition framed (rc : Machine -> option Machine) : Prop :=
  forall st st', rc st = Some st' -> frame st st'.

Lemma frame_refl st : frame st st.
Proof. by split. Qed.

Lemma frame_trans st1 st2 st3 : frame st1 st2 -> frame st2 st3 -> frame st1 st3.
Proof.
  intros [Hr Hl] [Hr' Hl']. split; [congruence |].
  intros t. by rewrite Hl', Hl.
Qed.

Lemma frame_same_heap st st' :
  registeredProcesses st' = registeredProcesses st ->
  heap st' = heap st -> frame st st'.
Proof. intros Hr Hh. split; [done |]. intros t. unfold listenersOf. by rewrite Hh. Qed.

Lemma signalTail_registered self s code t st1 :
  registeredProcesses (signalTail self s code t st1).1 = registeredProcesses st1.
Proof.
  unfold signalTail, exitProcess.
  destruct (isNumber (exitCodeOf t st1)); repeat case_match; reflexivity.
Qed.

(** The tail of a signal handler changes the listeners of its own signal
    on its own object and no other listeners. *)
Lemma signalTail_other_listeners self s code t st1 t' e :
  e <> signal s \/ t' <> t ->
  listenersOf t' e (signalTail self s code t st1).1 = listenersOf t' e st1.
Proof.
  intros Hne. unfold listenersOf. rewrite signalTail_heap.
  destruct (decide (t' = t)) as [-> | Ht].
  - destruct Hne as [He | ?]; [| done].
    rewrite lookup_alter_eq.
    destruct (isNumber (exitCodeOf t st1)).
    + destruct (heap st1 !! t); simpl; [| done].
      destruct s, e as [|[]]; simpl; try done; by destruct He.
    + rewrite lookup_alter_eq. destruct (heap st1 !! t) as [p|]; simpl; [| done].
      destruct s, e as [|[]]; simpl; try done; by destruct He.
  - rewrite lookup_alter_ne by done.
    destruct (isNumber (exitCodeOf t st1)); [done |].
    by rewrite lookup_alter_ne.
Qed.

Lemma signalTail_frame self s code t st1 :
  frame st1 (signalTail self s code t st1).1.
Proof.
  split; [apply signalTail_registered |].
  intros t'. apply signalTail_other_listeners. by left.
Qed.

(** What the tail of a signal handler does last: it re-raises the signal
    when the object has a working [kill] and a pid, and calls [exit] with the
    exit code, by then a number, otherwise. *)
Lemma signalTail_outcome self s code t st1 p :
  heap st1 !! t = Some p ->
  match kill p, pid p with
  | Some KillReturns, Some n =>
      (signalTail self s code t st1).2 = Normal
      /\ trace (signalTail self s code t st1).1 = trace st1 ++ [Killed t n s]
  | _, _ =>
      (signalTail self s code t st1).2 = Abrupt
      /\ exists n,
          exitCodeOf t (signalTail self s code t st1).1 = Code n
          /\ trace (signalTail self s code t st1).1
             = trace st1 ++ [Exited t (Code n)]
  end.
Proof.
  intros Hp. unfold signalTail.
  set (st2 := if isNumber (exitCodeOf t st1) then st1 else _).
  set (st3 := removeListener t (signal s) self st2).
  assert (H3 : exists p3 n,
             heap st3 !! t = Some p3 /\ kill p3 = kill p /\ pid p3 = pid p
             /\ exitCode p3 = Code n).
  { unfold st3, removeListener, st2, exitCodeOf. rewrite Hp. simpl.
    destruct (exitCode p) as [| str | n] eqn:E; simpl;
      rewrite ?lookup_alter_eq, ?Hp; simpl;
      eexists _, _; (split; [reflexivity |]); destruct s; simpl; eauto. }
  destruct H3 as (p3 & n & H3 & Hk & Hpid & Hc).
  assert (Hexit : exitProcess t st3 = (log (Exited t (Code n)) st3, Abrupt)).
  { unfold exitProcess, exitCodeOf. by rewrite H3, Hc. }
  assert (Htrace : trace st3 = trace st1).
  { unfold st3, st2. by destruct (isNumber (exitCodeOf t st1)). }
  assert (Hcode : forall e, exitCodeOf t (log e st3) = Code n).
  { intros e. unfold exitCodeOf. change (heap (log e st3)) with (heap st3).
    by rewrite H3. }
  rewrite H3, Hk, Hpid.
  destruct (kill p) as [[]|], (pid p) as [m|]; rewrite ?Hexit;
    cbn [fst snd]; rewrite ?Hcode; cbn [trace log]; rewrite Htrace; eauto.
Qed.

Section Triggers.

Variable body : Callback -> list Action.

Lemma call_handlerOf rc s t st :
  call rc (handlerOf s t) st
  = onSignal rc (handlerOf s t) s (conventionalCode s) t st.
Proof. by destruct s. Qed.

(** A signal delivered while no pass is running, to an object that carries
    the handler of that signal: a pass, then the tail of the handler. *)
Lemma signal_idle fuel s t st :
  cleanupInProgress st = false ->
  listenersOf t (signal s) st = [handlerOf s t] ->
  exists st1,
    runCleanup body (S fuel) st = Some st1
    /\ deliver body (S fuel) t (signal s) st
       = Some (signalTail (handlerOf s t) s (conventionalCode s) t st1)
    /\ cleanupInProgress st1 = false
    /\ ran st1 = ran st ++ cleanupCallbacks st
    /\ heapEvolves (heap st) (heap st1).
Proof.
  intros Hf Hl.
  destruct (pass_spec body fuel st Hf) as (st1 & Hrun & Hf1 & Hr1 & Hh1 & _).
  exists st1. split; [done |]. split; [| done].
  unfold deliver, emit. rewrite Hl, callAll_single, call_handlerOf.
  by rewrite onSignal_eq, Hrun.
Qed.

Section Framed.

Variable rc : Machine -> option Machine.
Hypothesis rc_framed : framed rc.

Lemma call_frame l st st' c : call rc l st = Some (st', c) -> frame st st'.
Proof.
  destruct l as [t | t | t]; unfold call; rewrite ?onSignal_eq;
    destruct (rc st) as [st1|] eqn:E; simpl; try discriminate.
  - intros [= <- _]. by apply rc_framed.
  - intros [= H]. eapply frame_trans; [by apply rc_framed |].
    replace st' with (signalTail (onSigint t) SIGINT 130 t st1).1 by (by rewrite H).
    apply signalTail_frame.
  - intros [= H]. eapply frame_trans; [by apply rc_framed |].
    replace st' with (signalTail (onSigterm t) SIGTERM 143 t st1).1 by (by rewrite H).
    apply signalTail_frame.
Qed.

Lemma callAll_frame ls st st' c : callAll rc ls st = Some (st', c) -> frame st st'.
Proof.
  revert st. induction ls as [|l ls IH]; intros st; simpl.
  - intros [= <- _]. apply frame_refl.
  - destruct (call rc l st) as [[st1 c1]|] eqn:E; simpl; [| discriminate].
    apply call_frame in E. destruct c1.
    + intros H. eapply frame_trans; [exact E | by apply IH].
    + by intros [= <- _].
Qed.

Lemma exec_frame acts st st' c : exec rc acts st = Some (st', c) -> frame st st'.
Proof.
  revert st. induction acts as [|a acts IH]; intros st; simpl.
  - intros [= <- _]. apply frame_refl.
  - destruct a as [c0 | c0 | t e |].
    + intros H. eapply frame_trans; [| by apply IH].
      apply frame_same_heap; unfold registerSandboxCleanupCallback;
        by case_decide.
    + intros H. eapply frame_trans; [| by apply IH]. by apply frame_same_heap.
    + destruct (emit rc t e st) as [[st1 c1]|] eqn:E; simpl; [| discriminate].
      apply callAll_frame in E. destruct c1.
      * intros H. eapply frame_trans; [exact E | by apply IH].
      * by intros [= <- _].
    + intros [= <- _]. apply frame_refl.
Qed.

Lemma forEachCallback_frame callbacks st st' :
  forEachCallback body rc callbacks st = Some st' -> frame st st'.
Proof.
  revert st. induction callbacks as [|c callbacks IH]; intros st; simpl.
  - intros [= <-]. apply frame_refl.
  - destruct (exec rc (body c) (log (Ran c) st)) as [[st1 r]|] eqn:E;
      simpl; [| discriminate].
    apply exec_frame in E. intros H.
    eapply frame_trans; [| by apply IH].
    eapply frame_trans; [| exact E]. by apply frame_same_heap.
Qed.

End Framed.

Lemma runCleanup_framed fuel : framed (runCleanup body fuel).
Proof.
  induction fuel as [|fuel IH]; intros st st'.
  - simpl. destruct (cleanupInProgress st); [| discriminate].
    intros [= <-]. apply frame_refl.
  - rewrite runCleanup_unfold. destruct (cleanupInProgress st).
    + intros [= <-]. apply frame_refl.
    + destruct (forEachCallback body _ _ _) as [st2|] eqn:E; simpl; [| discriminate].
      intros [= <-]. apply forEachCallback_frame in E; [| exact IH].
      eapply frame_trans; [| eapply frame_trans; [exact E |]];
        by apply frame_same_heap.
Qed.

Lemma deliver_frame fuel t e st st' c :
  deliver body fuel t e st = Some (st', c) -> frame st st'.
Proof. apply callAll_frame, runCleanup_framed. Qed.

(** X9. A termination signal delivered, while no pass is running, to an
    object that carries the termination handler terminates; it invokes every
    registered callback exactly once, in registration order; a numeric exit
    code set before is unchanged and otherwise, when no callback emits an
    event, the exit code becomes 143; the termination handler is removed from
    the object, while the interrupt handler and the exit handler of the
    object stay as the callbacks left them. *)
Theorem sigterm_runs_cleanup_and_sets_exit_code fuel t st :
  cleanupInProgress st = false ->
  NoDup (cleanupCallbacks st) ->
  listenersOf t (signal SIGTERM) st = [onSigterm t] ->
  exists afterCleanup st' completion,
    runCleanup body (S fuel) st = Some afterCleanup
    /\ deliver body (S fuel) t (signal SIGTERM) st = Some (st', completion)
    /\ ran st' = ran st ++ cleanupCallbacks st
    /\ (forall c,
           timesRun c st'
           = timesRun c st + (if decide (c ∈ cleanupCallbacks st) then 1 else 0))
    /\ (forall n, exitCodeOf t st = Code n -> exitCodeOf t st' = Code n)
    /\ ((forall c t' e, c ∈ cleanupCallbacks st -> Emit t' e ∉ body c) ->
        isNumber (exitCodeOf t st) = false ->
        exitCodeOf t st' = Code (ofZ 143))
    /\ listenersOf t (signal SIGTERM) st' = []
    /\ listenersOf t (signal SIGINT) st'
       = listenersOf t (signal SIGINT) afterCleanup
    /\ listenersOf t exit st' = listenersOf t exit st.
Proof.
  intros Hf Hnd Hl.
  destruct (signal_idle fuel SIGTERM t st Hf Hl)
    as (st1 & Hrun & Hdel & Hf1 & Hr1 & Hh1).
  simpl in Hdel.
  destruct (signalTail (onSigterm t) SIGTERM 143 t st1) as [st' c] eqn:E.
  pose proof (signalTail_quiet (onSigterm t) SIGTERM 143 t st1) as [(_ & Hr' & Hh') _].
  pose proof (signalTail_listeners (onSigterm t) SIGTERM 143 t st1) as Hl'.
  pose proof (signalTail_other_listeners (onSigterm t) SIGTERM 143 t st1 t
                (signal SIGINT)) as Hint.
  pose proof (deliver_frame _ _ _ _ _ _ Hdel) as [_ Hexit].
  rewrite E in Hr', Hh', Hl', Hint. simpl in Hr', Hh', Hl', Hint.
  assert (Hp : exists p, heap st !! t = Some p).
  { unfold listenersOf in Hl. destruct (heap st !! t); [eauto | discriminate]. }
  destruct Hp as [p Hp].
  destruct (heapEvolves_present st st1 t p Hh1 Hp) as [p1 Hp1].
  pose proof (signalTail_exitCode (onSigterm t) SIGTERM 143 t st1 p1 Hp1) as Hc.
  rewrite E in Hc. simpl in Hc.
  exists st1, st', c. split; [done |]. split; [done |].
  split; [congruence |]. split.
  { intros cb. apply timesRun_app; [congruence | done]. }
  split.
  { intros n Hn. eapply heapEvolves_exitCode; [exact Hh' |].
    by eapply heapEvolves_exitCode. }
  split.
  { intros Hfree Hunset. rewrite Hc.
    assert (Hheap : heap st1 = heap st).
    { eapply pass_emitFree_heap; [done | | done].
      intros cb Hcb t' e. by apply Hfree. }
    unfold exitCodeOf in *. rewrite Hheap. by rewrite Hunset. }
  split.
  { rewrite Hl'. apply removeLast_singleton. rewrite <- Hl.
    by apply heapEvolves_listeners. }
  split; [apply Hint; by left | apply Hexit].
Qed.

(** X10. What a signal handler does after the cleanup pass: if the object
    has a pid and a [kill] that returns, the handler re-raises its signal
    with that pid and returns normally, without calling [exit]; in every
    other case (no [kill], no pid, or a [kill] that throws) it calls [exit]
    with the exit code of the object, which is a number by then. *)
Theorem signal_is_reraised_or_exit_is_called fuel s t st p :
  cleanupInProgress st = false ->
  listenersOf t (signal s) st = [handlerOf s t] ->
  heap st !! t = Some p ->
  exists afterCleanup st' completion,
    runCleanup body (S fuel) st = Some afterCleanup
    /\ deliver body (S fuel) t (signal s) st = Some (st', completion)
    /\ match kill p, pid p with
       | Some KillReturns, Some n =>
           completion = Normal
           /\ trace st' = trace afterCleanup ++ [Killed t n s]
       | _, _ =>
           completion = Abrupt
           /\ exists n,
               exitCodeOf t st' = Code n
               /\ trace st' = trace afterCleanup ++ [Exited t (Code n)]
       end.
Proof.
  intros Hf Hl Hp.
  destruct (signal_idle fuel s t st Hf Hl) as (st1 & Hrun & Hdel & _ & _ & Hh1).
  pose proof (Hh1 t) as Hev. rewrite Hp in Hev.
  destruct (heap st1 !! t) as [p1|] eqn:Hp1; [| contradiction].
  destruct Hev as (Hpid & Hkill & _).
  pose proof (signalTail_outcome (handlerOf s t) s (conventionalCode s) t st1 p1 Hp1)
    as Hout.
  rewrite Hkill, Hpid in Hout.
  destruct (signalTail (handlerOf s t) s (conventionalCode s) t st1) as [st' c].
  exists st1, st', c. split; [done |]. split; [done |]. exact Hout.
Qed.

(** X11. The exit event, delivered while no pass is running to an object
    that carries the exit handler, runs one cleanup pass and nothing else:
    every registered callback is invoked exactly once, the delivery returns
    normally, no [kill] or [exit] is called by the handler and, when no
    callback emits an event, no object is changed.  The exit handler stays
    installed, so a further exit event runs the registered callbacks
    again. *)
Theorem exit_event_runs_cleanup fuel t st :
  cleanupInProgress st = false ->
  NoDup (cleanupCallbacks st) ->
  listenersOf t exit st = [onExit t] ->
  exists st',
    runCleanup body (S fuel) st = Some st'
    /\ deliver body (S fuel) t exit st = Some (st', Normal)
    /\ (forall c,
           timesRun c st'
           = timesRun c st + (if decide (c ∈ cleanupCallbacks st) then 1 else 0))
    /\ ((forall c t' e, c ∈ cleanupCallbacks st -> Emit t' e ∉ body c) ->
        heap st' = heap st)
    /\ listenersOf t exit st' = [onExit t]
    /\ exists st'',
        deliver body (S fuel) t exit st' = Some (st'', Normal)
        /\ ran st'' = ran st ++ cleanupCallbacks st ++ cleanupCallbacks st'.
Proof.
  intros Hf Hnd Hl.
  destruct (pass_spec body fuel st Hf) as (st' & Hrun & Hf' & Hr & _).
  assert (Hdel : deliver body (S fuel) t exit st = Some (st', Normal)).
  { unfold deliver, emit. rewrite Hl, callAll_single. unfold call.
    by rewrite Hrun. }
  pose proof (deliver_frame _ _ _ _ _ _ Hdel) as [_ Hexit].
  assert (Hl' : listenersOf t exit st' = [onExit t]) by (by rewrite Hexit).
  exists st'. split; [done |]. split; [done |]. split.
  { intros c. by apply timesRun_app. }
  split.
  { intros Hfree. eapply pass_emitFree_heap; [done | | done].
    intros cb Hcb t' e. by apply Hfree. }
  split; [done |].
  destruct (pass_spec body fuel st' Hf') as (st'' & Hrun' & _ & Hr' & _).
  exists st''. split.
  - unfold deliver, emit. rewrite Hl', callAll_single. unfold call.
    by rewrite Hrun'.
  - by rewrite Hr', Hr, <- app_assoc.
Qed.

(** X12. Handlers are installed once per object and never again: after a
    signal has been handled, the handler of that signal is gone from the
    object, the object is still recorded as having handlers, and a further
    [ensureSandboxProcessCleanupHandlers] on it changes nothing, so the
    handler is not put back. *)
Theorem handled_signal_is_not_reinstalled fuel s t st :
  cleanupInProgress st = false ->
  listenersOf t (signal s) st = [handlerOf s t] ->
  t ∈ registeredProcesses st ->
  exists st' completion,
    deliver body (S fuel) t (signal s) st = Some (st', completion)
    /\ listenersOf t (signal s) st' = []
    /\ t ∈ registeredProcesses st'
    /\ ensureSandboxProcessCleanupHandlers t st' = st'
    /\ listenersOf t (signal s) (ensureSandboxProcessCleanupHandlers t st') = [].
Proof.
  intros Hf Hl Hreg.
  destruct (signal_idle fuel s t st Hf Hl) as (st1 & Hrun & Hdel & _ & _ & Hh1).
  pose proof (signalTail_listeners (handlerOf s t) s (conventionalCode s) t st1)
    as Hl'.
  destruct (signalTail (handlerOf s t) s (conventionalCode s) t st1) as [st' c].
  pose proof (deliver_frame _ _ _ _ _ _ Hdel) as [Hsame _].
  simpl in Hl'.
  assert (Hgone : listenersOf t (signal s) st' = []).
  { rewrite Hl'. apply removeLast_singleton. rewrite <- Hl.
    by apply heapEvolves_listeners. }
  assert (Hin : t ∈ registeredProcesses st') by (by rewrite Hsame).
  assert (Hens : ensureSandboxProcessCleanupHandlers t st' = st').
  { unfold ensureSandboxProcessCleanupHandlers. by rewrite decide_True. }
  exists st', c. rewrite Hens. by repeat split.
Qed.

End Triggers.

(** Two callbacks registered and handlers installed on an object with a
    pid and a working [kill]. *)
Definition withKill : Machine :=
  ensureSandboxProcessCleanupHandlers 0
    (registerSandboxCleanupCallback 8
       (registerSandboxCleanupCallback 7
          (loaded {[ 0 := newProcess Unset (Some (ofZ 4242)) (Some KillReturns) ]}))).

Lemma sigterm_runs_cleanup_and_sets_exit_code_witness :
  exists afterCleanup st' completion,
    runCleanup reentrantBody 1 twoCallbacks = Some afterCleanup
    /\ deliver reentrantBody 1 0 (signal SIGTERM) twoCallbacks
       = Some (st', completion)
    /\ ran st' = ran twoCallbacks ++ cleanupCallbacks twoCallbacks
    /\ (forall c,
           timesRun c st'
           = timesRun c twoCallbacks
             + (if decide (c ∈ cleanupCallbacks twoCallbacks) then 1 else 0))
    /\ (forall n, exitCodeOf 0 twoCallbacks = Code n -> exitCodeOf 0 st' = Code n)
    /\ ((forall c t' e,
            c ∈ cleanupCallbacks twoCallbacks -> Emit t' e ∉ reentrantBody c) ->
        isNumber (exitCodeOf 0 twoCallbacks) = false ->
        exitCodeOf 0 st' = Code (ofZ 143))
    /\ listenersOf 0 (signal SIGTERM) st' = []
    /\ listenersOf 0 (signal SIGINT) st'
       = listenersOf 0 (signal SIGINT) afterCleanup
    /\ listenersOf 0 exit st' = listenersOf 0 exit twoCallbacks.
Proof.
  exact (sigterm_runs_cleanup_and_sets_exit_code reentrantBody 0 0 twoCallbacks
           eq_refl twoCallbacks_NoDup eq_refl).
Defined.

Lemma signal_is_reraised_or_exit_is_called_witness :
  exists afterCleanup st' completion,
    runCleanup (fun _ => []) 1 withKill = Some afterCleanup
    /\ deliver (fun _ => []) 1 0 (signal SIGTERM) withKill = Some (st', completion)
    /\ completion = Normal
    /\ trace st' = trace afterCleanup ++ [Killed 0 (ofZ 4242) SIGTERM].
Proof.
  exact (signal_is_reraised_or_exit_is_called (fun _ => []) 0 SIGTERM 0 withKill
           _ eq_refl eq_refl eq_refl).
Defined.

Lemma exit_event_runs_cleanup_witness :
  exists st',
    runCleanup reentrantBody 1 twoCallbacks = Some st'
    /\ deliver reentrantBody 1 0 exit twoCallbacks = Some (st', Normal)
    /\ (forall c,
           timesRun c st'
           = timesRun c twoCallbacks
             + (if decide (c ∈ cleanupCallbacks twoCallbacks) then 1 else 0))
    /\ ((forall c t' e,
            c ∈ cleanupCallbacks twoCallbacks -> Emit t' e ∉ reentrantBody c) ->
        heap st' = heap twoCallbacks)
    /\ listenersOf 0 exit st' = [onExit 0]
    /\ exists st'',
        deliver reentrantBody 1 0 exit st' = Some (st'', Normal)
        /\ ran st''
           = ran twoCallbacks ++ cleanupCallbacks twoCallbacks
             ++ cleanupCallbacks st'.
Proof.
  exact (exit_event_runs_cleanup reentrantBody 0 0 twoCallbacks
           eq_refl twoCallbacks_NoDup eq_refl).
Defined.

Lemma handled_signal_is_not_reinstalled_witness :
  exists st' completion,
    deliver reentrantBody 1 0 (signal SIGINT) twoCallbacks = Some (st', completion)
    /\ listenersOf 0 (signal SIGINT) st' = []
    /\ 0 ∈ registeredProcesses st'
    /\ ensureSandboxProcessCleanupHandlers 0 st' = st'
    /\ listenersOf 0 (signal SIGINT) (ensureSandboxProcessCleanupHandlers 0 st')
       = [].
Proof.
  refine (handled_signal_is_not_reinstalled reentrantBody 0 SIGINT 0 twoCallbacks
            eq_refl eq_refl _).
  apply elem_of_union_l. by apply elem_of_singleton.
Defined.

End HandlerProps.

(** ** More on redaction *)

Module RedactionMore.

Import Utils RedactionProps.

Lemma redactScan_length args :
  length (redactScan args) = length args + (if dangling args then 1 else 0).
Proof.
  induction args using scan_ind; simpl.
  - reflexivity.
  - rewrite H. simpl. by rewrite IHargs.
  - reflexivity.
  - rewrite IHargs. lia.
Qed.

Lemma redactScan_dangling_changes args :
  dangling args = true -> redactScan (redactScan args) <> redactScan args.
Proof.
  induction args using scan_ind; simpl.
  - discriminate.
  - rewrite H. simpl. rewrite H. intros Hd [= Heq]. by apply IHargs.
  - intros _. discriminate.
  - intros Hd. rewrite keyOf_redacted. intros [= Heq]. by apply IHargs.
Qed.

Lemma redactScan_no_marker args :
  Forall (fun tok => tok <> ENV_FLAG) args -> redactScan args = args.
Proof.
  induction 1 as [|tok args Htok _ IH]; [reflexivity |]. simpl.
  apply str_eqb_neq in Htok. rewrite Htok. by rewrite IH.
Qed.

(** X13. Redaction lengthens a vector by exactly one token when its scan
    ends on a marker that has no token after it, and keeps the length
    otherwise; it is idempotent on exactly the vectors of the second kind;
    and it returns a vector that contains no [--env] unchanged. *)
Theorem redaction_length_and_fixpoints (args : list JsString) :
  length (redactDockerArgsForLogging args)
  = length args + (if dangling args then 1 else 0)
  /\ (redactDockerArgsForLogging (redactDockerArgsForLogging args)
      = redactDockerArgsForLogging args
      <-> dangling args = false)
  /\ (Forall (fun tok => tok <> ENV_FLAG) args ->
      redactDockerArgsForLogging args = args).
Proof.
  rewrite !redact_scan. split; [apply redactScan_length |]. split.
  - split.
    + intros Heq. destruct (dangling args) eqn:E; [| done].
      by destruct (redactScan_dangling_changes args E).
    + apply redact_idempotent.
  - apply redactScan_no_marker.
Qed.

(** A prefix whose scan is complete is redacted on its own. *)
Lemma redactScan_app pre rest :
  dangling pre = false ->
  redactScan (pre ++ rest) = redactScan pre ++ redactScan rest.
Proof.
  induction pre using scan_ind; simpl; intros Hd.
  - reflexivity.
  - rewrite H in *. by rewrite IHpre.
  - discriminate.
  - by rewrite IHpre.
Qed.

Lemma dangling_app pre rest :
  dangling pre = false -> dangling (pre ++ rest) = dangling rest.
Proof.
  induction pre using scan_ind; simpl; intros Hd.
  - reflexivity.
  - rewrite H in *. by apply IHpre.
  - discriminate.
  - by apply IHpre.
Qed.

(** A vector that ends in a token other than the marker has a complete
    scan. *)
Lemma dangling_snoc l x : x <> ENV_FLAG -> dangling (l ++ [x]) = false.
Proof.
  intros Hx. apply str_eqb_neq in Hx.
  induction l using scan_ind; simpl.
  - by rewrite Hx.
  - by rewrite H.
  - reflexivity.
  - done.
Qed.

End RedactionMore.

(** ** The redacted vector of a built specification *)

Module BuilderMore.

Import Obj Runner Utils RedactionProps RedactionMore RunnerProps.

(** The flag pair of an entry as it is logged. *)
Definition redactedFlag (kv : JsString * JsString) : list JsString :=
  [js "--env"; kv.1 ++ js "=<redacted>"].

Lemma redactScan_pair next rest :
  redactScan (ENV_FLAG :: next :: rest)
  = ENV_FLAG :: (keyOf next ++ REDACTED) :: redactScan rest.
Proof. reflexivity. Qed.

Lemma redactScan_flags entries rest :
  redactScan (flat_map envFlag (kept entries) ++ rest)
  = flat_map redactedFlag (kept entries) ++ redactScan rest.
Proof.
  assert (Hk : forall kv, kv ∈ kept entries -> includes EQUALS kv.1 = false).
  { intros [k v] Hin. by apply kept_spec in Hin as (_ & _ & He & _). }
  induction (kept entries) as [|kv l IH]; [reflexivity |].
  change (flat_map envFlag (kv :: l) ++ rest)
    with (ENV_FLAG :: (kv.1 ++ js "=" ++ kv.2) :: (flat_map envFlag l ++ rest)).
  rewrite redactScan_pair, keyOf_pair by (apply Hk; by left).
  rewrite IH; [reflexivity |]. intros kv' Hin. apply Hk. by right.
Qed.

Lemma absolute_is_no_marker s : startsWith SLASH s = true -> s <> ENV_FLAG.
Proof. by intros H ->. Qed.

Section Platform.

Variable path_resolve : JsString -> JsString.
Variable path_basename : JsString -> JsString.
Variable numberToString : JsNumber -> JsString.

(** X14. The logged vector of a built specification never shows the value
    of an environment entry.  When the working directory of the resolved
    configuration is absolute, the redacted vector is the redaction of the
    eighteen fixed tokens, then [--env key=<redacted>] for each flagged
    entry, then the redaction of image, command and arguments; only the keys
    of the entries occur in the middle part.  If moreover none of the fixed
    tokens, the image, the command or the arguments is [--env], those parts
    are logged unchanged. *)
Theorem redacted_args_hide_env_values random cleanup sandbox options st :
  startsWith SLASH (Config.workdir sandbox) = true ->
  let spec :=
    (buildDockerRunSpec path_resolve path_basename numberToString
       random cleanup sandbox options st).1 in
  let fixed :=
    fixedArgs numberToString (containerName spec)
      (volumeArg path_resolve sandbox options) sandbox in
  let flagged :=
    filter (fun kv => skipped kv.1 = false)
      (Object_entries (mergedEnv sandbox options)) in
  let command :=
    Config.image sandbox
    :: Config.toContainerCommand path_basename (command options)
    :: args options in
  redactedArgs spec
  = redactDockerArgsForLogging fixed
    ++ flat_map (fun kv => [js "--env"; kv.1 ++ js "=<redacted>"]) flagged
    ++ redactDockerArgsForLogging command
  /\ (Forall (fun tok => tok <> ENV_FLAG) (fixed ++ command) ->
      redactedArgs spec
      = fixed
        ++ flat_map (fun kv => [js "--env"; kv.1 ++ js "=<redacted>"]) flagged
        ++ command).
Proof.
  intros Hwd spec fixed flagged command.
  assert (Hfixed : dangling fixed = false).
  { unfold fixed, fixedArgs.
    match goal with
    | |- dangling ?l = false =>
        change l with (removelast l ++ [Config.workdir sandbox])
    end.
    by apply dangling_snoc, absolute_is_no_marker. }
  assert (Heq : redactedArgs spec
                = redactDockerArgsForLogging fixed
                  ++ flat_map redactedFlag flagged
                  ++ redactDockerArgsForLogging command).
  { unfold spec. simpl. rewrite !redact_scan, dockerArgs_shape.
    rewrite redactScan_app by exact Hfixed. f_equal.
    apply redactScan_flags. }
  split; [exact Heq |].
  intros Hno. apply Forall_app in Hno as [Hf Hc].
  rewrite Heq, !redact_scan. by rewrite !redactScan_no_marker.
Qed.

End Platform.

Lemma redacted_args_hide_env_values_witness :
  let sandbox := Sample.sandbox [(js "TOKEN", js "s3cret")] [] in
  let options := Sample.options (js "opencode") [js "--version"] [] in
  let spec :=
    (buildDockerRunSpec Sample.path_resolve Sample.path_basename
       Sample.numberToString Sample.random1 0 sandbox options (loaded ∅)).1 in
  drop 18 (redactedArgs spec)
  = [js "--env"; js "TOKEN=<redacted>"; js "alpine:3.19"; js "opencode";
     js "--version"].
Proof.
  intros sandbox options spec.
  destruct (redacted_args_hide_env_values Sample.path_resolve
              Sample.path_basename Sample.numberToString Sample.random1 0
              sandbox options (loaded ∅) eq_refl) as [Heq _].
  fold spec in Heq. rewrite Heq. reflexivity.
Defined.

End BuilderMore.

(** ** The merged environment *)

Module MergeProps.

Import Obj Runner RedactionProps.

Section Lookup.

Context {V : Type}.

(** The value a list of property definitions gives a key: the last
    definition wins. *)
Fixpoint lastDefinition (k : JsString) (l : list (JsString * V)) : option V :=
  match l with
  | [] => None
  | (k', v) :: l' =>
      match lastDefinition k l' with
      | Some v' => Some v'
      | None => if str_eqb k' k then Some v else None
      end
  end.

(** The first definition of a key. *)
Fixpoint firstDefinition (k : JsString) (o : Obj V) : option V :=
  match o with
  | [] => None
  | (k', v) :: o' => if str_eqb k' k then Some v else firstDefinition k o'
  end.

Lemma str_eqb_sym a b : str_eqb a b = str_eqb b a.
Proof.
  destruct (str_eqb a b) eqn:E, (str_eqb b a) eqn:E'; try done.
  - apply str_eqb_eq in E. subst. by rewrite str_eqb_refl in E'.
  - apply str_eqb_eq in E'. subst. by rewrite str_eqb_refl in E.
Qed.

Lemma firstDefinition_set k k' v (o : Obj V) :
  firstDefinition k (set k' v o)
  = if str_eqb k' k then Some v else firstDefinition k o.
Proof.
  induction o as [|[k0 v0] o IH]; simpl; [done |].
  destruct (str_eqb k0 k') eqn:E0; simpl.
  - apply str_eqb_eq in E0 as ->. by destruct (str_eqb k' k).
  - rewrite IH. destruct (str_eqb k0 k) eqn:E1; [| done].
    apply str_eqb_eq in E1 as ->. by rewrite str_eqb_sym, E0.
Qed.

Lemma keys_set k v (o : Obj V) :
  map fst (set k v o)
  = if decide (k ∈ map fst o) then map fst o else map fst o ++ [k].
Proof.
  induction o as [|[k0 v0] o IH]; simpl; [done |].
  destruct (str_eqb k0 k) eqn:E; simpl.
  - apply str_eqb_eq in E as ->. rewrite decide_True; [done | by left].
  - rewrite IH. apply str_eqb_neq in E.
    destruct (decide (k ∈ map fst o)) as [Hin | Hin].
    + rewrite decide_True; [done | by right].
    + rewrite decide_False; [done |].
      intros [? | ?]%elem_of_cons; congruence.
Qed.

Lemma keys_set_NoDup k v (o : Obj V) :
  NoDup (map fst o) -> NoDup (map fst (set k v o)).
Proof.
  intros Hnd. rewrite keys_set. case_decide as Hin; [done |].
  apply NoDup_app. split; [done |]. split; [| apply NoDup_singleton].
  intros x Hx ->%list_elem_of_singleton. contradiction.
Qed.

Lemma setAll_spec entries (o : Obj V) :
  (forall k,
      firstDefinition k (setAll entries o)
      = match lastDefinition k entries with
        | Some v => Some v
        | None => firstDefinition k o
        end)
  /\ (NoDup (map fst o) -> NoDup (map fst (setAll entries o))).
Proof.
  revert o. induction entries as [|[k0 v0] entries IH]; intros o; [done |].
  unfold setAll. simpl. fold (setAll entries (set k0 v0 o)).
  destruct (IH (set k0 v0 o)) as [IHl IHn]. split.
  - intros k. rewrite IHl, firstDefinition_set.
    by destruct (lastDefinition k entries), (str_eqb k0 k).
  - intros Hnd. by apply IHn, keys_set_NoDup.
Qed.

(** With distinct keys, membership is lookup, whichever definition is
    asked for. *)
Lemma firstDefinition_elem (o : Obj V) k v :
  NoDup (map fst o) ->
  (k, v) ∈ o <-> firstDefinition k o = Some v.
Proof.
  induction o as [|[k0 v0] o IH]; simpl; intros Hnd.
  - split; [by intros ?%elem_of_nil | discriminate].
  - apply NoDup_cons in Hnd as [Hk0 Hnd]. rewrite elem_of_cons, IH by done.
    destruct (str_eqb k0 k) eqn:E.
    + apply str_eqb_eq in E as ->. split.
      * intros [[= ->] | Hin]; [done |].
        destruct Hk0. apply list_elem_of_fmap. exists (k, v). split; [done |].
        by apply IH.
      * intros [= ->]. by left.
    + apply str_eqb_neq in E. split.
      * intros [[= -> _] | ?]; [congruence | done].
      * auto.
Qed.

Lemma lastDefinition_first (o : Obj V) k :
  NoDup (map fst o) -> lastDefinition k o = firstDefinition k o.
Proof.
  induction o as [|[k0 v0] o IH]; simpl; intros Hnd; [done |].
  apply NoDup_cons in Hnd as [Hk0 Hnd]. rewrite IH by done.
  destruct (str_eqb k0 k) eqn:E; [| by destruct (firstDefinition k o)].
  apply str_eqb_eq in E as ->.
  destruct (firstDefinition k o) as [v|] eqn:Hf; [| done].
  destruct Hk0. apply list_elem_of_fmap. exists (k, v). split; [done |].
  by apply firstDefinition_elem.
Qed.

Lemma ofLiteral_spec (l : list (JsString * V)) :
  NoDup (map fst (ofLiteral l))
  /\ forall k, firstDefinition k (ofLiteral l) = lastDefinition k l.
Proof.
  destruct (setAll_spec l []) as [Hl Hn]. split.
  - apply Hn. constructor.
  - intros k. unfold ofLiteral. rewrite Hl. by destruct (lastDefinition k l).
Qed.

Lemma insertIndexed_perm n kv (l : list (N * (JsString * V))) :
  insertIndexed n kv l ≡ₚ (n, kv) :: l.
Proof.
  induction l as [|[m kv'] l IH]; simpl; [done |].
  destruct (n <? m)%N; [done |]. rewrite IH. apply perm_swap.
Qed.

Lemma indexedEntries_perm (o : list (JsString * V)) :
  map snd (indexedEntries o) ≡ₚ filter (fun kv => arrayIndex kv.1 <> None) o.
Proof.
  induction o as [|kv o IH]; [done |].
  rewrite filter_cons. cbn [indexedEntries].
  destruct (arrayIndex kv.1) as [n|] eqn:E.
  - rewrite decide_True by done. rewrite insertIndexed_perm.
    cbn [map snd]. by rewrite IH.
  - by rewrite decide_False by (intros H; by apply H).
Qed.

(** [Object.entries] lists every property once. *)
Lemma Object_entries_perm (o : Obj V) : Object_entries o ≡ₚ ofLiteral o.
Proof.
  unfold Object_entries, namedEntries. rewrite indexedEntries_perm.
  generalize (ofLiteral o) as l. unfold Obj. intros l.
  induction l as [|kv l IH]; [done |].
  rewrite !filter_cons.
  destruct (arrayIndex kv.1) as [n|] eqn:E.
  - rewrite decide_True, decide_False by (done || (intros H; by apply H)).
    simpl. by rewrite IH.
  - rewrite decide_False, decide_True by (done || (intros H; by apply H)).
    rewrite <- Permutation_middle. by rewrite IH.
Qed.

Lemma Object_entries_NoDup (o : Obj V) : NoDup (map fst (Object_entries o)).
Proof.
  rewrite (fmap_Permutation fst _ _ (Object_entries_perm o)).
  apply ofLiteral_spec.
Qed.

Lemma Object_entries_elem (o : Obj V) k v :
  (k, v) ∈ Object_entries o <-> lastDefinition k o = Some v.
Proof.
  rewrite (Object_entries_perm o).
  destruct (ofLiteral_spec o) as [Hnd Hl].
  by rewrite firstDefinition_elem, Hl.
Qed.

Lemma option_ext (a b : option V) :
  (forall v, a = Some v <-> b = Some v) -> a = b.
Proof.
  intros H. destruct a as [x|], b as [y|]; try done.
  - by apply H.
  - symmetry. by apply H.
  - by apply H.
Qed.

Lemma lastDefinition_entries (o : Obj V) k :
  lastDefinition k (Object_entries o) = lastDefinition k o.
Proof.
  apply option_ext. intros v.
  rewrite lastDefinition_first by apply Object_entries_NoDup.
  rewrite <- firstDefinition_elem by apply Object_entries_NoDup.
  apply Object_entries_elem.
Qed.

(** [{ ...a, ...b }]: the properties of [b] win. *)
Lemma spread_spec (a b : Obj V) k :
  lastDefinition k (spread a b)
  = match lastDefinition k b with
    | Some v => Some v
    | None => lastDefinition k a
    end.
Proof.
  unfold spread.
  destruct (setAll_spec (Object_entries a) ([] : Obj V)) as [Ha Hna].
  destruct (setAll_spec (Object_entries b) (setAll (Object_entries a) []))
    as [Hb Hnb].
  rewrite lastDefinition_first by (apply Hnb, Hna; constructor).
  rewrite Hb, Ha, !lastDefinition_entries.
  by destruct (lastDefinition k a), (lastDefinition k b).
Qed.

End Lookup.

(** The entries of [options.env] whose value is a string. *)
Definition stringValued (entries : list (JsString * option JsString))
  : list (JsString * JsString) :=
  omap (fun kv => match kv.2 with
                  | Some value => Some (kv.1, value)
                  | None => None
                  end) entries.

Lemma stringValued_elem entries k v :
  (k, v) ∈ stringValued entries <-> (k, Some v) ∈ entries.
Proof.
  unfold stringValued. rewrite list_elem_of_omap. split.
  - intros ([k' [v'|]] & Hin & Heq); simpl in Heq; [| discriminate].
    by injection Heq as -> ->.
  - intros Hin. by exists (k, Some v).
Qed.

Lemma stringValued_keys entries :
  map fst (stringValued entries) `sublist_of` map fst entries.
Proof.
  induction entries as [|[k [v|]] entries IH]; simpl.
  - done.
  - by apply sublist_skip.
  - by apply sublist_cons.
Qed.

Lemma lastDefinition_stringValued entries k :
  NoDup (map fst entries) ->
  lastDefinition k (stringValued entries)
  = match lastDefinition k entries with
    | Some (Some v) => Some v
    | _ => None
    end.
Proof.
  intros Hnd.
  assert (Hnd' : NoDup (map fst (stringValued entries)))
    by (eapply sublist_NoDup; [exact Hnd | apply stringValued_keys]).
  apply option_ext. intros v.
  rewrite lastDefinition_first, <- firstDefinition_elem by done.
  rewrite stringValued_elem, firstDefinition_elem by done.
  rewrite <- lastDefinition_first by done.
  destruct (lastDefinition k entries) as [[v'|]|]; split; congruence.
Qed.

Lemma mergedEnv_lookup sandbox options k :
  lastDefinition k (mergedEnv sandbox options)
  = match lastDefinition k (Config.env sandbox) with
    | Some v => Some v
    | None =>
        match lastDefinition k (env options) with
        | Some (Some v) => Some v
        | _ => None
        end
    end.
Proof.
  unfold mergedEnv. rewrite spread_spec.
  destruct (lastDefinition k (Config.env sandbox)); [done |].
  fold (stringValued (Object_entries (env options))).
  unfold Object_fromEntries.
  destruct (ofLiteral_spec (stringValued (Object_entries (env options))))
    as [Hnd Hl].
  rewrite lastDefinition_first, Hl by done.
  rewrite lastDefinition_stringValued by apply Object_entries_NoDup.
  by rewrite lastDefinition_entries.
Qed.

(** X15. The merged environment has an entry [(key, value)] exactly when
    the sandbox configuration gives [key] the value, or the sandbox
    configuration does not mention [key] and the run options give it the
    string [value]: on a collision the sandbox value wins, and a key whose
    value in the run options is [undefined] is dropped.  (The value a list of
    property definitions gives a key is that of its last definition.) *)
Theorem merged_env_precedence sandbox options key value :
  (key, value) ∈ Object_entries (mergedEnv sandbox options)
  <-> lastDefinition key (Config.env sandbox) = Some value
      \/ (lastDefinition key (Config.env sandbox) = None
          /\ lastDefinition key (env options) = Some (Some value)).
Proof.
  rewrite Object_entries_elem, mergedEnv_lookup.
  destruct (lastDefinition key (Config.env sandbox)) as [v|].
  - split; [auto |]. intros [H | [H _]]; [done | discriminate].
  - destruct (lastDefinition key (env options)) as [[v|]|]; split.
    + intros [= ->]. by right.
    + intros [H | [_ H]]; congruence.
    + discriminate.
    + intros [H | [_ H]]; congruence.
    + discriminate.
    + intros [H | [_ H]]; congruence.
Qed.

Section Platform.

Variable path_resolve : JsString -> JsString.
Variable path_basename : JsString -> JsString.
Variable numberToString : JsNumber -> JsString.

(** X16. No key is given two environment flags: the entries of the merged
    environment have pairwise distinct keys, and so have the entries whose
    flags the built vector carries. *)
Theorem at_most_one_flag_per_key random cleanup sandbox options st :
  let v :=
    spec_args (buildDockerRunSpec path_resolve path_basename numberToString
                 random cleanup sandbox options st).1 in
  let merged := Object_entries (mergedEnv sandbox options) in
  let flagged := filter (fun kv => skipped kv.1 = false) merged in
  NoDup (map fst merged)
  /\ NoDup (map fst flagged)
  /\ v = take 18 v
         ++ flat_map (fun kv => [js "--env"; kv.1 ++ js "=" ++ kv.2]) flagged
         ++ Config.image sandbox
            :: Config.toContainerCommand path_basename (command options)
            :: args options.
Proof.
  intros v merged flagged.
  assert (Hnd : NoDup (map fst merged)) by apply Object_entries_NoDup.
  split; [done |]. split.
  - eapply sublist_NoDup; [exact Hnd |].
    apply (fmap_sublist fst), sublist_filter.
  - unfold v. simpl. rewrite RunnerProps.dockerArgs_shape.
    by rewrite take_app_length'.
Qed.

End Platform.

End MergeProps.

(** ** Properties of disposal *)

Module DisposeProps.

Import Js Utils Runner Dispose LifecycleProps.

(** The closure [buildDockerRunSpec] creates only removes its container:
    it uses neither the registry nor a process object; the removal may
    throw. *)
Definition removalOnly (acts : list Action) : Prop :=
  forall a, a ∈ acts -> a = Throw.

#[local] Instance Action_eq_dec : EqDecision Action.
Proof. solve_decision. Defined.

Lemma exec_removalOnly rc acts st :
  removalOnly acts ->
  exec rc acts st
  = Some (st, if decide (Throw ∈ acts) then Abrupt else Normal).
Proof.
  intros Hacts. destruct acts as [|a acts].
  - destruct (decide (Throw ∈ [])) as [H%elem_of_nil|]; done.
  - assert (a = Throw) as -> by (apply Hacts; left).
    destruct (decide (Throw ∈ Throw :: acts)) as [|H]; [done |].
    destruct H. left.
Qed.

Lemma filter_fresh (c : Callback) (l : list Callback) :
  c ∉ l -> filter (fun x => x ≠ c) l = l.
Proof.
  induction l as [|x l IH]; intros Hc; [done |].
  apply not_elem_of_cons in Hc as [Hx Hl].
  rewrite filter_cons_True by congruence. by rewrite IH.
Qed.

Lemma count_fresh (c : Callback) (l : list Callback) :
  c ∉ l -> filter (fun x => x = c) l = [].
Proof.
  induction l as [|x l IH]; intros Hc; [done |].
  apply not_elem_of_cons in Hc as [Hx Hl].
  rewrite filter_cons_False by congruence. by apply IH.
Qed.

Lemma unregister_fresh c st :
  c ∉ cleanupCallbacks st ->
  cleanupCallbacks
    (unregisterSandboxCleanupCallback c (registerSandboxCleanupCallback c st))
  = cleanupCallbacks st.
Proof.
  intros Hc. unfold registerSandboxCleanupCallback.
  rewrite decide_False by done. simpl.
  rewrite filter_app, filter_cons_False, filter_nil, app_nil_r
    by (by intros ?).
  by apply filter_fresh.
Qed.

Section Platform.

Variable path_resolve : JsString -> JsString.
Variable path_basename : JsString -> JsString.
Variable numberToString : JsNumber -> JsString.
Variable body : Callback -> list Action.

(** X17. Building an invocation and disposing of it: the closure created
    by the build is registered; disposal then runs it once, leaves the
    registry as it was before the build and lets an exception of the removal
    reach the caller; a cleanup pass after the disposal does not run the
    closure again, while a second disposal does. *)
Theorem disposed_cleanup_leaves_the_registry
    random c sandbox options fuel st :
  c ∉ cleanupCallbacks st ->
  removalOnly (body c) ->
  let built :=
    buildDockerRunSpec path_resolve path_basename numberToString
      random c sandbox options st in
  c ∈ cleanupCallbacks built.2
  /\ exists st1 completion,
      disposeDockerRunSpec body fuel built.1 built.2 = Some (st1, completion)
      /\ cleanupCallbacks st1 = cleanupCallbacks st
      /\ trace st1 = trace st ++ [Ran c]
      /\ heap st1 = heap st
      /\ (completion = Abrupt <-> Throw ∈ body c)
      /\ (exists st2,
             runCleanup body (S fuel) st1 = Some st2
             /\ timesRun c st2 = timesRun c st + 1)
      /\ (exists st3,
             disposeDockerRunSpec body fuel built.1 st1
             = Some (st3, completion)
             /\ cleanupCallbacks st3 = cleanupCallbacks st
             /\ trace st3 = trace st ++ [Ran c; Ran c]).
Proof.
  intros Hc Hbody built. split.
  { unfold built. simpl. unfold registerSandboxCleanupCallback.
    rewrite decide_False by done. simpl. apply elem_of_app. right. left. }
  unfold disposeDockerRunSpec, invoke, built, buildDockerRunSpec.
  cbn [fst snd cleanup].
  rewrite !exec_removalOnly by done.
  eexists _, _. split; [reflexivity |].
  assert (Hcbs :
    cleanupCallbacks
      (log (Ran c)
         (unregisterSandboxCleanupCallback c
            (registerSandboxCleanupCallback c st)))
    = cleanupCallbacks st) by (simpl; by apply unregister_fresh).
  assert (Htr :
    trace
      (log (Ran c)
         (unregisterSandboxCleanupCallback c
            (registerSandboxCleanupCallback c st)))
    = trace st ++ [Ran c]).
  { simpl. unfold registerSandboxCleanupCallback.
    by rewrite decide_False by done. }
  assert (Hran : forall st', trace st' = trace st ++ [Ran c] ->
                             ran st' = ran st ++ [c]).
  { intros st' H. unfold ran. rewrite H, omap_app. done. }
  split; [exact Hcbs |]. split; [exact Htr |]. split.
  { simpl. unfold registerSandboxCleanupCallback.
    by rewrite decide_False by done. }
  split.
  { destruct (decide (Throw ∈ body c)); split; try done. }
  split.
  - set (st1 := log (Ran c) _) in *.
    destruct (cleanupInProgress st1) eqn:Hflag.
    + exists st1. split.
      * by rewrite runCleanup_unfold, Hflag.
      * unfold timesRun. rewrite (Hran st1 Htr), filter_app, length_app.
        simpl. rewrite filter_cons_True, filter_nil by done. done.
    + destruct (pass_spec body fuel st1 Hflag) as (st2 & Hrun & _ & Hr & _).
      exists st2. split; [done |].
      unfold timesRun. rewrite Hr, (Hran st1 Htr), Hcbs, !filter_app, !length_app.
      rewrite (count_fresh c (cleanupCallbacks st)) by done.
      simpl. rewrite filter_cons_True, filter_nil by done. simpl. lia.
  - rewrite exec_removalOnly by done.
    eexists. split; [reflexivity |]. split.
    + simpl. simpl in Hcbs. rewrite Hcbs. by rewrite filter_fresh.
    + simpl. simpl in Htr. rewrite Htr. by rewrite <- app_assoc.
Qed.

End Platform.

(** Both closures only remove their container; the second removal throws. *)
Definition removals (c : Callback) : list Action :=
  match c with
  | 8 => [Throw]
  | _ => []
  end.

Lemma disposed_cleanup_leaves_the_registry_witness :
  let st := registerSandboxCleanupCallback 7 (loaded {[ 0 := MockProcess ]}) in
  let built :=
    buildDockerRunSpec Sample.path_resolve Sample.path_basename
      Sample.numberToString Sample.random1 8
      (Sample.sandbox [] (js "/tmp")) (Sample.options (js "ls") [] []) st in
  8 ∈ cleanupCallbacks built.2
  /\ exists st1 completion,
      disposeDockerRunSpec removals 0 built.1 built.2 = Some (st1, completion)
      /\ cleanupCallbacks st1 = cleanupCallbacks st
      /\ trace st1 = trace st ++ [Ran 8]
      /\ heap st1 = heap st
      /\ (completion = Abrupt <-> Throw ∈ removals 8)
      /\ (exists st2,
             runCleanup removals 1 st1 = Some st2
             /\ timesRun 8 st2 = timesRun 8 st + 1)
      /\ (exists st3,
             disposeDockerRunSpec removals 0 built.1 st1
             = Some (st3, completion)
             /\ cleanupCallbacks st3 = cleanupCallbacks st
             /\ trace st3 = trace st ++ [Ran 8; Ran 8]).
Proof.
  apply (disposed_cleanup_leaves_the_registry
           Sample.path_resolve Sample.path_basename Sample.numberToString
           removals Sample.random1 8 (Sample.sandbox [] (js "/tmp"))
           (Sample.options (js "ls") [] []) 0
           (registerSandboxCleanupCallback 7 (loaded {[ 0 := MockProcess ]}))).
  - vm_compute. intros H. apply list_elem_of_singleton in H. discriminate.
  - intros a [-> | []%elem_of_nil]%elem_of_cons. done.
Defined.

End DisposeProps.

(** ** Properties of the Docker commands *)

Module DockerProps.

Import Js Docker.

(** *** [trim] *)

Definition blank (s : JsString) : Prop :=
  forall c, c ∈ s -> isWhiteSpace c = true.

Lemma trimStart_nil_iff s : trimStart s = [] <-> blank s.
Proof.
  induction s as [|c s IH]; simpl.
  - split; [| done]. intros _ c H. by apply elem_of_nil in H.
  - destruct (isWhiteSpace c) eqn:Hc.
    + rewrite IH. split.
      * intros H x [-> | Hx]%elem_of_cons; auto.
      * intros H x Hx. apply H. by right.
    + split; [done |]. intros H.
      rewrite (H c) in Hc by left. discriminate.
Qed.

Lemma trimStart_suffix s : exists ws, s = ws ++ trimStart s /\ blank ws.
Proof.
  induction s as [|c s (ws & Heq & Hws)]; simpl.
  - exists []. split; [done |]. intros c H. by apply elem_of_nil in H.
  - destruct (isWhiteSpace c) eqn:Hc.
    + exists (c :: ws). split; [simpl; congruence |].
      intros x [-> | Hx]%elem_of_cons; auto.
    + exists []. split; [done |]. intros x H. by apply elem_of_nil in H.
Qed.

Lemma blank_rev s : blank (rev s) <-> blank s.
Proof.
  unfold blank. split; intros H c Hc; apply H;
    apply list_elem_of_In; apply list_elem_of_In in Hc.
  - by apply in_rev in Hc.
  - by apply in_rev.
Qed.

Lemma blank_app a b : blank (a ++ b) <-> blank a /\ blank b.
Proof.
  unfold blank. split.
  - intros H. split; intros c Hc; apply H, elem_of_app; auto.
  - intros [Ha Hb] c [Hc | Hc]%elem_of_app; auto.
Qed.

Lemma trim_nil_iff s : trim s = [] <-> blank s.
Proof.
  unfold trim, trimEnd.
  destruct (trimStart_suffix s) as (ws & Heq & Hws).
  split.
  - intros H. assert (Hr : trimStart (rev (trimStart s)) = []).
    { apply (f_equal (@rev N)) in H. by rewrite rev_involutive in H. }
    apply trimStart_nil_iff in Hr. apply (proj1 (blank_rev _)) in Hr.
    rewrite Heq. by apply blank_app.
  - intros H. rewrite Heq in H. apply blank_app in H as [_ H].
    apply (proj2 (blank_rev _)) in H. apply trimStart_nil_iff in H.
    by rewrite H.
Qed.

(** [s.trim().length > 0] holds exactly when [s] has a code unit that is
    not white space. *)
Lemma trim_length_pos s :
  Nat.ltb 0 (length (trim s)) = true
  <-> exists c, c ∈ s /\ isWhiteSpace c = false.
Proof.
  rewrite Nat.ltb_lt. split.
  - intros Hlen. induction s as [|c s IH].
    + simpl in Hlen. lia.
    + destruct (isWhiteSpace c) eqn:Hc.
      * destruct IH as (x & Hx & Hws).
        { destruct (trim s) eqn:Ht; [| simpl; lia].
          apply trim_nil_iff in Ht.
          assert (Hb : blank (c :: s)).
          { intros x [-> | Hx]%elem_of_cons; auto. }
          apply trim_nil_iff in Hb. rewrite Hb in Hlen. simpl in Hlen. lia. }
        exists x. split; [by right | done].
      * exists c. split; [left | done].
  - intros (c & Hc & Hws).
    destruct (trim s) eqn:Ht; [| simpl; lia].
    apply trim_nil_iff in Ht. rewrite (Ht c Hc) in Hws. discriminate.
Qed.

(** *** The result of a command *)

(** The events that settle the promise of a call. *)
Definition settles (ev : ChildEvent) : bool :=
  match ev with
  | close _ | error => true
  | _ => false
  end.

Definition stdoutOf (script : list ChildEvent) : list (list N) :=
  omap (fun ev => match ev with stdoutData chunk => Some chunk | _ => None end)
       script.

Definition stderrOf (script : list ChildEvent) : list (list N) :=
  omap (fun ev => match ev with stderrData chunk => Some chunk | _ => None end)
       script.

(** The timer expires before the child closes or fails to start. *)
Fixpoint timedOut (script : list ChildEvent) : bool :=
  match script with
  | [] => false
  | timeout :: _ => true
  | close _ :: _ | error :: _ => false
  | _ :: rest => timedOut rest
  end.

(** A progress callback that only records entries. *)
Definition recorder (out : JsString -> list IO)
    (callback : JsString -> World -> World) : Prop :=
  forall chunk w,
    callback chunk w = {| machine := machine w; io := io w ++ out chunk |}.

Definition commands (w : World) : list (list JsString) :=
  omap (fun e => match e with Spawned args => Some args | _ => None end) (io w).

Definition timers (w : World) : list JsNumber :=
  omap (fun e => match e with TimerStarted ms => Some ms | _ => None end) (io w).

Definition kills (w : World) : nat :=
  length
    (omap (fun e => match e with KillRequested => Some e | _ => None end)
          (io w)).

Definition messages (w : World) : list JsString :=
  omap (fun e => match e with Logged m => Some m | _ => None end) (io w).

Section Run.

Variable decode : list N -> JsString.
Variable spawn : list JsString -> list ChildEvent.

(** The result announced by the first ['close'] or ['error'] event. *)
Fixpoint outcomeFrom (out err : list (list N)) (script : list ChildEvent)
  : option DockerCommandResult :=
  match script with
  | [] => None
  | stdoutData chunk :: rest => outcomeFrom (out ++ [chunk]) err rest
  | stderrData chunk :: rest => outcomeFrom out (err ++ [chunk]) rest
  | close code :: _ =>
      Some {| exitCode := match code with Some n => n | None => ofZ 1 end;
              stdout := decode (concat out);
              stderr := decode (concat err) |}
  | error :: _ =>
      Some {| exitCode := ofZ 1; stdout := [];
              stderr := js "Failed to start docker command" |}
  | timeout :: rest => outcomeFrom out err rest
  end.

Definition outcome (script : list ChildEvent) : option DockerCommandResult :=
  outcomeFrom [] [] script.

Lemma promise_progress options chunk i :
  promise (progress decode options chunk i) = promise i
  /\ stdoutChunks (progress decode options chunk i) = stdoutChunks i
  /\ stderrChunks (progress decode options chunk i) = stderrChunks i
  /\ timer (progress decode options chunk i) = timer i.
Proof. unfold progress. by destruct (onProgress options). Qed.

Lemma promise_stable options script i r :
  promise i = Some r ->
  promise (fold_left (handle decode options) script i) = Some r.
Proof.
  revert i. induction script as [|ev script IH]; intros i Hi; [done |].
  simpl. apply IH.
  destruct ev as [chunk|chunk|code| |]; simpl.
  - by rewrite (proj1 (promise_progress _ _ _)).
  - by rewrite (proj1 (promise_progress _ _ _)).
  - unfold resolve. simpl. by rewrite Hi.
  - unfold resolve. simpl. by rewrite Hi.
  - by destruct (timer i).
Qed.

Lemma promise_fold options script i :
  promise i = None ->
  promise (fold_left (handle decode options) script i)
  = outcomeFrom (stdoutChunks i) (stderrChunks i) script.
Proof.
  revert i. induction script as [|ev script IH]; intros i Hi; [done |].
  simpl. destruct ev as [chunk|chunk|code| |]; cbn [handle outcomeFrom].
  - rewrite IH.
    + destruct (promise_progress options chunk (pushStdout chunk i))
        as (_ & -> & -> & _). done.
    + by rewrite (proj1 (promise_progress _ _ _)).
  - rewrite IH.
    + destruct (promise_progress options chunk (pushStderr chunk i))
        as (_ & -> & -> & _). done.
    + by rewrite (proj1 (promise_progress _ _ _)).
  - apply promise_stable. unfold handle, resolve. simpl. by rewrite Hi.
  - apply promise_stable. unfold handle, resolve. simpl. by rewrite Hi.
  - rewrite IH; simpl; by destruct (timer i).
Qed.

(** The promise of a call depends on the events only. *)
Lemma promise_outcome args options w :
  promise (runDockerCommand decode spawn args options w)
  = outcome (spawn args).
Proof. unfold runDockerCommand. by rewrite promise_fold. Qed.

Lemma outcomeFrom_pending out err script :
  (forall e, e ∈ script -> settles e = false) ->
  outcomeFrom out err script = None.
Proof.
  revert out err. induction script as [|ev script IH]; intros out err H;
    [done |].
  assert (Hev : settles ev = false) by (apply H; left).
  assert (Hrest : forall e, e ∈ script -> settles e = false)
    by (intros e He; apply H; by right).
  destruct ev; simpl; try discriminate; by apply IH.
Qed.

Lemma outcomeFrom_settles out err before ev after :
  (forall e, e ∈ before -> settles e = false) ->
  settles ev = true ->
  outcomeFrom out err (before ++ ev :: after)
  = match ev with
    | close code =>
        Some {| exitCode := match code with Some n => n | None => ofZ 1 end;
                stdout := decode (concat (out ++ stdoutOf before));
                stderr := decode (concat (err ++ stderrOf before)) |}
    | _ =>
        Some {| exitCode := ofZ 1; stdout := [];
                stderr := js "Failed to start docker command" |}
    end.
Proof.
  revert out err. induction before as [|b before IH]; intros out err H Hev.
  - simpl. rewrite !app_nil_r. by destruct ev.
  - assert (Hb : settles b = false) by (apply H; left).
    assert (Hrest : forall e, e ∈ before -> settles e = false)
      by (intros e He; apply H; by right).
    destruct b; simpl in Hb |- *; try discriminate;
      rewrite IH by done; destruct ev; try done;
      unfold stdoutOf, stderrOf; simpl; by rewrite <- ?app_assoc.
Qed.

Lemma outcomeFrom_Some out err script r :
  outcomeFrom out err script = Some r ->
  exists before ev after,
    script = before ++ ev :: after
    /\ (forall e, e ∈ before -> settles e = false)
    /\ settles ev = true.
Proof.
  revert out err. induction script as [|ev script IH]; intros out err H;
    [done |].
  destruct (settles ev) eqn:Hev.
  - exists [], ev, script. split; [done |]. split; [| done].
    intros e He. by apply elem_of_nil in He.
  - destruct ev; simpl in Hev, H; try discriminate;
      destruct (IH _ _ H) as (before & ev' & after & -> & Hb & Hs);
      eexists (_ :: before), ev', after; (split; [reflexivity |]);
      (split; [| done]); intros e [-> | He]%elem_of_cons; auto.
Qed.

(** What a call adds to the record of the outside when its progress
    callback records [out chunk] for each chunk. *)
Fixpoint effects (out : JsString -> list IO) (armed : bool)
    (script : list ChildEvent) : list IO :=
  match script with
  | [] => []
  | stdoutData chunk :: rest | stderrData chunk :: rest =>
      out (decode chunk) ++ effects out armed rest
  | close _ :: rest | error :: rest => effects out false rest
  | timeout :: rest =>
      (if armed then [KillRequested] else []) ++ effects out false rest
  end.

(** The progress callback of a call, if any, only logs. *)
Definition logsOnly (messagesOf : JsString -> list JsString)
    (callback : option (JsString -> World -> World)) : Prop :=
  match callback with
  | Some f => recorder (fun chunk => map Logged (messagesOf chunk)) f
  | None => forall chunk, messagesOf chunk = []
  end.

Lemma world_fold messagesOf options script i :
  logsOnly messagesOf (onProgress options) ->
  let i' := fold_left (handle decode options) script i in
  machine (world i') = machine (world i)
  /\ io (world i')
     = io (world i)
       ++ effects (fun chunk => map Logged (messagesOf chunk)) (timer i) script.
Proof.
  intros Hcb. revert i.
  assert (Hprog : forall chunk i,
    timer (progress decode options chunk i) = timer i
    /\ machine (world (progress decode options chunk i)) = machine (world i)
    /\ io (world (progress decode options chunk i))
       = io (world i) ++ map Logged (messagesOf (decode chunk))).
  { intros chunk i. unfold progress, logsOnly in *.
    destruct (onProgress options) as [f|]; simpl.
    - by rewrite Hcb.
    - by rewrite Hcb, app_nil_r. }
  induction script as [|ev script IH]; intros i; simpl.
  - by rewrite app_nil_r.
  - destruct (IH (handle decode options i ev)) as [Hm Hio].
    rewrite Hm, Hio. clear IH Hm Hio.
    destruct ev as [chunk|chunk|code| |]; cbn [handle].
    + destruct (Hprog chunk (pushStdout chunk i)) as (-> & -> & ->).
      simpl. by rewrite <- app_assoc.
    + destruct (Hprog chunk (pushStderr chunk i)) as (-> & -> & ->).
      simpl. by rewrite <- app_assoc.
    + unfold resolve. by destruct (promise (clearTimeout i)).
    + unfold resolve. by destruct (promise (clearTimeout i)).
    + destruct (timer i) eqn:Ht; simpl; rewrite ?Ht;
        [by rewrite <- app_assoc | done].
Qed.

Lemma effects_commands messagesOf armed script :
  omap (fun e => match e with Spawned a => Some a | _ => None end)
       (effects (fun chunk => map Logged (messagesOf chunk)) armed script)
  = [].
Proof.
  revert armed. induction script as [|ev script IH]; intros armed; [done |].
  destruct ev as [chunk|chunk|code| |]; simpl; rewrite ?omap_app, ?IH;
    try done.
  - rewrite app_nil_r. by induction (messagesOf (decode chunk)).
  - rewrite app_nil_r. by induction (messagesOf (decode chunk)).
  - by destruct armed.
Qed.

Lemma effects_timers messagesOf armed script :
  omap (fun e => match e with TimerStarted ms => Some ms | _ => None end)
       (effects (fun chunk => map Logged (messagesOf chunk)) armed script)
  = [].
Proof.
  revert armed. induction script as [|ev script IH]; intros armed; [done |].
  destruct ev as [chunk|chunk|code| |]; simpl; rewrite ?omap_app, ?IH;
    try done.
  - rewrite app_nil_r. by induction (messagesOf (decode chunk)).
  - rewrite app_nil_r. by induction (messagesOf (decode chunk)).
  - by destruct armed.
Qed.

Lemma effects_kills messagesOf armed script :
  length
    (omap (fun e => match e with KillRequested => Some e | _ => None end)
       (effects (fun chunk => map Logged (messagesOf chunk)) armed script))
  = if armed && timedOut script then 1 else 0.
Proof.
  revert armed. induction script as [|ev script IH]; intros armed.
  - by destruct armed.
  - destruct ev as [chunk|chunk|code| |]; simpl;
      rewrite ?omap_app, ?length_app, ?IH.
    + replace (omap _ (map Logged (messagesOf (decode chunk)))) with (@nil IO)
        by (by induction (messagesOf (decode chunk))).
      done.
    + replace (omap _ (map Logged (messagesOf (decode chunk)))) with (@nil IO)
        by (by induction (messagesOf (decode chunk))).
      done.
    + by destruct armed.
    + by destruct armed.
    + by destruct armed.
Qed.

Lemma effects_messages messagesOf armed script :
  omap (fun e => match e with Logged m => Some m | _ => None end)
       (effects (fun chunk => map Logged (messagesOf chunk)) armed script)
  = flat_map (fun chunk => messagesOf (decode chunk))
      (omap (fun ev => match ev with
                       | stdoutData chunk | stderrData chunk => Some chunk
                       | _ => None
                       end) script).
Proof.
  assert (Hlog : forall l : list JsString,
    omap (fun e => match e with Logged m => Some m | _ => None end)
         (map Logged l) = l).
  { induction l as [|m l IHl]; [done |]. simpl. f_equal. exact IHl. }
  revert armed. induction script as [|ev script IH]; intros armed; [done |].
  destruct ev as [chunk|chunk|code| |]; simpl; rewrite ?omap_app, ?IH, ?Hlog;
    try done.
  by destruct armed.
Qed.

Lemma run_world messagesOf args options w :
  logsOnly messagesOf (onProgress options) ->
  let w' := world (runDockerCommand decode spawn args options w) in
  machine w' = machine w
  /\ io w'
     = io w ++ [Spawned args; TimerStarted (timeoutMs options)]
       ++ effects (fun chunk => map Logged (messagesOf chunk)) true
            (spawn args).
Proof.
  intros Hcb w'. unfold w', runDockerCommand.
  match goal with
  | |- context [fold_left _ _ ?i0] =>
      destruct (world_fold messagesOf options (spawn args) i0 Hcb)
        as [Hm Hio]
  end.
  cbv zeta in Hm, Hio. rewrite Hm, Hio. cbn [world timer machine io record].
  split; [done |]. by rewrite <- !app_assoc.
Qed.

(** X18. The first ['close'] or ['error'] event of the child fixes the
    result of a command, whatever comes after it: ['close'] gives its exit
    code (1 when the code is not a number) and the decoded concatenation of
    the chunks received until then on each pipe; ['error'] gives exit code 1,
    an empty standard output and a fixed message. *)
Theorem first_close_or_error_fixes_the_result
    args options w before ev after :
  spawn args = before ++ ev :: after ->
  (forall e, e ∈ before -> settles e = false) ->
  settles ev = true ->
  promise (runDockerCommand decode spawn args options w)
  = Some (match ev with
          | close code =>
              {| exitCode := match code with Some n => n | None => ofZ 1 end;
                 stdout := decode (concat (stdoutOf before));
                 stderr := decode (concat (stderrOf before)) |}
          | _ =>
              {| exitCode := ofZ 1; stdout := [];
                 stderr := js "Failed to start docker command" |}
          end).
Proof.
  intros Hscript Hbefore Hev.
  rewrite promise_outcome, Hscript. unfold outcome.
  rewrite outcomeFrom_settles by done. by destruct ev.
Qed.

(** X19. The promise of a command stays pending exactly when the child
    emits neither ['close'] nor ['error']: the expiry of the timer alone
    does not settle it. *)
Theorem command_is_pending_iff_child_never_closes args options w :
  promise (runDockerCommand decode spawn args options w) = None
  <-> forall e, e ∈ spawn args -> settles e = false.
Proof.
  rewrite promise_outcome. unfold outcome. split.
  - intros Hnone e He.
    destruct (settles e) eqn:Hs; [| done].
    apply list_elem_of_split in He as (l1 & l2 & Heq).
    assert (Hsome : exists r, outcomeFrom [] [] (spawn args) = Some r).
    { rewrite Heq. clear Heq Hnone.
      generalize (@nil (list N)) at 1. generalize (@nil (list N)).
      induction l1 as [|b l1 IH]; intros out err.
      - destruct e; try discriminate; simpl; eauto.
      - destruct b; simpl; eauto. }
    destruct Hsome as [r Hr]. congruence.
  - apply outcomeFrom_pending.
Qed.

(** X20. One call spawns one child with the given arguments and starts one
    timer with the given delay; it asks the child to die at most once, and
    only if the timer expires before the child has closed or failed to
    start; it does not touch the cleanup registry. *)
Theorem child_is_killed_only_on_timeout args options messagesOf w :
  logsOnly messagesOf (onProgress options) ->
  let w' := world (runDockerCommand decode spawn args options w) in
  machine w' = machine w
  /\ commands w' = commands w ++ [args]
  /\ timers w' = timers w ++ [timeoutMs options]
  /\ kills w' = kills w + (if timedOut (spawn args) then 1 else 0).
Proof.
  intros Hcb w'.
  destruct (run_world messagesOf args options w Hcb) as [Hm Hio].
  fold w' in Hm, Hio. unfold commands, timers, kills.
  rewrite Hm, Hio.
  rewrite !omap_app, effects_commands, effects_timers, !length_app,
    effects_kills.
  simpl. rewrite ?app_nil_r. repeat split; try done.
Qed.

(** X21. [dockerImageExists] answers [true] exactly when the first
    settling event of [docker images -q image] is a ['close'] with exit
    code zero and the standard output decoded at that point has a code unit
    that is not white space. *)
Theorem image_exists_iff_listing_is_not_blank image timeoutMs w :
  (dockerImageExists decode spawn image timeoutMs w).1 = Some true
  <-> exists before n after,
        spawn [js "images"; js "-q"; image] = before ++ close (Some n) :: after
        /\ (forall e, e ∈ before -> settles e = false)
        /\ is_zero n = true
        /\ exists c,
             c ∈ decode (concat (stdoutOf before)) /\ isWhiteSpace c = false.
Proof.
  unfold dockerImageExists. cbn [fst]. rewrite promise_outcome.
  unfold outcome. split.
  - intros H.
    destruct (outcomeFrom [] [] (spawn [js "images"; js "-q"; image]))
      as [r|] eqn:Hr; [| discriminate].
    simpl in H. injection H as H. apply andb_true_iff in H as [Hz Hlen].
    destruct (outcomeFrom_Some _ _ _ _ Hr)
      as (before & ev & after & Heq & Hbefore & Hev).
    rewrite Heq, outcomeFrom_settles in Hr by done.
    destruct ev as [| |[n|]| |]; try discriminate;
      injection Hr as <-; simpl in Hz, Hlen; try discriminate.
    exists before, n, after. repeat split; try done.
    by apply trim_length_pos.
  - intros (before & n & after & Heq & Hbefore & Hz & Hc).
    rewrite Heq, outcomeFrom_settles by done. simpl.
    apply trim_length_pos in Hc. by rewrite Hz, Hc.
Qed.

(** The answers of the two commands depend on the events only. *)
Lemma dockerImageExists_answer image timeoutMs w :
  (dockerImageExists decode spawn image timeoutMs w).1
  = (result ← outcome (spawn [js "images"; js "-q"; image]);
     Some (is_zero (exitCode result)
           && Nat.ltb 0 (length (trim (stdout result))))).
Proof. unfold dockerImageExists. cbn [fst]. by rewrite promise_outcome. Qed.

Lemma dockerPullImage_answer image timeoutMs callback w :
  (dockerPullImage decode spawn image timeoutMs callback w).1
  = (result ← outcome (spawn [js "pull"; image]);
     Some (if negb (is_zero (exitCode result))
           then inl (PullFailed
                       (js "docker pull failed for " ++ image ++ js ": "
                        ++ (if falsy (stderr result) then stdout result
                            else stderr result)))
           else inr tt)).
Proof. unfold dockerPullImage. cbn [fst]. by rewrite promise_outcome. Qed.

(** X22. A pull is fulfilled only when the child closes with exit code
    zero.  When the child closes with another code, or without a code (a
    signal ended it, as after the expiry of the timer), the pull is rejected
    with a message that ends with the decoded standard error, or with the
    decoded standard output when the standard error is empty; when the child
    fails to start, the message ends with the fixed text of that case. *)
Theorem pull_is_rejected_unless_exit_code_is_zero
    image timeoutMs callback w before ev after :
  spawn [js "pull"; image] = before ++ ev :: after ->
  (forall e, e ∈ before -> settles e = false) ->
  settles ev = true ->
  let output :=
    if falsy (decode (concat (stderrOf before)))
    then decode (concat (stdoutOf before))
    else decode (concat (stderrOf before)) in
  let rejected text :=
    inl (PullFailed
           (js "docker pull failed for " ++ image ++ js ": " ++ text)) in
  (dockerPullImage decode spawn image timeoutMs callback w).1
  = Some (match ev with
          | close (Some n) => if is_zero n then inr tt else rejected output
          | close None => rejected output
          | _ => rejected (js "Failed to start docker command")
          end).
Proof.
  intros Hscript Hbefore Hev output rejected.
  rewrite dockerPullImage_answer, Hscript. unfold outcome.
  rewrite outcomeFrom_settles by done.
  destruct ev as [| |[n|]| |]; try discriminate; simpl; try done.
  by destruct (is_zero n).
Qed.

End Run.

(** A pipe that carries ASCII text. *)
Definition ascii (bytes : list N) : JsString := bytes.

(** A listing that is cut short by the timer: the child is killed and
    closes without an exit code. *)
Definition slowListing (args : list JsString) : list ChildEvent :=
  [stdoutData (js "sha256:0a1b"); timeout; close None; error].

Lemma first_close_or_error_fixes_the_result_witness :
  promise (runDockerCommand ascii slowListing [js "images"]
             {| timeoutMs := ofZ 10; onProgress := None |}
             {| machine := Utils.loaded ∅; io := [] |})
  = Some {| exitCode := ofZ 1;
            stdout := ascii (concat (stdoutOf [stdoutData (js "sha256:0a1b");
                                               timeout]));
            stderr := ascii (concat (stderrOf [stdoutData (js "sha256:0a1b");
                                               timeout])) |}.
Proof.
  apply (first_close_or_error_fixes_the_result ascii slowListing
           [js "images"] {| timeoutMs := ofZ 10; onProgress := None |}
           {| machine := Utils.loaded ∅; io := [] |}
           [stdoutData (js "sha256:0a1b"); timeout] (close None) [error]).
  - reflexivity.
  - intros e [-> | [-> | []%elem_of_nil]%elem_of_cons]%elem_of_cons;
      reflexivity.
  - reflexivity.
Defined.

Lemma child_is_killed_only_on_timeout_witness :
  let options := {| timeoutMs := ofZ 10; onProgress := None |} in
  let w := {| machine := Utils.loaded ∅; io := [] |} in
  let w' := world (runDockerCommand ascii slowListing [js "images"] options w) in
  machine w' = machine w
  /\ commands w' = commands w ++ [[js "images"]]
  /\ timers w' = timers w ++ [ofZ 10]
  /\ kills w' = kills w + (if timedOut (slowListing [js "images"]) then 1 else 0).
Proof.
  apply (child_is_killed_only_on_timeout ascii slowListing [js "images"]
           {| timeoutMs := ofZ 10; onProgress := None |} (fun _ => [])
           {| machine := Utils.loaded ∅; io := [] |}).
  simpl. reflexivity.
Defined.

(** A pull that the daemon refuses. *)
Definition refusedPull (args : list JsString) : list ChildEvent :=
  [stderrData (js "denied"); close (Some (ofZ 1))].

Lemma pull_is_rejected_unless_exit_code_is_zero_witness :
  (dockerPullImage ascii refusedPull (js "alpine:3.19") (ofZ 10) None
     {| machine := Utils.loaded ∅; io := [] |}).1
  = Some (inl (PullFailed
                 (js "docker pull failed for " ++ js "alpine:3.19" ++ js ": "
                  ++ js "denied"))).
Proof.
  apply (pull_is_rejected_unless_exit_code_is_zero ascii refusedPull
           (js "alpine:3.19") (ofZ 10) None
           {| machine := Utils.loaded ∅; io := [] |}
           [stderrData (js "denied")] (close (Some (ofZ 1))) []).
  - reflexivity.
  - intros e [-> | []%elem_of_nil]%elem_of_cons. reflexivity.
  - reflexivity.
Defined.

End DockerProps.

(** ** Properties of the preparation *)

Module PrepareProps.

Import Js Docker Prepare DockerProps.

(** The chunks a child writes on either pipe, in the order of arrival. *)
Definition chunksOf (script : list ChildEvent) : list (list N) :=
  omap (fun ev => match ev with
                  | stdoutData chunk | stderrData chunk => Some chunk
                  | _ => None
                  end) script.

(** What the progress callback of the pull logs for one decoded chunk. *)
Definition progressMessages (log : bool) (chunk : JsString) : list JsString :=
  if falsy (trim chunk) then []
  else if log then [js "[Sandbox] " ++ trim chunk] else [].

Lemma onPullProgress_recorder log :
  recorder (fun chunk => map Logged (progressMessages log chunk))
           (onPullProgress log).
Proof.
  intros chunk [m o]. unfold onPullProgress, progressMessages, logMessage.
  destruct (falsy (trim chunk)); simpl; [by rewrite app_nil_r |].
  destruct log; simpl; [done | by rewrite app_nil_r].
Qed.

Lemma resolved_image_clean path_resolve host config r :
  Config.resolveSandboxConfig path_resolve host config = inr r ->
  Config.image r <> []
  /\ forall c, c ∈ Config.image r -> isWhiteSpace c = false /\ c <> NUL.
Proof.
  intros H. apply ResolveProps.resolve_inr_iff in H as (_ & u & _ & Hacc & ->).
  unfold ResolveProps.accepted in Hacc.
  repeat (apply andb_true_iff in Hacc as [Hacc ?]).
  apply negb_true_iff in Hacc.
  match goal with
  | H : negb (existsb _ _) = true |- _ => apply negb_true_iff in H; rename H into Hws
  end.
  split; [by apply ResolveProps.falsy_false |].
  intros c Hc.
  assert (Hc' : (isWhiteSpace c || unit_eqb c NUL) = false).
  { destruct (isWhiteSpace c || unit_eqb c NUL) eqn:E; [| done].
    assert (existsb (fun c => isWhiteSpace c || unit_eqb c NUL)
                    (Config.image (ResolveProps.defaulted path_resolve config u))
            = true); [| congruence].
    apply existsb_exists. exists c. split; [| done].
    by apply list_elem_of_In. }
  apply orb_false_iff in Hc' as [Hw Hn]. split; [done |].
  intros ->. unfold unit_eqb in Hn. by rewrite N.eqb_refl in Hn.
Qed.

Section Platform.

Variable path_resolve : JsString -> JsString.
Variable decode : list N -> JsString.
Variable spawn : list JsString -> list ChildEvent.
Variable host : Config.Host.
Variable process : Utils.Target.

(** The answer of the image check and of the pull for a resolved
    configuration; neither depends on the world it is asked in. *)
Definition imageCheck (r : Config.ResolvedSandboxConfig) (w : World)
  : option bool :=
  (dockerImageExists decode spawn (Config.image r)
     (Config.preflightTimeoutMs r) w).1.

Definition pull (r : Config.ResolvedSandboxConfig) (w : World)
  : option (Docker.Error + unit) :=
  (dockerPullImage decode spawn (Config.image r) (Config.pullTimeoutMs r)
     None w).1.

Lemma prepare_answer config log w :
  (prepareDockerSandbox path_resolve decode spawn host process config log w).1
  = match Config.resolveSandboxConfig path_resolve host config with
    | inl e => Some (inl (InvalidConfig e))
    | inr r =>
        match imageCheck r w with
        | None => None
        | Some true => Some (inr r)
        | Some false =>
            match pull r w with
            | None => None
            | Some (inl e) => Some (inl (DockerFailed e))
            | Some (inr _) => Some (inr r)
            end
        end
    end.
Proof.
  unfold prepareDockerSandbox, imageCheck, pull.
  destruct (Config.resolveSandboxConfig path_resolve host config) as [e|r];
    [done |].
  match goal with
  | |- context [dockerImageExists decode spawn ?i ?t ?w2] =>
      pose proof (dockerImageExists_answer decode spawn i t w2) as H2;
      destruct (dockerImageExists decode spawn i t w2) as [a w3]
  end.
  cbn [fst] in H2. rewrite dockerImageExists_answer, <- H2.
  destruct a as [[|]|]; try done.
  match goal with
  | |- context [dockerPullImage decode spawn ?i ?t ?c ?w4] =>
      pose proof (dockerPullImage_answer decode spawn i t c w4) as H4;
      destruct (dockerPullImage decode spawn i t c w4) as [b w5]
  end.
  cbn [fst] in H4. rewrite dockerPullImage_answer, <- H4.
  by destruct b as [[|]|].
Qed.

(** X23. The preparation is fulfilled exactly when the configuration
    resolves and either the image check answers [true], or it answers
    [false] and the pull is fulfilled; the value is then the resolved
    configuration.  It is rejected exactly when the configuration does not
    resolve (with the error of the resolution) or the image check answers
    [false] and the pull is rejected (with the error of the pull).  It stays
    pending exactly when the configuration resolves and the image check, or
    after a negative check the pull, stays pending. *)
Theorem prepare_settles_as_its_commands config log w :
  let answer :=
    (prepareDockerSandbox path_resolve decode spawn host process
       config log w).1 in
  let resolved := Config.resolveSandboxConfig path_resolve host config in
  (forall r,
      answer = Some (inr r)
      <-> resolved = inr r
          /\ (imageCheck r w = Some true
              \/ (imageCheck r w = Some false /\ pull r w = Some (inr tt))))
  /\ (forall e,
         answer = Some (inl e)
         <-> (exists e', resolved = inl e' /\ e = InvalidConfig e')
             \/ (exists r e',
                    resolved = inr r
                    /\ imageCheck r w = Some false
                    /\ pull r w = Some (inl e')
                    /\ e = DockerFailed e'))
  /\ (answer = None
      <-> exists r,
            resolved = inr r
            /\ (imageCheck r w = None
                \/ (imageCheck r w = Some false /\ pull r w = None))).
Proof.
  intros answer resolved. unfold answer. rewrite prepare_answer.
  fold resolved. destruct resolved as [e0|r0].
  - split; [| split].
    + intros r. split; [discriminate | by intros [[=] _]].
    + intros e. split.
      * intros [= <-]. left. by exists e0.
      * intros [(e' & [= ->] & ->) | (r & e' & [=] & _)]. done.
    + split; [discriminate | by intros (r & [=] & _)].
  - destruct (imageCheck r0 w) as [[|]|] eqn:Hcheck.
    + split; [| split].
      * intros r. split.
        -- intros [= ->]. rewrite Hcheck. auto.
        -- by intros [[= ->] _].
      * intros e. split; [discriminate |].
        intros [(e' & [=] & _) | (r & e' & [= <-] & Hc & _)]. congruence.
      * split; [discriminate |].
        intros (r & [= <-] & [Hc | [Hc _]]); congruence.
    + destruct (pull r0 w) as [[e1|[]]|] eqn:Hpull.
      * split; [| split].
        -- intros r. split; [discriminate |].
           intros [[= <-] [Hc | [_ Hp]]]; congruence.
        -- intros e. split.
           ++ intros [= <-]. right. by exists r0, e1.
           ++ intros [(e' & [=] & _) | (r & e' & [= <-] & _ & Hp & ->)].
              congruence.
        -- split; [discriminate |].
           intros (r & [= <-] & [Hc | [_ Hp]]); congruence.
      * split; [| split].
        -- intros r. split.
           ++ intros [= ->]. rewrite Hcheck, Hpull. auto.
           ++ by intros [[= ->] _].
        -- intros e. split; [discriminate |].
           intros [(e' & [=] & _) | (r & e' & [= <-] & _ & Hp & _)].
           congruence.
        -- split; [discriminate |].
           intros (r & [= <-] & [Hc | [_ Hp]]); congruence.
      * split; [| split].
        -- intros r. split; [discriminate |].
           intros [[= <-] [Hc | [_ Hp]]]; congruence.
        -- intros e. split; [discriminate |].
           intros [(e' & [=] & _) | (r & e' & [= <-] & _ & Hp & _)].
           congruence.
        -- split; [| done]. intros _. exists r0. rewrite Hcheck, Hpull. auto.
    + split; [| split].
      * intros r. split; [discriminate |].
        intros [[= <-] [Hc | [Hc _]]]; congruence.
      * intros e. split; [discriminate |].
        intros [(e' & [=] & _) | (r & e' & [= <-] & Hc & _)]. congruence.
      * split; [| done]. intros _. exists r0. rewrite Hcheck. auto.
Qed.

Lemma imageCheck_any_world r w w' : imageCheck r w = imageCheck r w'.
Proof. unfold imageCheck. by rewrite !dockerImageExists_answer. Qed.

Definition logged (log : bool) (message : JsString) : list IO :=
  if log then [Logged message] else [].

Lemma io_logMessage log message w :
  machine (logMessage log message w) = machine w
  /\ io (logMessage log message w) = io w ++ logged log message.
Proof.
  unfold logMessage, logged. destruct log; simpl; [done |].
  by rewrite app_nil_r.
Qed.

(** The record of the outside after a preparation whose configuration
    resolves. *)
Lemma prepare_io config log w r :
  Config.resolveSandboxConfig path_resolve host config = inr r ->
  let w' :=
    (prepareDockerSandbox path_resolve decode spawn host process
       config log w).2 in
  machine w' = Utils.ensureSandboxProcessCleanupHandlers process (machine w)
  /\ io w'
     = io w
       ++ logged log (js "[Sandbox] Checking Docker image: " ++ Config.image r)
       ++ [Spawned [js "images"; js "-q"; Config.image r];
           TimerStarted (Config.preflightTimeoutMs r)]
       ++ effects decode (fun _ => map Logged []) true
            (spawn [js "images"; js "-q"; Config.image r])
       ++ match imageCheck r w with
          | Some false =>
              logged log
                (js "[Sandbox] Image missing; pulling: " ++ Config.image r)
              ++ [Spawned [js "pull"; Config.image r];
                  TimerStarted (Config.pullTimeoutMs r)]
              ++ effects decode
                   (fun chunk => map Logged (progressMessages log chunk)) true
                   (spawn [js "pull"; Config.image r])
          | _ => []
          end.
Proof.
  intros Hres w'. unfold w', prepareDockerSandbox. rewrite Hres.
  set (w1 := {| machine := _; io := io w |}).
  set (w2 := logMessage log _ w1).
  rewrite (imageCheck_any_world r w w2). unfold imageCheck.
  destruct (run_world decode spawn (fun _ => [])
              [js "images"; js "-q"; Config.image r]
              {| timeoutMs := Config.preflightTimeoutMs r; onProgress := None |}
              w2) as [Hm3 Hio3]; [done |].
  set (i3 := runDockerCommand decode spawn _ _ w2) in *.
  destruct (dockerImageExists decode spawn (Config.image r)
              (Config.preflightTimeoutMs r) w2) as [a w3] eqn:Hd.
  assert (w3 = world i3) as ->
    by (unfold dockerImageExists in Hd; by injection Hd).
  clear Hd. cbn [fst snd].
  assert (Hw2 : machine w2 = machine w1 /\ io w2 = io w1 ++ logged log
    (js "[Sandbox] Checking Docker image: " ++ Config.image r))
    by apply io_logMessage.
  destruct Hw2 as [Hm2 Hio2]. cbn [timeoutMs] in Hio3.
  destruct a as [[|]|].
  - cbn [snd]. rewrite Hm3, Hm2, Hio3, Hio2. unfold w1. cbn [machine io].
    split; [done |]. by rewrite ?app_nil_r, <- ?app_assoc.
  - set (w4 := logMessage log _ (world i3)).
    destruct (run_world decode spawn (progressMessages log)
                [js "pull"; Config.image r]
                {| timeoutMs := Config.pullTimeoutMs r;
                   onProgress := Some (onPullProgress log) |}
                w4) as [Hm5 Hio5]; [apply onPullProgress_recorder |].
    unfold dockerPullImage.
    set (i5 := runDockerCommand decode spawn _ _ w4) in *.
    assert (Hw4 : machine w4 = machine (world i3)
                  /\ io w4 = io (world i3) ++ logged log
      (js "[Sandbox] Image missing; pulling: " ++ Config.image r))
      by apply io_logMessage.
    destruct Hw4 as [Hm4 Hio4]. cbn [timeoutMs] in Hio5.
    assert (Hsnd :
      (let '(pulled, w5) :=
         (promise i5
          ≫= (fun result =>
                Some (if negb (is_zero (exitCode result))
                      then inl (PullFailed
                                  (js "docker pull failed for "
                                   ++ Config.image r ++ js ": "
                                   ++ (if falsy (stderr result)
                                       then stdout result
                                       else stderr result)))
                      else inr tt)),
          world i5) in
       match pulled with
       | Some (inl e) =>
           (Some (@inl Rejection Config.ResolvedSandboxConfig
                    (DockerFailed e)), w5)
       | Some (inr _) => (Some (inr r), w5)
       | None => (None, w5)
       end).2 = world i5).
    { destruct (promise i5) as [result|]; [| done]. simpl.
      by destruct (negb (is_zero (exitCode result))). }
    rewrite Hsnd, Hm5, Hm4, Hm3, Hm2, Hio5, Hio4, Hio3, Hio2. unfold w1.
    cbn [machine io].
    split; [done |]. by rewrite <- ?app_assoc.
  - cbn [snd]. rewrite Hm3, Hm2, Hio3, Hio2. unfold w1. cbn [machine io].
    split; [done |]. by rewrite ?app_nil_r, <- ?app_assoc.
Qed.

(** X24. A configuration that does not resolve leaves the world as it
    is: no handler is installed and no command is run.  Otherwise the
    handlers are installed on the process object, and the commands spawned
    are [images -q image] with the preflight delay and then, exactly when
    the image check answers [false], [pull image] with the pull delay; the
    image passed to them is not empty and has neither white space nor NUL. *)
Theorem prepare_runs_docker_only_for_a_valid_configuration config log w :
  let w' :=
    (prepareDockerSandbox path_resolve decode spawn host process
       config log w).2 in
  match Config.resolveSandboxConfig path_resolve host config with
  | inl _ => w' = w
  | inr r =>
      machine w'
      = Utils.ensureSandboxProcessCleanupHandlers process (machine w)
      /\ commands w'
         = commands w
           ++ [js "images"; js "-q"; Config.image r]
              :: match imageCheck r w with
                 | Some false => [[js "pull"; Config.image r]]
                 | _ => []
                 end
      /\ timers w'
         = timers w
           ++ Config.preflightTimeoutMs r
              :: match imageCheck r w with
                 | Some false => [Config.pullTimeoutMs r]
                 | _ => []
                 end
      /\ Config.image r <> []
      /\ forall c, c ∈ Config.image r -> isWhiteSpace c = false /\ c <> NUL
  end.
Proof.
  intros w'.
  destruct (Config.resolveSandboxConfig path_resolve host config)
    as [e|r] eqn:Hres.
  - unfold w', prepareDockerSandbox. by rewrite Hres.
  - destruct (prepare_io config log w r Hres) as [Hm Hio].
    fold w' in Hm, Hio.
    destruct (resolved_image_clean _ _ _ _ Hres) as [Hne Hclean].
    split; [done |]. unfold commands, timers. rewrite Hio.
    assert (Hlogged : forall m,
      omap (fun e => match e with Spawned a => Some a | _ => None end)
           (logged log m) = []
      /\ omap (fun e => match e with TimerStarted t => Some t | _ => None end)
             (logged log m) = [])
      by (intros m; by destruct log).
    rewrite !omap_app, (effects_commands decode (fun _ => [])),
      (effects_timers decode (fun _ => [])).
    rewrite (proj1 (Hlogged _)), (proj2 (Hlogged _)).
    destruct (imageCheck r w) as [[|]|];
      rewrite ?omap_app, ?effects_commands, ?effects_timers,
        ?(proj1 (Hlogged _)), ?(proj2 (Hlogged _)); simpl;
      rewrite ?app_nil_r; done.
Qed.

(** X25. With a logger, a preparation whose configuration resolves logs
    the image it checks; when the image check answers [false] it then logs
    that the image is pulled and, for each chunk the pull writes on either
    pipe, in the order of arrival, the trimmed decoded chunk behind the
    prefix, except for chunks that are blank.  Without a logger it logs
    nothing. *)
Theorem prepare_logs_progress_of_the_pull config log w r :
  Config.resolveSandboxConfig path_resolve host config = inr r ->
  let w' :=
    (prepareDockerSandbox path_resolve decode spawn host process
       config log w).2 in
  messages w'
  = messages w
    ++ if log
       then (js "[Sandbox] Checking Docker image: " ++ Config.image r)
            :: match imageCheck r w with
               | Some false =>
                   (js "[Sandbox] Image missing; pulling: " ++ Config.image r)
                   :: flat_map
                        (fun chunk =>
                           if falsy (trim (decode chunk)) then []
                           else [js "[Sandbox] " ++ trim (decode chunk)])
                        (chunksOf (spawn [js "pull"; Config.image r]))
               | _ => []
               end
       else [].
Proof.
  intros Hres w'.
  destruct (prepare_io config log w r Hres) as [_ Hio].
  fold w' in Hio. unfold messages. rewrite Hio.
  assert (Hlogged : forall m,
    omap (fun e => match e with Logged x => Some x | _ => None end)
         (logged log m) = if log then [m] else [])
    by (intros m; by destruct log).
  assert (Hsilent : forall l : list (list N),
    flat_map (fun chunk : list N => @nil JsString) l = []).
  { induction l as [|x l IH]; [done |]. simpl. exact IH. }
  rewrite !omap_app, (effects_messages decode (fun _ => [])), Hlogged,
    Hsilent.
  destruct (imageCheck r w) as [[|]|];
    rewrite ?omap_app, ?effects_messages, ?Hlogged; simpl;
    rewrite ?app_nil_r.
  - by destruct log.
  - fold (chunksOf (spawn [js "pull"; Config.image r])).
    destruct log; simpl.
    + done.
    + unfold progressMessages. f_equal.
      induction (chunksOf (spawn [js "pull"; Config.image r])) as [|x l IH];
        [done |].
      simpl. destruct (falsy (trim (decode x))); simpl; exact IH.
  - by destruct log.
Qed.

End Platform.

(** A host on which the image is absent and the pull succeeds. *)
Definition daemon (args : list JsString) : list ChildEvent :=
  match args with
  | [_; _] =>
      [stdoutData (js "3.19: Pulling"); stderrData (js "  ");
       close (Some (ofZ 0))]
  | _ => [close (Some (ofZ 0))]
  end.

Lemma prepare_logs_progress_of_the_pull_witness :
  let w := {| machine := Utils.loaded {[ 0 := Utils.MockProcess ]}; io := [] |} in
  let r := Sample.sandbox [] [] in
  let w' :=
    (prepareDockerSandbox Sample.path_resolve ascii daemon Sample.noHost 0
       (Sample.alpine (ofZ 1000) (ofZ 1000)) true w).2 in
  messages w'
  = messages w
    ++ (js "[Sandbox] Checking Docker image: " ++ Config.image r)
       :: match imageCheck ascii daemon r w with
          | Some false =>
              (js "[Sandbox] Image missing; pulling: " ++ Config.image r)
              :: flat_map
                   (fun chunk =>
                      if falsy (trim (ascii chunk)) then []
                      else [js "[Sandbox] " ++ trim (ascii chunk)])
                   (chunksOf (daemon [js "pull"; Config.image r]))
          | _ => []
          end.
Proof.
  apply (prepare_logs_progress_of_the_pull Sample.path_resolve ascii daemon
           Sample.noHost 0 (Sample.alpine (ofZ 1000) (ofZ 1000)) true
           {| machine := Utils.loaded {[ 0 := Utils.MockProcess ]}; io := [] |}
           (Sample.sandbox [] [])).
  vm_compute. reflexivity.
Defined.

End PrepareProps.
